(** * fetch-logs-with-cache: range algebra, range store and cache coordinator

    A shallow embedding of [util.ts] (block ranges, [subtractRanges],
    [mergeRanges], tag resolution) and of the [LogCache] class of
    [index.ts], followed by the properties proved about them.

    Modelling conventions.
    - Block numbers, log indices and page sizes are JavaScript numbers
      holding integers; they are modelled as [Z].
    - A [BlockRange] is a JavaScript object.  [mergeRanges] sorts its
      argument in place and assigns to [currentRange.toBlock], so it is
      modelled over a store of objects ([heap]) with arrays of references.
    - The provider is a snapshot of the chain: its answers are functions of
      the request.  A request that fails or yields no block is [None].
    - The SQLite database is a pair of tables (lists of rows, in insertion
      order).  Every statement may fail according to a fault schedule;
      [transaction] rolls the tables back when its body fails.
    - Effects are threaded through a state-and-error monad over [World].
    - The page loop of [fetchLogs] recurses on a bound, the number of
      blocks of the range; [fetchLoop_fuel] shows it is never used up. *)

From Stdlib Require Import String Ascii ZArith List Lia Bool Permutation Sorted.
From Stdlib Require Import DecimalString.
Import ListNotations.
Open Scope Z_scope.

(* ================================================================== *)
(** * util.ts *)
(* ================================================================== *)

(** [type BlockRange = { fromBlock: number, toBlock: number }] *)
Record BlockRange : Type := mkRange { fromBlock : Z; toBlock : Z }.

(** The data-model invariant of a block range: a closed, non-empty
    interval. *)
Definition valid (r : BlockRange) : Prop := fromBlock r <= toBlock r.

(** Block [b] lies in the closed interval [r]. *)
Definition inRange (r : BlockRange) (b : Z) : Prop :=
  fromBlock r <= b /\ b <= toBlock r.

Definition inRangeb (r : BlockRange) (b : Z) : bool :=
  (fromBlock r <=? b) && (b <=? toBlock r).

(** Block [b] lies in some interval of the list. *)
Definition covers (l : list BlockRange) (b : Z) : Prop :=
  exists r, In r l /\ inRange r b.

Definition coversb (l : list BlockRange) (b : Z) : bool :=
  existsb (fun r => inRangeb r b) l.

(** Two intervals share no block. *)
Definition disjoint (r s : BlockRange) : Prop :=
  forall b, ~ (inRange r b /\ inRange s b).

(** ** subtractRanges *)

(** The body of the inner [for (const z_ of z)] loop: what one remaining
    interval [z_] pushes onto [newZ] when [x] is removed from it. *)
Definition subtractStep (x : BlockRange) (newZ : list BlockRange)
    (z_ : BlockRange) : list BlockRange :=
  if (toBlock x <? fromBlock z_) || (fromBlock x >? toBlock z_) then
    newZ ++ [z_]
  else
    let newZ1 :=
      if fromBlock x >? fromBlock z_
      then newZ ++ [mkRange (fromBlock z_) (fromBlock x - 1)]
      else newZ in
    if toBlock x <? toBlock z_
    then newZ1 ++ [mkRange (toBlock x + 1) (toBlock z_)]
    else newZ1.

(** The intervals one remaining interval [z_] contributes to [newZ]. *)
Definition pieces (x z_ : BlockRange) : list BlockRange := subtractStep x [] z_.

(** [let z = [want]; for (const x of have) { ...; z = newZ }; return z] *)
Definition subtractRanges (want : BlockRange) (have : list BlockRange)
    : list BlockRange :=
  fold_left (fun z x => fold_left (subtractStep x) z []) have [want].

(** ** mergeRanges, on the object store *)

(** References to [BlockRange] objects and the store they live in. *)
Definition loc : Type := nat.
Definition heap : Type := loc -> BlockRange.

Definition heap_set (h : heap) (l : loc) (v : BlockRange) : heap :=
  fun l' => if Nat.eqb l' l then v else h l'.

(** [ranges.sort((a, b) => a.fromBlock - b.fromBlock)]: the sort of
    [Array.prototype.sort] is stable, so its result is the one of a stable
    insertion sort on the key [fromBlock]. *)
Fixpoint sortInsert (h : heap) (a : loc) (l : list loc) : list loc :=
  match l with
  | [] => [a]
  | b :: l' =>
      if fromBlock (h a) <=? fromBlock (h b) then a :: b :: l'
      else b :: sortInsert h a l'
  end.

Definition sortByFromBlock (h : heap) (l : list loc) : list loc :=
  fold_right (sortInsert h) [] l.

(** The sweep [for (let i = 1; i < sortedRanges.length; i++)]: [rest] is
    what remains of [sortedRanges], [currentRange] a reference and
    [mergedRanges] the array built so far.  Merging assigns to the
    [toBlock] field of the object [currentRange] refers to. *)
Fixpoint mergeSweep (h : heap) (currentRange : loc) (rest : list loc)
    (mergedRanges : list loc) : heap * list loc :=
  match rest with
  | [] => (h, mergedRanges ++ [currentRange])
  | nextRange :: rest' =>
      if fromBlock (h nextRange) <=? toBlock (h currentRange) + 1 then
        let h' := heap_set h currentRange
                    (mkRange (fromBlock (h currentRange))
                       (Z.max (toBlock (h currentRange))
                              (toBlock (h nextRange)))) in
        mergeSweep h' currentRange rest' mergedRanges
      else
        mergeSweep h nextRange rest' (mergedRanges ++ [currentRange])
  end.

(** The outcome of a call: the store, the argument array as the call
    leaves it (sorted in place) and the returned array. *)
Record MergeOutcome : Type := mkOutcome {
  mo_heap : heap;
  mo_ranges : list loc;
  mo_result : list loc
}.

Definition mergeRanges (h : heap) (ranges : list loc) : MergeOutcome :=
  if (length ranges <=? 1)%nat then mkOutcome h ranges ranges
  else
    let sortedRanges := sortByFromBlock h ranges in
    match sortedRanges with
    | [] => mkOutcome h sortedRanges []
    | currentRange :: rest =>
        let (h', mergedRanges) := mergeSweep h currentRange rest [] in
        mkOutcome h' sortedRanges mergedRanges
    end.

(** The values an array of references denotes in a store. *)
Definition deref (h : heap) (l : list loc) : list BlockRange := map h l.

(** [mergeRanges] applied to freshly built objects, one per value, as
    [_selectRanges] produces them from the rows of a query: object [i]
    holds the [i]-th value. *)
Definition freshHeap (rs : list BlockRange) : heap :=
  fun l => nth l rs (mkRange 0 0).

Definition mergeRangesOf (rs : list BlockRange) : list BlockRange :=
  let o := mergeRanges (freshHeap rs) (seq 0 (length rs)) in
  deref (mo_heap o) (mo_result o).

(** ** The value-level view of mergeRanges

    What the sort and the sweep compute on the values the references denote,
    without the store.  [mergeRanges_values] relates the two. *)

Fixpoint insertVal (a : BlockRange) (l : list BlockRange) : list BlockRange :=
  match l with
  | [] => [a]
  | b :: l' =>
      if fromBlock a <=? fromBlock b then a :: b :: l'
      else b :: insertVal a l'
  end.

Definition sortVals (l : list BlockRange) : list BlockRange :=
  fold_right insertVal [] l.

Fixpoint sweepVals (cur : BlockRange) (rest : list BlockRange)
    : list BlockRange :=
  match rest with
  | [] => [cur]
  | next :: rest' =>
      if fromBlock next <=? toBlock cur + 1 then
        sweepVals (mkRange (fromBlock cur) (Z.max (toBlock cur) (toBlock next)))
          rest'
      else cur :: sweepVals next rest'
  end.

Definition mergeVals (l : list BlockRange) : list BlockRange :=
  if (length l <=? 1)%nat then l
  else match sortVals l with
       | [] => []
       | cur :: rest => sweepVals cur rest
       end.

(** Order relations on intervals used to state the result of a merge. *)

(** [s] starts no earlier than [r]. *)
Definition fromLe (r s : BlockRange) : Prop := fromBlock r <= fromBlock s.

(** [s] starts after the block that follows [r]: the two neither overlap
    nor touch, i.e. [s.fromBlock <= r.toBlock + 1] fails. *)
Definition gap (r s : BlockRange) : Prop := toBlock r + 1 < fromBlock s.

(** [r] lies inside [m]. *)
Definition within (r m : BlockRange) : Prop :=
  fromBlock m <= fromBlock r /\ toBlock r <= toBlock m.

(** Two intervals overlap or are adjacent. *)
Definition touching (r s : BlockRange) : Prop :=
  fromBlock s <= toBlock r + 1 /\ fromBlock r <= toBlock s + 1.

(** ** tagToNumber and getFinalizedBlockNumber *)

(** [ethers.BlockTag], as the program uses it: a number or a string such
    as ['earliest'], ['latest'], ['finalized']. *)
Inductive BlockTag : Type :=
| TagNumber (n : Z)
| TagString (s : string).

(** One position of [filter.topics]: [null], a topic, or alternatives. *)
Inductive Topic : Type :=
| TopicNull
| TopicOne (t : string)
| TopicAnyOf (ts : list string).

(** The fields of [ethers.Log] the program reads, and the rest. *)
Record Log : Type := mkLog { blockNumber : Z; index : Z; payload : string }.

(** The part of a filter that does not depend on the block range. *)
Record FilterKey : Type := mkKey {
  address : option string;
  topics : list Topic
}.

(** [ethers.Filter]: [fromBlock] and [toBlock] are optional block tags. *)
Record Filter : Type := mkFilter {
  filterKey : FilterKey;
  fromTag : option BlockTag;
  toTag : option BlockTag
}.

(** [StrictFilter]: a filter whose [fromBlock] and [toBlock] are numbers. *)
Record StrictFilter : Type := mkStrict {
  strictKey : FilterKey;
  strictFrom : Z;
  strictTo : Z
}.

(** The provider, a snapshot of the chain.
    - [getBlock tag] is [(await provider.getBlock(tag))?.number];
    - [getLogs key a b] is [provider.getLogs({...filter, fromBlock: a,
      toBlock: b})], [None] when the request is rejected;
    - [chainId] is [(await provider.getNetwork()).chainId];
    - [_getFilter] is the provider's normalisation of address and topics;
    - [ethers_id] is [ethers.id], the hash of a string. *)
Record Provider : Type := mkProvider {
  getBlock : string -> option Z;
  getLogs_upstream : FilterKey -> Z -> Z -> option (list Log);
  chainId : Z;
  _getFilter : FilterKey -> FilterKey;
  ethers_id : string -> string
}.

(** The conditions the program raises, and those of its collaborators. *)
Inductive Error : Type :=
| InvalidPageSize        (* 'Invalid page size': InvalidArgument *)
| InvalidBlock           (* 'Invalid block': UnresolvableBlock *)
| CannotGetFinalized     (* 'Cannot get finalized block number' *)
| NotFinalized           (* 'toBlock is not finalized': FinalityViolation *)
| UpstreamFetchFailure   (* provider.getLogs rejects *)
| StoreFailure           (* a database statement throws *)
| CallbackFailure        (* a caller-supplied callback throws *)
| OutOfFuel.             (* the bound of the page loop is used up *)

Inductive Result (A : Type) : Type :=
| Ok (a : A)
| Err (e : Error).
Arguments Ok {A} a.
Arguments Err {A} e.

Definition tagToNumber (provider : Provider) (tag : BlockTag) : Result Z :=
  match tag with
  | TagNumber n => Ok n
  | TagString s =>
      match getBlock provider s with
      | Some y => Ok y
      | None => Err InvalidBlock
      end
  end.

Definition getFinalizedBlockNumber (provider : Provider) : Result Z :=
  match getBlock provider "finalized" with
  | Some n => Ok n
  | None => Err CannotGetFinalized
  end.

(* ================================================================== *)
(** * index.ts: the database *)
(* ================================================================== *)

(** A row of table [logs].  [data] is [JSON.stringify(log)]; reading a row
    back parses it, and the round trip is taken to be the identity, so the
    column holds the log. *)
Record LogEntry : Type := mkEntry {
  filterId : string;
  entryBlockNumber : Z;
  logIndex : Z;
  data : Log
}.

(** A row of table [fetched_ranges]. *)
Record RangeRow : Type := mkRow {
  rangeFilterId : string;
  rangeFrom : Z;
  rangeTo : Z
}.

(** The two tables, rows in insertion order. *)
Record Db : Type := mkDb {
  logs : list LogEntry;
  fetched_ranges : list RangeRow
}.

(** What the outside can observe of a run: requests for records sent to
    the provider and calls of the caller's callbacks, with their
    arguments. *)
Inductive Event : Type :=
| EvGetLogs (key : FilterKey) (fromBlockN toBlockN : Z)
| EvBatch (allLogs thisBatchLogs : list Log) (thisBatchFrom thisBatchTo : Z)
| EvCacheBatch (allLogs thisBatchLogs : list Log)
    (thisBatchFrom thisBatchTo : Z) (ranges : list BlockRange)
    (thisRangeIndex : nat) (totalScannedBlocks blocksToScan : Z).

(** The state a run threads.
    - [db]: the tables;
    - [trace]: the events so far, oldest first;
    - [statements]: how many statements have been executed;
    - [faulty]: the fault schedule, [faulty n] when statement number [n]
      throws;
    - [scanned]: the local [totalScannedBlocks] of [fetchLogsToCache],
      which its closure updates. *)
Record World : Type := mkWorld {
  db : Db;
  trace : list Event;
  statements : nat;
  faulty : nat -> bool;
  scanned : Z
}.

Definition M (A : Type) : Type := World -> Result A * World.

Definition ret {A} (a : A) : M A := fun w => (Ok a, w).

Definition throw {A} (e : Error) : M A := fun w => (Err e, w).

Definition bind {A B} (m : M A) (k : A -> M B) : M B :=
  fun w =>
    match m w with
    | (Ok a, w') => k a w'
    | (Err e, w') => (Err e, w')
    end.

Definition lift {A} (r : Result A) : M A :=
  match r with
  | Ok a => ret a
  | Err e => throw e
  end.

Declare Scope monad_scope.
Delimit Scope monad_scope with monad.
Notation "x <- m ;; k" := (bind m (fun x => k))
  (at level 61, m at next level, right associativity) : monad_scope.
Notation "m ;; k" := (bind m (fun _ => k))
  (at level 61, right associativity) : monad_scope.
Open Scope monad_scope.

Definition withDb (d : Db) (w : World) : World :=
  mkWorld d (trace w) (statements w) (faulty w) (scanned w).

Definition emit (e : Event) : M unit :=
  fun w => (Ok tt, mkWorld (db w) (trace w ++ [e]) (statements w)
                     (faulty w) (scanned w)).

Definition setScanned (n : Z) : M unit :=
  fun w => (Ok tt, mkWorld (db w) (trace w) (statements w) (faulty w) n).

Definition getScanned : M Z := fun w => (Ok (scanned w), w).

(** One prepared statement, executed: it throws when the schedule says so
    and otherwise reads and updates the tables. *)
Definition statement {A} (run : Db -> A * Db) : M A :=
  fun w =>
    let w' := mkWorld (db w) (trace w) (S (statements w)) (faulty w)
                (scanned w) in
    if faulty w (statements w) then (Err StoreFailure, w')
    else let (a, d) := run (db w) in (Ok a, withDb d w').

(** [this.db.transaction(() => { body })()]: when the body throws, the
    tables are rolled back to what they were and the exception
    propagates. *)
Definition transaction {A} (body : M A) : M A :=
  fun w =>
    match body w with
    | (Ok a, w') => (Ok a, w')
    | (Err e, w') => (Err e, withDb (db w) w')
    end.

(** [for (const x of xs) { body(x) }] *)
Fixpoint forEach {A} (xs : list A) (body : A -> M unit) : M unit :=
  match xs with
  | [] => ret tt
  | x :: xs' => body x ;; forEach xs' body
  end.

(** [INSERT OR IGNORE INTO logs ...]: the row is dropped when one with the
    same [(filterId, blockNumber, logIndex)] exists. *)
Definition sameLogKey (a b : LogEntry) : bool :=
  String.eqb (filterId a) (filterId b)
  && (entryBlockNumber a =? entryBlockNumber b)
  && (logIndex a =? logIndex b).

Definition insertOrIgnore (row : LogEntry) (d : Db) : Db :=
  if existsb (sameLogKey row) (logs d) then d
  else mkDb (logs d ++ [row]) (fetched_ranges d).

Definition _insertLogs (logs_ : list Log) (filterId_ : string) : M unit :=
  forEach logs_ (fun log =>
    statement (fun d =>
      (tt, insertOrIgnore
             (mkEntry filterId_ (blockNumber log) (index log) log) d))).

(** [ORDER BY blockNumber, logIndex] *)
Definition entryLe (a b : LogEntry) : bool :=
  (entryBlockNumber a <? entryBlockNumber b)
  || ((entryBlockNumber a =? entryBlockNumber b)
      && (logIndex a <=? logIndex b)).

Fixpoint insertEntry (a : LogEntry) (l : list LogEntry) : list LogEntry :=
  match l with
  | [] => [a]
  | b :: l' => if entryLe a b then a :: b :: l' else b :: insertEntry a l'
  end.

Definition orderEntries (l : list LogEntry) : list LogEntry :=
  fold_right insertEntry [] l.

Definition selectedLogs (d : Db) (filterId_ : string) (fromBlockN toBlockN : Z)
    : list LogEntry :=
  orderEntries
    (filter (fun row => String.eqb (filterId row) filterId_
                        && (fromBlockN <=? entryBlockNumber row)
                        && (entryBlockNumber row <=? toBlockN))
            (logs d)).

Definition _selectLogs (filterId_ : string) (fromBlockN toBlockN : Z)
    : M (list LogEntry) :=
  statement (fun d => (selectedLogs d filterId_ fromBlockN toBlockN, d)).

Definition _insertRange (filterId_ : string) (fromBlockN toBlockN : Z)
    : M unit :=
  statement (fun d =>
    (tt, mkDb (logs d)
           (fetched_ranges d ++ [mkRow filterId_ fromBlockN toBlockN]))).

(** [SELECT fromBlock, toBlock FROM fetched_ranges WHERE filterId = ?
    ORDER BY fromBlock]; rows with equal [fromBlock] are taken in insertion
    order. *)
Definition selectedRanges (d : Db) (filterId_ : string) : list BlockRange :=
  sortVals
    (map (fun row => mkRange (rangeFrom row) (rangeTo row))
         (filter (fun row => String.eqb (rangeFilterId row) filterId_)
                 (fetched_ranges d))).

Definition _selectRanges (filterId_ : string) : M (list BlockRange) :=
  statement (fun d => (selectedRanges d filterId_, d)).

Definition deleteRanges (filterId_ : string) (d : Db) : Db :=
  mkDb (logs d)
       (filter (fun row => negb (String.eqb (rangeFilterId row) filterId_))
               (fetched_ranges d)).

Definition _replaceRanges (filterId_ : string) (ranges : list BlockRange)
    : M unit :=
  statement (fun d => (tt, deleteRanges filterId_ d)) ;;
  forEach ranges (fun range =>
    _insertRange filterId_ (fromBlock range) (toBlock range)).

Definition _getMissingRanges (filterId_ : string) (want : BlockRange)
    : M (list BlockRange) :=
  have <- _selectRanges filterId_ ;;
  ret (subtractRanges want have).

Definition _tidyUpRanges (filterId_ : string) : M unit :=
  transaction (
    ranges <- _selectRanges filterId_ ;;
    match ranges with
    | [] => ret tt
    | _ => _replaceRanges filterId_ (mergeRangesOf ranges)
    end).

(* ================================================================== *)
(** * index.ts: the LogCache class *)
(* ================================================================== *)

(** ** getFilterId *)

Definition quote : string := String (ascii_of_nat 34) EmptyString.

Fixpoint joinWith (sep : string) (l : list string) : string :=
  match l with
  | [] => EmptyString
  | [s] => s
  | s :: l' => (s ++ sep ++ joinWith sep l')%string
  end.

(** [JSON.stringify] of a topic list (topics are hex strings, nothing to
    escape). *)
Definition stringifyString (s : string) : string :=
  (quote ++ s ++ quote)%string.

Definition stringifyTopic (t : Topic) : string :=
  match t with
  | TopicNull => "null"
  | TopicOne s => stringifyString s
  | TopicAnyOf ts =>
      ("[" ++ joinWith "," (map stringifyString ts) ++ "]")%string
  end.

Definition stringifyTopics (ts : list Topic) : string :=
  ("[" ++ joinWith "," (map stringifyTopic ts) ++ "]")%string.

Definition showNumber (n : Z) : string := NilZero.string_of_int (Z.to_int n).

Definition showAddress (a : option string) : string :=
  match a with
  | Some s => s
  | None => "undefined"
  end.

Definition getFilterId (provider : Provider) (key : FilterKey) : string :=
  let _filter := _getFilter provider key in
  let str := (showNumber (chainId provider) ++ ":"
              ++ showAddress (address _filter) ++ ":"
              ++ stringifyTopics (topics _filter))%string in
  ethers_id provider str.

(** ** toStrictFilter *)

(** JavaScript truthiness of an optional block tag: [undefined], the number
    [0] and the empty string are falsy. *)
Definition truthy (t : option BlockTag) : bool :=
  match t with
  | None => false
  | Some (TagNumber n) => negb (n =? 0)
  | Some (TagString s) => negb (String.eqb s EmptyString)
  end.

(** [t || d] *)
Definition orElse (t : option BlockTag) (d : BlockTag) : BlockTag :=
  match t with
  | Some tag => if truthy t then tag else d
  | None => d
  end.

Definition toStrictFilter (provider : Provider) (filter : Filter)
    (defaultToBlock : BlockTag) : Result StrictFilter :=
  match tagToNumber provider (orElse (fromTag filter) (TagString "earliest")) with
  | Err e => Err e
  | Ok fromBlockN =>
      match tagToNumber provider (orElse (toTag filter) defaultToBlock) with
      | Err e => Err e
      | Ok toBlockN => Ok (mkStrict (filterKey filter) fromBlockN toBlockN)
      end
  end.

(** A strict filter used where a [Filter] or a [BlockRange] is expected,
    and the object spreads of the program. *)
Definition asFilter (sf : StrictFilter) : Filter :=
  mkFilter (strictKey sf) (Some (TagNumber (strictFrom sf)))
    (Some (TagNumber (strictTo sf))).

Definition asRange (sf : StrictFilter) : BlockRange :=
  mkRange (strictFrom sf) (strictTo sf).

(** [{ ...filter, ...range }] *)
Definition withRange (filter : Filter) (range : BlockRange) : Filter :=
  mkFilter (filterKey filter) (Some (TagNumber (fromBlock range)))
    (Some (TagNumber (toBlock range))).

(** [{ ...strictFilter, toBlock: n }] *)
Definition withToBlock (sf : StrictFilter) (n : Z) : Filter :=
  mkFilter (strictKey sf) (Some (TagNumber (strictFrom sf)))
    (Some (TagNumber n)).

(** [{ ...strictFilter, fromBlock: n }] *)
Definition withFromBlock (sf : StrictFilter) (n : Z) : Filter :=
  mkFilter (strictKey sf) (Some (TagNumber n))
    (Some (TagNumber (strictTo sf))).

(** ** Callbacks *)

(** A caller's callback observes its arguments and may throw: it is a
    function to [bool], [false] when it throws.  Each call is recorded in
    the trace. *)
Definition FetchLogsBatchCallback : Type :=
  list Log -> list Log -> Z -> Z -> bool.

Definition FetchLogsToCacheBatchCallback : Type :=
  list Log -> list Log -> Z -> Z -> list BlockRange -> nat -> Z -> Z -> bool.

(** What [fetchLogs] is handed: a caller's callback or a closure of the
    class, which runs in the same state. *)
Definition BatchClosure : Type := list Log -> list Log -> Z -> Z -> M unit.

Definition callBatch (cb : FetchLogsBatchCallback) : BatchClosure :=
  fun allLogs thisBatchLogs thisBatchFrom thisBatchTo =>
    emit (EvBatch allLogs thisBatchLogs thisBatchFrom thisBatchTo) ;;
    if cb allLogs thisBatchLogs thisBatchFrom thisBatchTo then ret tt
    else throw CallbackFailure.

Definition callCacheBatch (cb : FetchLogsToCacheBatchCallback)
    (allLogs thisBatchLogs : list Log) (thisBatchFrom thisBatchTo : Z)
    (ranges : list BlockRange) (thisRangeIndex : nat)
    (totalScannedBlocks blocksToScan : Z) : M unit :=
  emit (EvCacheBatch allLogs thisBatchLogs thisBatchFrom thisBatchTo ranges
          thisRangeIndex totalScannedBlocks blocksToScan) ;;
  if cb allLogs thisBatchLogs thisBatchFrom thisBatchTo ranges thisRangeIndex
       totalScannedBlocks blocksToScan
  then ret tt else throw CallbackFailure.

(** [batchCallback?.(...)] *)
Definition callOptional (cb : option BatchClosure) : BatchClosure :=
  fun allLogs thisBatchLogs thisBatchFrom thisBatchTo =>
    match cb with
    | Some f => f allLogs thisBatchLogs thisBatchFrom thisBatchTo
    | None => ret tt
    end.

(** ** fetchLogs *)

(** [await provider.getLogs({ ...filter, fromBlock, toBlock })] *)
Definition providerGetLogs (provider : Provider) (key : FilterKey)
    (fromBlockN toBlockN : Z) : M (list Log) :=
  emit (EvGetLogs key fromBlockN toBlockN) ;;
  match getLogs_upstream provider key fromBlockN toBlockN with
  | Some thisBatchLogs => ret thisBatchLogs
  | None => throw UpstreamFetchFailure
  end.

(** The loop [while (fromBlock <= strictFilter.toBlock)].  [fuel] bounds
    the number of iterations; [fetchLogs] supplies the number of blocks of
    the range, which is never used up ([fetchLoop_fuel]). *)
Fixpoint fetchLoop (fuel : nat) (provider : Provider) (key : FilterKey)
    (pageSize : Z) (batchCallback : option BatchClosure)
    (strictToBlock : Z) (fromBlockN : Z) (logs_ : list Log)
    : M (list Log) :=
  if fromBlockN <=? strictToBlock then
    match fuel with
    | O => throw OutOfFuel
    | S fuel' =>
        let thisToBlock := Z.min (fromBlockN + pageSize - 1) strictToBlock in
        thisBatchLogs <- providerGetLogs provider key fromBlockN thisToBlock ;;
        let logs' := logs_ ++ thisBatchLogs in
        callOptional batchCallback logs' thisBatchLogs fromBlockN thisToBlock ;;
        fetchLoop fuel' provider key pageSize batchCallback strictToBlock
          (thisToBlock + 1) logs'
    end
  else ret logs_.

Definition fetchLogs (provider : Provider) (filter : Filter) (pageSize : Z)
    (batchCallback : option BatchClosure) : M (list Log) :=
  if pageSize <? 1 then throw InvalidPageSize
  else
    strictFilter <- lift (toStrictFilter provider filter (TagString "latest")) ;;
    fetchLoop (Z.to_nat (strictTo strictFilter - strictFrom strictFilter + 1))
      provider (filterKey filter) pageSize batchCallback
      (strictTo strictFilter) (strictFrom strictFilter) [].

(** ** _fetchRangeToCache *)

(** The closure handed to [fetchLogs]: one transaction holding the inserts
    of the page's logs and of the page's range, then the callback. *)
Definition cachePage (filterId_ : string) (batchCallback : option BatchClosure)
    : BatchClosure :=
  fun logs_ thisBatchLogs thisBatchFrom thisBatchTo =>
    transaction (
      _insertLogs thisBatchLogs filterId_ ;;
      _insertRange filterId_ thisBatchFrom thisBatchTo) ;;
    callOptional batchCallback logs_ thisBatchLogs thisBatchFrom thisBatchTo.

Definition _fetchRangeToCache (provider : Provider) (strictFilter : Filter)
    (pageSize : Z) (batchCallback : option BatchClosure) : M unit :=
  let filterId_ := getFilterId provider (filterKey strictFilter) in
  fetchLogs provider strictFilter pageSize
    (Some (cachePage filterId_ batchCallback)) ;;
  ret tt.

(** ** fetchLogsToCache *)

(** The closure of the loop over the missing ranges: it adds the page to
    [totalScannedBlocks] and forwards to the caller's callback. *)
Definition progress (batchCallback : option FetchLogsToCacheBatchCallback)
    (missingRanges : list BlockRange) (i : nat) (blocksToScan : Z)
    : BatchClosure :=
  fun logs_ thisBatchLogs thisBatchFrom thisBatchTo =>
    total <- getScanned ;;
    setScanned (total + (thisBatchTo - thisBatchFrom + 1)) ;;
    match batchCallback with
    | Some cb =>
        callCacheBatch cb logs_ thisBatchLogs thisBatchFrom thisBatchTo
          missingRanges i (total + (thisBatchTo - thisBatchFrom + 1))
          blocksToScan
    | None => ret tt
    end.

(** [for (let i = 0; i < missingRanges.length; i++)], from index [i] on:
    [todo] is [missingRanges.slice(i)]. *)
Fixpoint fetchMissing (provider : Provider) (filter : Filter) (pageSize : Z)
    (batchCallback : option FetchLogsToCacheBatchCallback)
    (missingRanges : list BlockRange) (blocksToScan : Z)
    (i : nat) (todo : list BlockRange) : M unit :=
  match todo with
  | [] => ret tt
  | range :: todo' =>
      _fetchRangeToCache provider (withRange filter range) pageSize
        (Some (progress batchCallback missingRanges i blocksToScan)) ;;
      fetchMissing provider filter pageSize batchCallback missingRanges
        blocksToScan (S i) todo'
  end.

Definition fetchLogsToCache (provider : Provider) (filter : Filter)
    (pageSize : Z) (batchCallback : option FetchLogsToCacheBatchCallback)
    : M unit :=
  if pageSize <? 1 then throw InvalidPageSize
  else
    strictFilter <-
      lift (toStrictFilter provider filter (TagString "finalized")) ;;
    lastFinalizedBlock <- lift (getFinalizedBlockNumber provider) ;;
    if strictTo strictFilter >? lastFinalizedBlock then throw NotFinalized
    else
      let filterId_ := getFilterId provider (filterKey filter) in
      _tidyUpRanges filterId_ ;;
      missingRanges <- _getMissingRanges filterId_ (asRange strictFilter) ;;
      setScanned 0 ;;
      let blocksToScan :=
        fold_left (fun acc range => acc + toBlock range - fromBlock range + 1)
          missingRanges 0 in
      fetchMissing provider filter pageSize batchCallback missingRanges
        blocksToScan 0 missingRanges ;;
      _tidyUpRanges filterId_.

(** ** readLogsFromCache *)

Definition readLogsFromCache (provider : Provider) (filter : Filter)
    : M (list Log) :=
  strictFilter <- lift (toStrictFilter provider filter (TagString "latest")) ;;
  let filterId_ := getFilterId provider (filterKey filter) in
  rows <- _selectLogs filterId_ (strictFrom strictFilter)
            (strictTo strictFilter) ;;
  ret (map data rows).

(** ** getLogs *)

Definition getLogs (provider : Provider) (filter : Filter) (pageSize : Z)
    (finalizedLogsCallback : option FetchLogsToCacheBatchCallback)
    (unfinalizedLogsCallback : option FetchLogsBatchCallback)
    : M (list Log) :=
  lastFinalizedBlock <-
    match getBlock provider "finalized" with
    | Some n => ret n
    | None => throw InvalidBlock
    end ;;
  strictFilter <- lift (toStrictFilter provider filter (TagString "latest")) ;;
  fetchLogsToCache provider
    (withToBlock strictFilter
       (Z.min (strictTo strictFilter) lastFinalizedBlock))
    pageSize finalizedLogsCallback ;;
  logs_ <- readLogsFromCache provider
             (withToBlock strictFilter
                (Z.min (strictTo strictFilter) lastFinalizedBlock)) ;;
  if strictTo strictFilter >? lastFinalizedBlock then
    unfinalizedLogs <-
      fetchLogs provider (withFromBlock strictFilter (lastFinalizedBlock + 1))
        pageSize (option_map callBatch unfinalizedLogsCallback) ;;
    ret (logs_ ++ unfinalizedLogs)
  else ret logs_.

(* ================================================================== *)
(** * Notions used to state the properties *)
(* ================================================================== *)

(** ** The pages of a walk *)

(** Number of pages of [pageSize] blocks needed for [fromBlockN ..
    toBlockN], and page number [k], counted from 0. *)
Definition pageCount (pageSize fromBlockN toBlockN : Z) : nat :=
  Z.to_nat ((toBlockN - fromBlockN + pageSize) / pageSize).

Definition page (pageSize fromBlockN toBlockN : Z) (k : nat) : BlockRange :=
  mkRange (fromBlockN + Z.of_nat k * pageSize)
          (Z.min (fromBlockN + Z.of_nat k * pageSize + pageSize - 1) toBlockN).

Definition pagesOf (pageSize fromBlockN toBlockN : Z) : list BlockRange :=
  map (page pageSize fromBlockN toBlockN)
      (seq 0 (pageCount pageSize fromBlockN toBlockN)).

(** Consecutive pages [[f, min (f + pageSize - 1) toBlock]] that start at
    [f] and stop once [toBlock] is passed. *)
Inductive Walk (pageSize toBlockN : Z) : Z -> list BlockRange -> Prop :=
| WalkDone f : toBlockN < f -> Walk pageSize toBlockN f []
| WalkPage f rest :
    f <= toBlockN ->
    Walk pageSize toBlockN (Z.min (f + pageSize - 1) toBlockN + 1) rest ->
    Walk pageSize toBlockN f
      (mkRange f (Z.min (f + pageSize - 1) toBlockN) :: rest).

(** What the provider answers for a page (no records when it rejects). *)
Definition answer (provider : Provider) (key : FilterKey) (pg : BlockRange)
    : list Log :=
  match getLogs_upstream provider key (fromBlock pg) (toBlock pg) with
  | Some l => l
  | None => []
  end.

(** The events of a walk over [pages] that has accumulated [acc] so far:
    per page one request, then one call of the callback when there is
    one, with all records so far, the page's records and its bounds. *)
Fixpoint walkEvents (provider : Provider) (key : FilterKey)
    (hasCallback : bool) (acc : list Log) (pages : list BlockRange)
    : list Event :=
  match pages with
  | [] => []
  | pg :: pages' =>
      let thisBatch := answer provider key pg in
      EvGetLogs key (fromBlock pg) (toBlock pg)
      :: (if hasCallback
          then [EvBatch (acc ++ thisBatch) thisBatch (fromBlock pg) (toBlock pg)]
          else [])
      ++ walkEvents provider key hasCallback (acc ++ thisBatch) pages'
  end.

Definition isSome {A} (o : option A) : bool :=
  match o with Some _ => true | None => false end.

(** The world with more events recorded. *)
Definition appendTrace (evs : list Event) (w : World) : World :=
  mkWorld (db w) (trace w ++ evs) (statements w) (faulty w) (scanned w).

(** ** The store *)

(** No statement ever fails. *)
Definition noFaults (w : World) : Prop := forall n, faulty w n = false.

(** The tables after the logs of a page are inserted for a filter, and
    after the page's range is inserted as well. *)
Definition insertAllLogs (filterId_ : string) (thisBatchLogs : list Log)
    (d : Db) : Db :=
  fold_left
    (fun d0 log =>
       insertOrIgnore (mkEntry filterId_ (blockNumber log) (index log) log) d0)
    thisBatchLogs d.

Definition commitPage (filterId_ : string) (thisBatchLogs : list Log)
    (thisBatchFrom thisBatchTo : Z) (d : Db) : Db :=
  let d' := insertAllLogs filterId_ thisBatchLogs d in
  mkDb (logs d') (fetched_ranges d' ++ [mkRow filterId_ thisBatchFrom thisBatchTo]).

Definition commitPages (provider : Provider) (key : FilterKey)
    (filterId_ : string) (pages : list BlockRange) (d : Db) : Db :=
  fold_left
    (fun d0 pg =>
       commitPage filterId_ (answer provider key pg) (fromBlock pg)
         (toBlock pg) d0)
    pages d.

(** The row [_insertRange] writes for a range. *)
Definition rowOf (filterId_ : string) (r : BlockRange) : RangeRow :=
  mkRow filterId_ (fromBlock r) (toBlock r).

(** The ranges stored for the filter are valid and cover [want]: the range
    is fully cached. *)
Definition cachedIn (d : Db) (filterId_ : string) (want : BlockRange) : Prop :=
  Forall valid (selectedRanges d filterId_) /\
  forall b, inRange want b -> covers (selectedRanges d filterId_) b.

(** A closure that leaves the tables alone, as a caller's observer does. *)
Definition keepsDb (cb : BatchClosure) : Prop :=
  forall allLogs thisBatchLogs thisBatchFrom thisBatchTo w,
    db (snd (cb allLogs thisBatchLogs thisBatchFrom thisBatchTo w)) = db w.

(** A computation that never fails with [e]. *)
Definition neverRaises {A} (e : Error) (m : M A) : Prop :=
  forall w, fst (m w) <> Err e.

(** ** A small chain, for concrete runs *)

Definition demoKey : FilterKey := mkKey (Some "0xabc"%string) [].

Definition demoChain : list Log :=
  [ mkLog 0 0 "genesis"; mkLog 50 3 "a"; mkLog 110 1 "b"; mkLog 140 7 "c" ].

(** Earliest block 0, last finalized block 100, latest block 150; the
    identity stands for the hash. *)
Definition demoProvider : Provider :=
  mkProvider
    (fun tag =>
       if String.eqb tag "earliest" then Some 0
       else if String.eqb tag "finalized" then Some 100
       else if String.eqb tag "latest" then Some 150
       else None)
    (fun _ a b =>
       Some (filter (fun l => (a <=? blockNumber l) && (blockNumber l <=? b))
                    demoChain))
    1 (fun key => key) (fun s => s).

Definition demoId : string := getFilterId demoProvider demoKey.

Definition emptyWorld : World :=
  mkWorld (mkDb [] []) [] 0 (fun _ => false) 0.

Definition demoFilter (a b : Z) : Filter :=
  mkFilter demoKey (Some (TagNumber a)) (Some (TagNumber b)).

(** The empty database with a store whose third statement fails. *)
Definition faultyWorld : World :=
  mkWorld (mkDb [] []) [] 0 (fun n => Nat.eqb n 2) 0.

(** The world a first request for blocks 1 to 100, in pages of 10 blocks,
    leaves behind. *)
Definition demoCachedWorld : World :=
  snd (getLogs demoProvider (demoFilter 1 100) 10 None None emptyWorld).

(* ================================================================== *)
(** * Further notions *)
(* ================================================================== *)

(** [x] lies strictly inside [z_]: removing it leaves two pieces. *)
Definition strictlyInside (x z_ : BlockRange) : bool :=
  (fromBlock z_ <? fromBlock x) && (toBlock x <? toBlock z_).

(** The block ranges of the requests for records in a list of events. *)
Fixpoint requested (evs : list Event) : list BlockRange :=
  match evs with
  | [] => []
  | EvGetLogs _ a b :: evs' => mkRange a b :: requested evs'
  | _ :: evs' => requested evs'
  end.

(** Number of blocks of a range. *)
Definition blocksIn (r : BlockRange) : Z := toBlock r - fromBlock r + 1.

(** [q] starts after [p] ends. *)
Definition before (p q : BlockRange) : Prop := toBlock p < fromBlock q.

(** Block/index order on logs. *)
Definition logLe (a b : Log) : Prop :=
  blockNumber a < blockNumber b \/
  (blockNumber a = blockNumber b /\ index a <= index b).

(** A provider that answers a request for [[a, b]] with records of blocks
    [a] to [b], in block/index order. *)
Definition ordered (provider : Provider) (key : FilterKey) : Prop :=
  forall a b l,
    getLogs_upstream provider key a b = Some l ->
    Forall (fun log => a <= blockNumber log <= b) l /\
    StronglySorted logLe l.

(** The page loop started at [fromBlockN] with the bound [fetchLogs] gives
    it for that start. *)
Definition fetchFrom (provider : Provider) (key : FilterKey) (pageSize : Z)
    (cb : option BatchClosure) (strictToBlock fromBlockN : Z)
    (acc : list Log) : M (list Log) :=
  fetchLoop (Z.to_nat (strictToBlock - fromBlockN + 1)) provider key pageSize
    cb strictToBlock fromBlockN acc.

(** A page the provider answers and for which the caller's callback, if
    any, returns. *)
Definition passes (provider : Provider) (key : FilterKey)
    (cb : option FetchLogsBatchCallback) (pg : BlockRange) : Prop :=
  getLogs_upstream provider key (fromBlock pg) (toBlock pg) <> None /\
  forall c, cb = Some c ->
    forall a b, c a b (fromBlock pg) (toBlock pg) = true.

(** ** What a computation does to the tables *)

(** Whatever the state it starts in, the computation takes the tables from
    [d] to some [d'] with [R d d']. *)
Definition always {A} (R : Db -> Db -> Prop) (m : M A) : Prop :=
  forall w, R (db w) (db (snd (m w))).

(** The rows of table [fetched_ranges] that belong to other filters. *)
Definition otherRanges (filterId_ : string) (d : Db) : list RangeRow :=
  filter (fun row => negb (String.eqb (rangeFilterId row) filterId_))
         (fetched_ranges d).

(** From [d] to [d'] the table of logs only gained rows, all of the given
    filter, and the ranges of the other filters are the same. *)
Definition extends (filterId_ : string) (d d' : Db) : Prop :=
  (exists added,
     logs d' = logs d ++ added /\
     Forall (fun row => filterId row = filterId_) added) /\
  otherRanges filterId_ d' = otherRanges filterId_ d.

(** The key of a row of table [logs]. *)
Definition logKey (row : LogEntry) : string * Z * Z :=
  (filterId row, entryBlockNumber row, logIndex row).

(** The tables are consistent: no two rows of [logs] have the same key
    (the UNIQUE constraint), the columns [blockNumber] and [logIndex] of a
    row are those of the log it stores, and every stored range is
    valid. *)
Definition consistent (d : Db) : Prop :=
  NoDup (map logKey (logs d)) /\
  Forall (fun row => entryBlockNumber row = blockNumber (data row) /\
                     logIndex row = index (data row)) (logs d) /\
  Forall (fun row => rangeFrom row <= rangeTo row) (fetched_ranges d).

(** The tables after [_replaceRanges], when no statement fails. *)
Definition replaced (filterId_ : string) (ranges : list BlockRange) (d : Db)
    : Db :=
  mkDb (logs d)
       (fetched_ranges (deleteRanges filterId_ d)
        ++ map (rowOf filterId_) ranges).

(** The tables after [_tidyUpRanges], when no statement fails. *)
Definition tidied (filterId_ : string) (d : Db) : Db :=
  match selectedRanges d filterId_ with
  | [] => d
  | ranges => replaced filterId_ (mergeRangesOf ranges) d
  end.

(** ** A provider that serves a chain *)

(** The record is of a block of [[a, b]]. *)
Definition inBlocks (a b : Z) (log : Log) : bool :=
  (a <=? blockNumber log) && (blockNumber log <=? b).

(** Strict block/index order on logs. *)
Definition logLt (a b : Log) : Prop :=
  blockNumber a < blockNumber b \/
  (blockNumber a = blockNumber b /\ index a < index b).

(** The provider answers every request for at most [pageSize] blocks
    within [[lo, hi]] with the records of [chain] in the requested
    blocks. *)
Definition serves (provider : Provider) (key : FilterKey) (chain : list Log)
    (pageSize lo hi : Z) : Prop :=
  forall a b,
    lo <= a -> a <= b -> b <= hi -> b - a + 1 <= pageSize ->
    getLogs_upstream provider key a b = Some (filter (inBlocks a b) chain).

(** The row [_insertLogs] writes for a record. *)
Definition entryOf (filterId_ : string) (log : Log) : LogEntry :=
  mkEntry filterId_ (blockNumber log) (index log) log.

(** The filter's part of the tables mirrors the chain: every stored record
    of the filter is a record of the chain, and every record of the chain
    in a block covered by the filter's ranges is stored. *)
Definition mirrors (filterId_ : string) (chain : list Log) (d : Db) : Prop :=
  (forall row, In row (logs d) -> filterId row = filterId_ ->
               In (data row) chain) /\
  (forall log, In log chain ->
               covers (selectedRanges d filterId_) (blockNumber log) ->
               In (entryOf filterId_ log) (logs d)).

(** The part of that which does not depend on the ranges, for consistent
    tables. *)
Definition faithful (filterId_ : string) (chain : list Log) (d : Db) : Prop :=
  consistent d /\
  forall row, In row (logs d) -> filterId row = filterId_ ->
              In (data row) chain.

(** The tables after [_fetchRangeToCache] for a range, and after the loop
    of [fetchLogsToCache] over a list of ranges, when nothing fails. *)
Definition fetchedRange (provider : Provider) (key : FilterKey)
    (filterId_ : string) (pageSize : Z) (range : BlockRange) (d : Db) : Db :=
  commitPages provider key filterId_
    (pagesOf pageSize (fromBlock range) (toBlock range)) d.

Definition fetchedAll (provider : Provider) (key : FilterKey)
    (filterId_ : string) (pageSize : Z) (ranges : list BlockRange) (d : Db)
    : Db :=
  fold_left (fun d0 range => fetchedRange provider key filterId_ pageSize
                               range d0)
    ranges d.

(** The tables after [fetchLogsToCache] for the range [want], when nothing
    fails. *)
Definition populated (provider : Provider) (key : FilterKey)
    (filterId_ : string) (pageSize : Z) (want : BlockRange) (d : Db) : Db :=
  tidied filterId_
    (fetchedAll provider key filterId_ pageSize
       (subtractRanges want (selectedRanges (tidied filterId_ d) filterId_))
       (tidied filterId_ d)).

(** The order of [ORDER BY blockNumber, logIndex], as a relation. *)
Definition rowLe (a b : LogEntry) : Prop := entryLe a b = true.

(** The rows [_selectLogs] reads, before they are ordered. *)
Definition matching (filterId_ : string) (fromBlockN toBlockN : Z)
    (row : LogEntry) : bool :=
  String.eqb (filterId row) filterId_
  && (fromBlockN <=? entryBlockNumber row)
  && (entryBlockNumber row <=? toBlockN).

(** ** What a run requests and reports *)

(** [ranges.reduce((acc, range) => acc + range.toBlock - range.fromBlock + 1, 0)] *)
Definition blocksOf (ranges : list BlockRange) : Z :=
  fold_left (fun acc range => acc + toBlock range - fromBlock range + 1)
    ranges 0.

(** The pages of a list of ranges, range after range. *)
Definition pagesOfAll (pageSize : Z) (ranges : list BlockRange)
    : list BlockRange :=
  flat_map (fun range => pagesOf pageSize (fromBlock range) (toBlock range))
    ranges.

(** From [w] to [w'] the fault schedule of the store is the same, the
    requests made were for [pages], in that order, and their blocks were
    added to [totalScannedBlocks]. *)
Definition advance (pages : list BlockRange) (w w' : World) : Prop :=
  faulty w' = faulty w /\
  scanned w' = scanned w + blocksOf pages /\
  exists evs, trace w' = trace w ++ evs /\ requested evs = pages.

(** A closure that returns, leaves the tables alone, makes no request and
    adds the blocks of its page to [totalScannedBlocks]. *)
Definition reports (c : BatchClosure) : Prop :=
  forall allLogs thisBatchLogs thisBatchFrom thisBatchTo w,
  exists w',
    c allLogs thisBatchLogs thisBatchFrom thisBatchTo w = (Ok tt, w') /\
    db w' = db w /\
    advance [] (mkWorld (db w) (trace w) (statements w) (faulty w)
                  (scanned w + (thisBatchTo - thisBatchFrom + 1))) w'.

(** The provider answers every request for at most [pageSize] blocks
    within [[lo, hi]]. *)
Definition answers (provider : Provider) (key : FilterKey)
    (pageSize lo hi : Z) : Prop :=
  forall a b,
    lo <= a -> a <= b -> b <= hi -> b - a + 1 <= pageSize ->
    getLogs_upstream provider key a b <> None.

(* ================================================================== *)
(** * Properties of the range algebra *)
(* ================================================================== *)

Section RangeFacts.

Lemma inRangeb_spec r b : inRangeb r b = true <-> inRange r b.
Proof.
  unfold inRangeb, inRange.
  rewrite andb_true_iff, !Z.leb_le. tauto.
Qed.

Lemma coversb_spec l b : coversb l b = true <-> covers l b.
Proof.
  unfold coversb, covers. rewrite existsb_exists.
  split; intros [r [Hin Hr]]; exists r; split; auto;
    now apply inRangeb_spec.
Qed.

Lemma covers_nil b : ~ covers [] b.
Proof. intros [r [[] _]]. Qed.

Lemma covers_cons r l b : covers (r :: l) b <-> inRange r b \/ covers l b.
Proof.
  unfold covers; split.
  - intros [s [[<- | Hin] Hs]]; [now left | right; now exists s].
  - intros [Hr | [s [Hin Hs]]]; [exists r | exists s]; simpl; auto.
Qed.

Lemma covers_flat_map {A} (f : A -> list BlockRange) l b :
  covers (flat_map f l) b <-> exists a, In a l /\ covers (f a) b.
Proof.
  unfold covers; split.
  - intros [r [Hin Hr]]. apply in_flat_map in Hin as [a [Ha Hra]].
    exists a; split; auto. now exists r.
  - intros [a [Ha [r [Hin Hr]]]]. exists r; split; auto.
    apply in_flat_map. now exists a.
Qed.

Lemma covers_perm l1 l2 b : Permutation l1 l2 -> covers l1 b -> covers l2 b.
Proof.
  intros HP [r [Hin Hr]]. exists r; split; auto.
  now apply (Permutation_in _ HP).
Qed.

Lemma disjoint_sym r s : disjoint r s -> disjoint s r.
Proof. intros H b [Hs Hr]. now apply (H b). Qed.

(** Pairwise disjointness of a concatenation. *)
Lemma FOP_app {A} (R : A -> A -> Prop) l1 l2 :
  ForallOrdPairs R l1 -> ForallOrdPairs R l2 ->
  (forall a b, In a l1 -> In b l2 -> R a b) ->
  ForallOrdPairs R (l1 ++ l2).
Proof.
  induction 1 as [| a l1 Ha H1 IH]; intros H2 H12; simpl; auto.
  constructor.
  - apply Forall_app; split; auto.
    apply Forall_forall; intros b Hb. apply H12; simpl; auto.
  - apply IH; auto. intros; apply H12; simpl; auto.
Qed.

Lemma FOP_flat_map {A B} (R : B -> B -> Prop) (Q : A -> A -> Prop)
    (f : A -> list B) l :
  ForallOrdPairs Q l ->
  (forall a, In a l -> ForallOrdPairs R (f a)) ->
  (forall a a' b b', Q a a' -> In b (f a) -> In b' (f a') -> R b b') ->
  ForallOrdPairs R (flat_map f l).
Proof.
  intros HQ Hf HR.
  induction HQ as [| a l Ha HQ IH]; simpl; [constructor |].
  apply FOP_app.
  - apply Hf; simpl; auto.
  - apply IH. intros; apply Hf; simpl; auto.
  - intros b b' Hb Hb'. apply in_flat_map in Hb' as [a' [Ha' Hb']].
    rewrite Forall_forall in Ha. eapply HR; eauto.
Qed.

End RangeFacts.

(** ** subtractRanges *)

Section Subtract.

Lemma subtractStep_push x newZ z_ :
  subtractStep x newZ z_ = newZ ++ pieces x z_.
Proof.
  unfold pieces, subtractStep.
  destruct ((toBlock x <? fromBlock z_) || (fromBlock x >? toBlock z_));
    [reflexivity |].
  destruct (fromBlock x >? fromBlock z_), (toBlock x <? toBlock z_); simpl;
    rewrite <- ?app_assoc, ?app_nil_r; reflexivity.
Qed.

Lemma inner_loop_flat_map x z newZ :
  fold_left (subtractStep x) z newZ = newZ ++ flat_map (pieces x) z.
Proof.
  revert newZ; induction z as [| z_ z IH]; intros newZ; simpl.
  - now rewrite app_nil_r.
  - rewrite IH, subtractStep_push, <- app_assoc. reflexivity.
Qed.

Ltac split_tests :=
  unfold pieces, subtractStep;
  rewrite ?Z.gtb_ltb;
  repeat match goal with
  | |- context [Z.ltb ?a ?b] => destruct (Z.ltb_spec a b)
  end; simpl.

(** Each piece is a non-empty part of [z_] that avoids [x]. *)
Lemma pieces_sound x z_ p :
  In p (pieces x z_) ->
  (valid z_ -> valid p) /\
  (forall b, inRange p b -> inRange z_ b /\ ~ inRange x b).
Proof.
  unfold valid, inRange. revert p. split_tests; intros p Hp;
    repeat (destruct Hp as [<- | Hp]; [simpl; split; intros; lia |]);
    destruct Hp.
Qed.

(** Every block of [z_] outside [x] is in a piece. *)
Lemma pieces_complete x z_ b :
  inRange z_ b -> ~ inRange x b -> covers (pieces x z_) b.
Proof.
  unfold inRange. intros Hz Hx.
  assert (Hcase : b < fromBlock x \/ toBlock x < b) by lia.
  revert Hcase. split_tests; intros Hcase.
  all: try solve [exists z_; simpl; split; [auto | unfold inRange; lia]].
  all: destruct Hcase;
    try (exists (mkRange (fromBlock z_) (fromBlock x - 1));
         simpl; split; [tauto | unfold inRange; simpl; lia]);
    try (exists (mkRange (toBlock x + 1) (toBlock z_));
         simpl; split; [tauto | unfold inRange; simpl; lia]);
    lia.
Qed.

(** The pieces of one interval do not meet each other. *)
Lemma pieces_disjoint x z_ :
  valid x -> ForallOrdPairs disjoint (pieces x z_).
Proof.
  unfold valid. split_tests; intros Hx;
    repeat (constructor; simpl; auto).
  intros b [[? ?] [? ?]]; simpl in *; lia.
Qed.

(** One pass of the outer loop body, as a set and as a list. *)
Lemma pass_spec x z :
  valid x -> Forall valid z -> ForallOrdPairs disjoint z ->
  let z' := fold_left (subtractStep x) z [] in
  (forall b, covers z' b <-> covers z b /\ ~ inRange x b) /\
  Forall valid z' /\ ForallOrdPairs disjoint z'.
Proof.
  intros Hx Hz Hd. cbv zeta. rewrite inner_loop_flat_map. simpl.
  split; [| split].
  - intros b. rewrite covers_flat_map. split.
    + intros [z_ [Hin [p [Hp Hb]]]].
      destruct (pieces_sound _ _ _ Hp) as [_ Hs].
      destruct (Hs b Hb). split; auto. now exists z_.
    + intros [[z_ [Hin Hb]] Hnx]. exists z_; split; auto.
      now apply pieces_complete.
  - apply Forall_forall. intros p Hp.
    apply in_flat_map in Hp as [z_ [Hin Hp]].
    rewrite Forall_forall in Hz.
    apply (pieces_sound _ _ _ Hp); auto.
  - apply FOP_flat_map with (Q := disjoint); auto.
    + intros; now apply pieces_disjoint.
    + intros a a' p p' Haa Hp Hp' b [Hb Hb'].
      apply (Haa b); split.
      * now apply (pieces_sound _ _ _ Hp).
      * now apply (pieces_sound _ _ _ Hp').
Qed.

Lemma outer_loop_spec have : forall z,
  Forall valid have -> Forall valid z -> ForallOrdPairs disjoint z ->
  let out := fold_left (fun z x => fold_left (subtractStep x) z []) have z in
  (forall b, covers out b <-> covers z b /\ ~ covers have b) /\
  Forall valid out /\ ForallOrdPairs disjoint out.
Proof.
  induction have as [| x have IH]; intros z Hh Hz Hd; simpl.
  - split; [| split]; auto. intros b; split; [| tauto].
    intros H; split; auto. apply covers_nil.
  - inversion Hh as [| ? ? Hx Hh']; subst.
    destruct (pass_spec x z Hx Hz Hd) as (Hc & Hv & Hp).
    destruct (IH _ Hh' Hv Hp) as (Hc' & Hv' & Hp').
    split; [| split]; auto.
    intros b. rewrite Hc', Hc, covers_cons. tauto.
Qed.

End Subtract.

Lemma subtractRanges_spec (want : BlockRange) (have : list BlockRange) :
  valid want -> Forall valid have ->
  (forall b, covers (subtractRanges want have) b <->
             inRange want b /\ ~ covers have b) /\
  Forall valid (subtractRanges want have) /\
  ForallOrdPairs disjoint (subtractRanges want have).
Proof.
  intros Hw Hh.
  destruct (outer_loop_spec have [want] Hh) as (Hc & Hv & Hp).
  { now constructor. }
  { repeat constructor. }
  fold (subtractRanges want have) in Hc, Hv, Hp.
  split; [| split]; auto.
  intros b. rewrite Hc, covers_cons. split; [| tauto].
  intros [[H | H] Hn]; [tauto | now apply covers_nil in H].
Qed.

(** C2.  For a valid range [want] and a list [have] of valid ranges,
    [subtractRanges want have] covers exactly the blocks of [want] that lie
    in no interval of [have]; every returned interval is valid (never
    empty), meets no interval of [have], and the returned intervals are
    pairwise disjoint. *)
Theorem subtractRanges_exact_difference (want : BlockRange)
    (have : list BlockRange) :
  valid want -> Forall valid have ->
  (forall b, covers (subtractRanges want have) b <->
             inRange want b /\ ~ covers have b) /\
  Forall valid (subtractRanges want have) /\
  (forall r x, In r (subtractRanges want have) -> In x have -> disjoint r x) /\
  ForallOrdPairs disjoint (subtractRanges want have).
Proof.
  intros Hw Hh.
  destruct (subtractRanges_spec want have Hw Hh) as (Hcov & Hv & Hp).
  split; [| split; [| split]]; auto.
  intros r x Hr Hx b [Hb Hb'].
  assert (Hcb : covers (subtractRanges want have) b) by now exists r.
  apply Hcov in Hcb as [_ Hn]. apply Hn. now exists x.
Qed.

Lemma subtractRanges_exact_difference_witness :
  let want := mkRange 10 20 in
  let have := [mkRange 12 13; mkRange 18 25] in
  subtractRanges want have = [mkRange 10 11; mkRange 14 17] /\
  ForallOrdPairs disjoint (subtractRanges want have).
Proof.
  split; [reflexivity |].
  apply (subtractRanges_exact_difference (mkRange 10 20)
           [mkRange 12 13; mkRange 18 25]).
  - unfold valid; simpl; lia.
  - repeat constructor; unfold valid; simpl; lia.
Defined.

(** C8.  The order of [have] does not matter for the set of blocks that
    remain: for lists of valid ranges that are permutations of each other
    the two results cover the same blocks. *)
Theorem subtractRanges_have_order_irrelevant (want : BlockRange)
    (have1 have2 : list BlockRange) :
  valid want -> Forall valid have1 -> Forall valid have2 ->
  Permutation have1 have2 ->
  forall b, covers (subtractRanges want have1) b <->
            covers (subtractRanges want have2) b.
Proof.
  intros Hw H1 H2 HP b.
  destruct (subtractRanges_spec want have1 Hw H1) as [C1 _].
  destruct (subtractRanges_spec want have2 Hw H2) as [C2 _].
  rewrite C1, C2.
  split; intros [Hb Hn]; split; auto; intros Hc; apply Hn.
  - apply (covers_perm have2 have1); auto. now apply Permutation_sym.
  - now apply (covers_perm have1 have2).
Qed.

Lemma subtractRanges_have_order_irrelevant_witness :
  let want := mkRange 10 20 in
  let have1 := [mkRange 12 13; mkRange 18 25] in
  let have2 := [mkRange 18 25; mkRange 12 13] in
  Permutation have1 have2 /\
  forall b, covers (subtractRanges want have1) b <->
            covers (subtractRanges want have2) b.
Proof.
  split; [apply perm_swap |].
  apply (subtractRanges_have_order_irrelevant (mkRange 10 20)
           [mkRange 12 13; mkRange 18 25] [mkRange 18 25; mkRange 12 13]).
  - unfold valid; simpl; lia.
  - repeat constructor; unfold valid; simpl; lia.
  - repeat constructor; unfold valid; simpl; lia.
  - apply perm_swap.
Defined.

(** ** mergeRanges: the sort *)

Section MergeSort.

Lemma insertVal_In a l x : In x (insertVal a l) <-> x = a \/ In x l.
Proof.
  induction l as [| b l IH]; simpl.
  - intuition.
  - destruct (fromBlock a <=? fromBlock b); simpl; [intuition |].
    rewrite IH. intuition.
Qed.

Lemma sortVals_In l x : In x (sortVals l) <-> In x l.
Proof.
  induction l as [| a l IH]; simpl; [tauto |].
  rewrite insertVal_In, IH. intuition.
Qed.

Lemma insertVal_sorted a l :
  StronglySorted fromLe l -> StronglySorted fromLe (insertVal a l).
Proof.
  induction 1 as [| b l Hs IH Hb]; simpl.
  - repeat constructor.
  - destruct (Z.leb_spec (fromBlock a) (fromBlock b)).
    + constructor; [now constructor |].
      constructor; [assumption |].
      rewrite Forall_forall in *. intros x Hx.
      specialize (Hb x Hx). unfold fromLe in *; lia.
    + constructor; [assumption |].
      apply Forall_forall. intros x Hx.
      apply insertVal_In in Hx as [-> | Hx].
      * unfold fromLe; lia.
      * rewrite Forall_forall in Hb. auto.
Qed.

Lemma sortVals_sorted l : StronglySorted fromLe (sortVals l).
Proof.
  induction l; simpl; [constructor | now apply insertVal_sorted].
Qed.

(** A list that is already sorted is left as it is. *)
Lemma sortVals_fixed l : StronglySorted fromLe l -> sortVals l = l.
Proof.
  induction 1 as [| a l Hs IH Ha]; simpl; auto.
  rewrite IH. destruct l as [| b l]; simpl; auto.
  inversion Ha as [| ? ? Hab _]; subst. unfold fromLe in Hab.
  destruct (Z.leb_spec (fromBlock a) (fromBlock b)); auto; lia.
Qed.

(** The sort on references is the sort on the values they denote. *)
Lemma sortInsert_deref h a l :
  deref h (sortInsert h a l) = insertVal (h a) (deref h l).
Proof.
  induction l as [| b l IH]; simpl; auto.
  destruct (fromBlock (h a) <=? fromBlock (h b)); simpl; auto.
  now rewrite <- IH.
Qed.

Lemma sortByFromBlock_deref h l :
  deref h (sortByFromBlock h l) = sortVals (deref h l).
Proof.
  induction l as [| a l IH]; simpl; auto.
  now rewrite sortInsert_deref, <- IH.
Qed.

Lemma sortInsert_In h a l x : In x (sortInsert h a l) <-> x = a \/ In x l.
Proof.
  induction l as [| b l IH]; simpl.
  - intuition.
  - destruct (fromBlock (h a) <=? fromBlock (h b)); simpl; [intuition |].
    rewrite IH. intuition.
Qed.

Lemma sortByFromBlock_In h l x : In x (sortByFromBlock h l) <-> In x l.
Proof.
  induction l as [| a l IH]; simpl; [tauto |].
  rewrite sortInsert_In, IH. intuition.
Qed.

Lemma sortByFromBlock_fixed h l :
  StronglySorted fromLe (deref h l) -> sortByFromBlock h l = l.
Proof.
  induction l as [| a l IH]; simpl; auto.
  intros Hs. inversion Hs as [| ? ? Hs' Ha]; subst.
  rewrite IH by assumption. destruct l as [| b l]; simpl; auto.
  inversion Ha as [| ? ? Hab _]; subst. unfold fromLe in Hab.
  destruct (Z.leb_spec (fromBlock (h a)) (fromBlock (h b))); auto; lia.
Qed.

End MergeSort.

(** ** mergeRanges: the sweep on values *)

Section MergeSweepValues.

Lemma inRange_merged c n b :
  valid c -> valid n -> fromBlock c <= fromBlock n ->
  fromBlock n <= toBlock c + 1 ->
  inRange (mkRange (fromBlock c) (Z.max (toBlock c) (toBlock n))) b <->
  inRange c b \/ inRange n b.
Proof. unfold valid, inRange; simpl. lia. Qed.

Lemma sorted_cons_inv c n rest :
  StronglySorted fromLe (c :: n :: rest) ->
  fromBlock c <= fromBlock n /\
  StronglySorted fromLe (n :: rest) /\
  Forall (fromLe c) rest.
Proof.
  intros H. inversion H as [| ? ? Hs Hc]; subst.
  inversion Hc; subst. auto.
Qed.

Lemma sorted_same_from c c' rest :
  fromBlock c' = fromBlock c ->
  StronglySorted fromLe (c :: rest) -> StronglySorted fromLe (c' :: rest).
Proof.
  intros E H. inversion H as [| ? ? Hs Hc]; subst.
  constructor; auto. rewrite Forall_forall in *.
  intros x Hx. specialize (Hc x Hx). unfold fromLe in *. lia.
Qed.

Lemma sweepVals_spec rest : forall c,
  valid c -> Forall valid rest -> StronglySorted fromLe (c :: rest) ->
  (forall b, covers (sweepVals c rest) b <-> inRange c b \/ covers rest b) /\
  Forall valid (sweepVals c rest) /\
  StronglySorted gap (sweepVals c rest) /\
  Forall (fromLe c) (sweepVals c rest).
Proof.
  induction rest as [| n rest IH]; intros c Hc Hv Hs; simpl.
  - repeat split.
    + rewrite covers_cons; tauto.
    + rewrite covers_cons; intros [H | H]; [now left | now apply covers_nil in H].
    + now constructor.
    + repeat constructor.
    + constructor; [unfold fromLe; lia | constructor].
  - inversion Hv as [| ? ? Hn Hv']; subst.
    destruct (sorted_cons_inv _ _ _ Hs) as (Hcn & Hs' & Hcr).
    destruct (Z.leb_spec (fromBlock n) (toBlock c + 1)) as [Hm | Hm].
    + set (c' := mkRange (fromBlock c) (Z.max (toBlock c) (toBlock n))).
      destruct (IH c') as (Hcov & Hval & Hgap & Hfrom); auto.
      { unfold valid, c' in *; simpl; lia. }
      { apply sorted_same_from with (c := c); [reflexivity |].
        constructor; [now inversion Hs' | assumption]. }
      repeat split; auto.
      * rewrite Hcov, covers_cons. unfold c'.
        rewrite inRange_merged by assumption. tauto.
      * intros H. apply Hcov. unfold c'.
        rewrite inRange_merged by assumption.
        rewrite covers_cons in H. tauto.
    + destruct (IH n) as (Hcov & Hval & Hgap & Hfrom); auto.
      repeat split.
      * rewrite covers_cons, Hcov, covers_cons. tauto.
      * rewrite !covers_cons, Hcov. tauto.
      * constructor; auto.
      * constructor; auto. rewrite Forall_forall in *.
        intros o Ho. specialize (Hfrom o Ho). unfold gap, fromLe in *. lia.
      * constructor; [unfold fromLe; lia |].
        rewrite Forall_forall in *. intros o Ho.
        specialize (Hfrom o Ho). unfold fromLe in *. lia.
Qed.

(** When consecutive intervals are already separated by a gap, the sweep
    merges nothing. *)
Lemma sweepVals_fixed rest : forall c,
  StronglySorted gap (c :: rest) -> sweepVals c rest = c :: rest.
Proof.
  induction rest as [| n rest IH]; intros c Hs; simpl; auto.
  inversion Hs as [| ? ? Hs' Hc]; subst.
  inversion Hc as [| ? ? Hcn _]; subst. unfold gap in Hcn.
  destruct (Z.leb_spec (fromBlock n) (toBlock c + 1)); [lia |].
  now rewrite IH.
Qed.

Lemma gap_sorted_fromLe l :
  Forall valid l -> StronglySorted gap l -> StronglySorted fromLe l.
Proof.
  intros Hv Hs. induction Hs as [| a l Hs IH Ha]; [constructor |].
  inversion Hv; subst. constructor; auto.
  rewrite Forall_forall in *. intros x Hx. specialize (Ha x Hx).
  unfold gap, fromLe, valid in *. lia.
Qed.

Lemma mergeVals_spec l :
  Forall valid l ->
  (forall b, covers (mergeVals l) b <-> covers l b) /\
  Forall valid (mergeVals l) /\
  StronglySorted gap (mergeVals l).
Proof.
  intros Hv. unfold mergeVals.
  destruct (Nat.leb_spec (length l) 1) as [Hlen | Hlen].
  - repeat split; auto.
    destruct l as [| a [| b l]]; simpl in Hlen; try lia;
      repeat constructor.
  - pose proof (sortVals_sorted l) as Hs.
    assert (Hvs : Forall valid (sortVals l)).
    { rewrite Forall_forall in *. intros x Hx. apply Hv.
      now apply sortVals_In. }
    assert (Hin : forall b, covers (sortVals l) b <-> covers l b).
    { intros b; unfold covers; split; intros [r [Hr Hb]]; exists r;
        split; auto; now apply sortVals_In. }
    destruct (sortVals l) as [| c rest].
    + split; [exact Hin | split; constructor].
    + inversion Hvs; subst.
      destruct (sweepVals_spec rest c) as (Hcov & Hval & Hgap & _); auto.
      split; [| split]; auto.
      intros b. rewrite Hcov, <- covers_cons. apply Hin.
Qed.

(** Merging the result of a merge changes nothing. *)
Lemma mergeVals_fixed l :
  Forall valid l -> StronglySorted gap l -> mergeVals l = l.
Proof.
  intros Hv Hs. unfold mergeVals.
  destruct (length l <=? 1)%nat; auto.
  rewrite sortVals_fixed by now apply gap_sorted_fromLe.
  destruct l; auto. now apply sweepVals_fixed.
Qed.

End MergeSweepValues.

(** ** mergeRanges: the sweep on the store *)

Section MergeSweepStore.

Lemma heap_set_same h l v : heap_set h l v l = v.
Proof. unfold heap_set. now rewrite Nat.eqb_refl. Qed.

Lemma heap_set_other h l v l' : l' <> l -> heap_set h l v l' = h l'.
Proof.
  intros Hne. unfold heap_set.
  destruct (Nat.eqb_spec l' l); [contradiction | reflexivity].
Qed.

(** The array built so far is only ever extended. *)
Lemma mergeSweep_acc rest : forall h cur merged,
  mergeSweep h cur rest merged =
  (fst (mergeSweep h cur rest []), merged ++ snd (mergeSweep h cur rest [])).
Proof.
  induction rest as [| n rest IH]; intros h cur merged; simpl.
  - reflexivity.
  - destruct (fromBlock (h n) <=? toBlock (h cur) + 1).
    + apply IH.
    + rewrite IH. rewrite (IH h n [cur]). simpl.
      now rewrite <- app_assoc.
Qed.

(** The sweep assigns only to objects it visits. *)
Lemma mergeSweep_frame rest : forall h cur merged l,
  ~ In l (cur :: rest) -> fst (mergeSweep h cur rest merged) l = h l.
Proof.
  induction rest as [| n rest IH]; intros h cur merged l Hl; simpl.
  - reflexivity.
  - destruct (fromBlock (h n) <=? toBlock (h cur) + 1).
    + rewrite IH by (simpl in *; tauto).
      apply heap_set_other. simpl in Hl. intros ->. tauto.
    + apply IH. simpl in *; tauto.
Qed.

(** The sweep on the store computes the sweep on values, whatever
    references the array shares: [h0] is the store when the sweep starts,
    [h] the store now, and an object still to be visited either is
    untouched or is the current one, which was only extended. *)
Lemma mergeSweep_values (h0 : heap) rest : forall h cur pc,
  h cur = pc ->
  (forall r, In r rest -> r <> cur -> h r = h0 r) ->
  (In cur rest ->
     fromBlock (h0 cur) = fromBlock pc /\ toBlock (h0 cur) <= toBlock pc) ->
  valid pc -> Forall (fun r => valid (h0 r)) rest ->
  StronglySorted fromLe (pc :: deref h0 rest) ->
  deref (fst (mergeSweep h cur rest [])) (snd (mergeSweep h cur rest [])) =
  sweepVals pc (deref h0 rest).
Proof.
  induction rest as [| n rest IH]; intros h cur pc Hcur Hoth Hali Hpc Hv Hs.
  - simpl. now rewrite Hcur.
  - inversion Hv as [| ? ? Hn Hv']; subst.
    destruct (sorted_cons_inv _ _ _ Hs) as (Hcn & Hs' & Hcr).
    assert (Hfrom : fromBlock (h n) = fromBlock (h0 n)).
    { destruct (Nat.eq_dec n cur) as [-> | Hne].
      - symmetry. apply Hali. now left.
      - rewrite (Hoth n); simpl; auto. }
    assert (Hto : Z.max (toBlock (h cur)) (toBlock (h n)) =
                  Z.max (toBlock (h cur)) (toBlock (h0 n))).
    { destruct (Nat.eq_dec n cur) as [-> | Hne].
      - destruct Hali as [_ Hle]; [now left | lia].
      - rewrite (Hoth n); simpl; auto. }
    cbn [mergeSweep deref map sweepVals]. rewrite Hfrom.
    destruct (Z.leb_spec (fromBlock (h0 n)) (toBlock (h cur) + 1)) as [Hm | Hm].
    + rewrite Hto. apply IH; auto.
      * apply heap_set_same.
      * intros r Hr Hne. rewrite heap_set_other by assumption.
        apply Hoth; simpl; auto.
      * intros Hin. destruct Hali as [Hf Ht]; [now right |].
        simpl. split; lia.
      * unfold valid in *; simpl; lia.
      * apply sorted_same_from with (c := h cur); [reflexivity |].
        constructor; [now inversion Hs' | assumption].
    + assert (Hne : n <> cur).
      { intros ->. destruct Hali as [Hf _]; [now left |].
        unfold valid in Hpc. lia. }
      assert (Hnotin : ~ In cur (n :: rest)).
      { intros [-> | Hin]; [contradiction |].
        destruct Hali as [Hf _]; [now right |].
        inversion Hs' as [| ? ? _ Hnr]; subst.
        rewrite Forall_forall in Hnr.
        specialize (Hnr (h0 cur) (in_map h0 _ _ Hin)).
        unfold fromLe, valid in *. lia. }
      rewrite mergeSweep_acc. cbn [fst snd app deref map].
      rewrite mergeSweep_frame by assumption. f_equal.
      apply IH; auto.
      * apply Hoth; simpl; auto.
      * intros r Hr Hrn. apply Hoth; [simpl; auto |].
        intros ->. apply Hnotin. now right.
      * intros _. split; [reflexivity | lia].
Qed.

Lemma deref_length h l : length (deref h l) = length l.
Proof. apply length_map. Qed.

(** [mergeRanges] on references computes [mergeVals] on their values. *)
Lemma mergeRanges_values h ranges :
  Forall (fun l => valid (h l)) ranges ->
  deref (mo_heap (mergeRanges h ranges)) (mo_result (mergeRanges h ranges)) =
  mergeVals (deref h ranges).
Proof.
  intros Hv. unfold mergeRanges, mergeVals. rewrite deref_length.
  destruct (length ranges <=? 1)%nat; [reflexivity |].
  pose proof (sortByFromBlock_deref h ranges) as Hd.
  pose proof (sortVals_sorted (deref h ranges)) as Hs.
  assert (Hvs : Forall (fun l => valid (h l)) (sortByFromBlock h ranges)).
  { rewrite Forall_forall in *. intros x Hx. apply Hv.
    now apply sortByFromBlock_In in Hx. }
  destruct (sortByFromBlock h ranges) as [| c rest].
  - simpl in Hd. now rewrite <- Hd.
  - simpl in Hd. rewrite <- Hd in *.
    rewrite (surjective_pairing (mergeSweep h c rest [])). simpl.
    inversion Hvs; subst.
    apply mergeSweep_values; auto.
    intros _. split; [reflexivity | lia].
Qed.

(** On a store whose array is already separated by gaps, the call assigns
    nothing and returns the references it was given. *)
Lemma mergeSweep_fixed rest : forall h cur merged,
  StronglySorted gap (deref h (cur :: rest)) ->
  mergeSweep h cur rest merged = (h, merged ++ cur :: rest).
Proof.
  induction rest as [| n rest IH]; intros h cur merged Hs; simpl; auto.
  inversion Hs as [| ? ? Hs' Hc]; subst.
  inversion Hc as [| ? ? Hcn _]; subst. unfold gap in Hcn.
  destruct (Z.leb_spec (fromBlock (h n)) (toBlock (h cur) + 1)); [lia |].
  rewrite IH by assumption. now rewrite <- app_assoc.
Qed.

Lemma mergeRanges_fixed h ranges :
  Forall (fun l => valid (h l)) ranges ->
  StronglySorted gap (deref h ranges) ->
  mergeRanges h ranges = mkOutcome h ranges ranges.
Proof.
  intros Hv Hs. unfold mergeRanges.
  destruct (length ranges <=? 1)%nat; auto.
  rewrite sortByFromBlock_fixed.
  - destruct ranges as [| c rest]; auto.
    now rewrite mergeSweep_fixed.
  - apply gap_sorted_fromLe; auto.
    unfold deref. now apply Forall_map.
Qed.

End MergeSweepStore.

(** ** mergeRanges: what the result looks like *)

Section MergeResult.

Lemma sorted_trichotomy {A} (R : A -> A -> Prop) l a b :
  StronglySorted R l -> In a l -> In b l -> a = b \/ R a b \/ R b a.
Proof.
  induction 1 as [| x l Hs IH Hx]; intros Ha Hb; [destruct Ha |].
  rewrite Forall_forall in Hx.
  destruct Ha as [<- | Ha], Hb as [<- | Hb]; auto.
Qed.

Lemma gap_disjoint l :
  Forall valid l -> StronglySorted gap l -> ForallOrdPairs disjoint l.
Proof.
  intros Hv Hs. induction Hs as [| a l Hs IH Ha]; [constructor |].
  inversion Hv; subst. constructor; auto.
  rewrite Forall_forall in *. intros x Hx b [Hb Hb'].
  specialize (Ha x Hx). unfold gap, inRange in *. lia.
Qed.

(** A valid interval covered by a gap-separated list lies inside one of
    its members: it cannot straddle a gap. *)
Lemma covered_within out r :
  Forall valid out -> StronglySorted gap out -> valid r ->
  (forall b, inRange r b -> covers out b) ->
  exists m, In m out /\ within r m.
Proof.
  intros Hv Hs Hr Hc.
  destruct (Hc (fromBlock r)) as [m [Hm Hb]];
    [unfold inRange, valid in *; lia |].
  exists m; split; auto. unfold within. split; [apply Hb |].
  destruct (Z.le_gt_cases (toBlock r) (toBlock m)) as [| Hlt]; auto.
  exfalso.
  destruct (Hc (toBlock m + 1)) as [m' [Hm' Hb']];
    [unfold inRange in *; lia |].
  rewrite Forall_forall in Hv.
  pose proof (Hv m Hm) as Vm.
  destruct (sorted_trichotomy gap out m m' Hs Hm Hm') as [<- | [G | G]];
    unfold gap, inRange, valid in *; lia.
Qed.

Lemma touching_same_member out r s mr ms :
  StronglySorted gap out -> In mr out -> In ms out ->
  within r mr -> within s ms -> touching r s -> mr = ms.
Proof.
  intros Hs Hmr Hms Wr Ws T.
  destruct (sorted_trichotomy gap out mr ms Hs Hmr Hms) as [E | [G | G]];
    auto; unfold gap, within, touching in *; lia.
Qed.

Lemma deref_fresh rs : deref (freshHeap rs) (seq 0 (length rs)) = rs.
Proof.
  unfold deref, freshHeap.
  induction rs as [| r rs IH]; simpl; [reflexivity |].
  f_equal. rewrite <- seq_shift, map_map. exact IH.
Qed.

Lemma mergeRangesOf_values rs :
  Forall valid rs -> mergeRangesOf rs = mergeVals rs.
Proof.
  intros Hv. unfold mergeRangesOf.
  rewrite mergeRanges_values, deref_fresh; auto.
  apply Forall_forall. intros l Hl. apply in_seq in Hl.
  rewrite Forall_forall in Hv. apply Hv. unfold freshHeap.
  apply nth_In. lia.
Qed.

Lemma mergeRanges_result_spec h ranges :
  Forall (fun l => valid (h l)) ranges ->
  let out := deref (mo_heap (mergeRanges h ranges))
               (mo_result (mergeRanges h ranges)) in
  (forall b, covers out b <-> covers (deref h ranges) b) /\
  Forall valid out /\ StronglySorted gap out.
Proof.
  intros Hv. cbv zeta. rewrite mergeRanges_values by assumption.
  apply mergeVals_spec. unfold deref. now apply Forall_map.
Qed.

End MergeResult.

(** C3.  For an array of references to valid ranges, the array
    [mergeRanges] returns denotes a sequence sorted ascending by
    [fromBlock], whose intervals are valid, pairwise disjoint and
    non-adjacent (each later interval starts after the block following an
    earlier one), that covers exactly the blocks the argument covered when
    the call started; two argument intervals that overlap or are adjacent
    end up inside one returned interval; and an array of length 0 or 1 is
    returned as it is, with the store untouched. *)
Theorem mergeRanges_sorted_disjoint_cover (h : heap) (ranges : list loc) :
  Forall (fun l => valid (h l)) ranges ->
  let o := mergeRanges h ranges in
  let input := deref h ranges in
  let out := deref (mo_heap o) (mo_result o) in
  StronglySorted fromLe out /\
  Forall valid out /\
  StronglySorted gap out /\
  ForallOrdPairs disjoint out /\
  (forall b, covers out b <-> covers input b) /\
  (forall r s, In r input -> In s input -> touching r s ->
     exists m, In m out /\ within r m /\ within s m) /\
  ((length ranges <= 1)%nat -> o = mkOutcome h ranges ranges).
Proof.
  intros Hv. cbv zeta.
  destruct (mergeRanges_result_spec h ranges Hv) as (Hcov & Hval & Hgap).
  assert (Hin : forall r, In r (deref h ranges) ->
            exists m, In m (deref (mo_heap (mergeRanges h ranges))
                              (mo_result (mergeRanges h ranges))) /\
                      within r m).
  { intros r Hr. apply covered_within; auto.
    - unfold deref in Hr. apply in_map_iff in Hr as [l [<- Hl]].
      rewrite Forall_forall in Hv. now apply Hv.
    - intros b Hb. apply Hcov. now exists r. }
  split; [now apply gap_sorted_fromLe |].
  split; [assumption |].
  split; [assumption |].
  split; [now apply gap_disjoint |].
  split; [assumption |].
  split.
  - intros r s Hr Hs T.
    destruct (Hin r Hr) as [mr [Hmr Wr]].
    destruct (Hin s Hs) as [ms [Hms Ws]].
    exists mr. split; [assumption | split; [assumption |]].
    now rewrite (touching_same_member _ r s mr ms Hgap Hmr Hms Wr Ws T).
  - intros Hlen. unfold mergeRanges.
    apply Nat.leb_le in Hlen. now rewrite Hlen.
Qed.

Lemma mergeRanges_sorted_disjoint_cover_witness :
  let h := freshHeap [mkRange 7 10; mkRange 1 5; mkRange 6 6; mkRange 20 30] in
  let o := mergeRanges h [0; 1; 2; 3]%nat in
  deref (mo_heap o) (mo_result o) = [mkRange 1 10; mkRange 20 30] /\
  StronglySorted gap (deref (mo_heap o) (mo_result o)).
Proof.
  split; [reflexivity |].
  apply (mergeRanges_sorted_disjoint_cover
           (freshHeap [mkRange 7 10; mkRange 1 5; mkRange 6 6; mkRange 20 30])
           [0; 1; 2; 3]%nat).
  repeat constructor; unfold valid; simpl; lia.
Defined.

(** C9.  Merging is idempotent on valid ranges.  On the store: calling
    [mergeRanges] on the array a first call returned assigns to no object
    and returns the same references, so it denotes the same ranges.  On
    values: merging the merged list again gives the same list. *)
Theorem mergeRanges_idempotent (h : heap) (x : list loc) :
  Forall (fun l => valid (h l)) x ->
  let o1 := mergeRanges h x in
  let o2 := mergeRanges (mo_heap o1) (mo_result o1) in
  o2 = mkOutcome (mo_heap o1) (mo_result o1) (mo_result o1) /\
  deref (mo_heap o2) (mo_result o2) = deref (mo_heap o1) (mo_result o1) /\
  mergeRangesOf (mergeRangesOf (deref h x)) = mergeRangesOf (deref h x).
Proof.
  intros Hv. cbv zeta.
  destruct (mergeRanges_result_spec h x Hv) as (_ & Hval & Hgap).
  assert (E : mergeRanges (mo_heap (mergeRanges h x))
                (mo_result (mergeRanges h x)) =
              mkOutcome (mo_heap (mergeRanges h x))
                (mo_result (mergeRanges h x)) (mo_result (mergeRanges h x))).
  { apply mergeRanges_fixed; auto.
    unfold deref in Hval. now rewrite Forall_map in Hval. }
  split; [exact E |]. split; [now rewrite E |].
  assert (Hvx : Forall valid (deref h x)).
  { unfold deref. now apply Forall_map. }
  destruct (mergeVals_spec (deref h x) Hvx) as (_ & Hval' & Hgap').
  rewrite (mergeRangesOf_values (deref h x)) by assumption.
  rewrite mergeRangesOf_values by assumption.
  now apply mergeVals_fixed.
Qed.

Lemma mergeRanges_idempotent_witness :
  let h := freshHeap [mkRange 7 10; mkRange 1 5; mkRange 6 6; mkRange 20 30] in
  let o1 := mergeRanges h [0; 1; 2; 3]%nat in
  let o2 := mergeRanges (mo_heap o1) (mo_result o1) in
  deref (mo_heap o1) (mo_result o1) = [mkRange 1 10; mkRange 20 30] /\
  deref (mo_heap o2) (mo_result o2) = deref (mo_heap o1) (mo_result o1).
Proof.
  split; [reflexivity |].
  apply (mergeRanges_idempotent
           (freshHeap [mkRange 7 10; mkRange 1 5; mkRange 6 6; mkRange 20 30])
           [0; 1; 2; 3]%nat).
  repeat constructor; unfold valid; simpl; lia.
Defined.

(* ================================================================== *)
(** * Properties of the cache coordinator *)
(* ================================================================== *)

(** ** The monad *)

Section MonadFacts.

Lemma appendTrace_nil w : appendTrace [] w = w.
Proof. destruct w; unfold appendTrace; simpl. now rewrite app_nil_r. Qed.

Lemma appendTrace_app evs1 evs2 w :
  appendTrace evs2 (appendTrace evs1 w) = appendTrace (evs1 ++ evs2) w.
Proof. unfold appendTrace; simpl. now rewrite app_assoc. Qed.

Lemma emit_run e w : emit e w = (Ok tt, appendTrace [e] w).
Proof. reflexivity. Qed.

End MonadFacts.

(** ** Which errors a computation can raise *)

Section NeverRaises.

Variable e : Error.

Lemma neverRaises_ret {A} (a : A) : neverRaises e (ret a).
Proof. intros w; simpl; discriminate. Qed.

Lemma neverRaises_throw {A} e' : e' <> e -> neverRaises e (@throw A e').
Proof. intros Hne w; simpl. congruence. Qed.

Lemma neverRaises_bind {A B} (m : M A) (k : A -> M B) :
  neverRaises e m -> (forall a, neverRaises e (k a)) ->
  neverRaises e (bind m k).
Proof.
  intros Hm Hk w. unfold bind. specialize (Hm w).
  destruct (m w) as [[a | e'] w']; simpl in *; [apply Hk | congruence].
Qed.

Lemma neverRaises_lift {A} (r : Result A) :
  r <> Err e -> neverRaises e (lift r).
Proof. intros Hr w. destruct r; simpl; congruence. Qed.

Lemma neverRaises_emit ev : neverRaises e (emit ev).
Proof. intros w; simpl; discriminate. Qed.

Lemma neverRaises_setScanned n : neverRaises e (setScanned n).
Proof. intros w; simpl; discriminate. Qed.

Lemma neverRaises_getScanned : neverRaises e getScanned.
Proof. intros w; simpl; discriminate. Qed.

Lemma neverRaises_statement {A} (run : Db -> A * Db) :
  e <> StoreFailure -> neverRaises e (statement run).
Proof.
  intros Hne w. unfold statement.
  destruct (faulty w (statements w)); simpl; [congruence |].
  destruct (run (db w)); simpl; discriminate.
Qed.

Lemma neverRaises_transaction {A} (body : M A) :
  neverRaises e body -> neverRaises e (transaction body).
Proof.
  intros Hb w. unfold transaction. specialize (Hb w).
  destruct (body w) as [[a | e'] w']; simpl in *; auto.
Qed.

Lemma neverRaises_forEach {A} (xs : list A) (body : A -> M unit) :
  (forall x, neverRaises e (body x)) -> neverRaises e (forEach xs body).
Proof.
  intros Hb. induction xs as [| x xs IH]; simpl.
  - apply neverRaises_ret.
  - apply neverRaises_bind; auto.
Qed.

End NeverRaises.

Lemma toStrictFilter_error provider filter d e :
  toStrictFilter provider filter d = Err e -> e = InvalidBlock.
Proof.
  unfold toStrictFilter, tagToNumber.
  destruct (orElse (fromTag filter) (TagString "earliest")) as [n | s];
    [| destruct (getBlock provider s)];
    (destruct (orElse (toTag filter) d) as [n' | s'];
     [| destruct (getBlock provider s')]); congruence.
Qed.

Lemma getFinalizedBlockNumber_error provider e :
  getFinalizedBlockNumber provider = Err e -> e = CannotGetFinalized.
Proof.
  unfold getFinalizedBlockNumber.
  destruct (getBlock provider "finalized"); congruence.
Qed.

Section PageSizeNeverRaised.

Lemma neverRaises_callBatch cb a b f t : neverRaises InvalidPageSize (callBatch cb a b f t).
Proof.
  unfold callBatch. apply neverRaises_bind; [apply neverRaises_emit |].
  intros _. destruct (cb a b f t);
    [apply neverRaises_ret | apply neverRaises_throw; discriminate].
Qed.

Lemma neverRaises_callOptional cb :
  (forall c, cb = Some c -> forall a b f t, neverRaises InvalidPageSize (c a b f t)) ->
  forall a b f t, neverRaises InvalidPageSize (callOptional cb a b f t).
Proof.
  intros H a b f t. unfold callOptional. destruct cb as [c |].
  - now apply H.
  - apply neverRaises_ret.
Qed.

Lemma neverRaises_providerGetLogs provider key a b :
  neverRaises InvalidPageSize (providerGetLogs provider key a b).
Proof.
  unfold providerGetLogs. apply neverRaises_bind; [apply neverRaises_emit |].
  intros _. destruct (getLogs_upstream provider key a b);
    [apply neverRaises_ret | apply neverRaises_throw; discriminate].
Qed.

Lemma neverRaises_fetchLoop provider key pageSize cb strictToBlock fuel :
  (forall c, cb = Some c -> forall a b f t, neverRaises InvalidPageSize (c a b f t)) ->
  forall fromBlockN logs_,
    neverRaises InvalidPageSize (fetchLoop fuel provider key pageSize cb strictToBlock
                     fromBlockN logs_).
Proof.
  intros Hcb. induction fuel as [| fuel IH]; intros fromBlockN logs_; simpl;
    destruct (fromBlockN <=? strictToBlock);
    try apply neverRaises_ret;
    try (apply neverRaises_throw; discriminate).
  apply neverRaises_bind; [apply neverRaises_providerGetLogs |].
  intros thisBatchLogs. apply neverRaises_bind; [| intros _; apply IH].
  now apply neverRaises_callOptional.
Qed.

Lemma neverRaises_fetchLogs provider filter pageSize cb :
  1 <= pageSize ->
  (forall c, cb = Some c -> forall a b f t, neverRaises InvalidPageSize (c a b f t)) ->
  neverRaises InvalidPageSize (fetchLogs provider filter pageSize cb).
Proof.
  intros Hps Hcb. unfold fetchLogs.
  destruct (Z.ltb_spec pageSize 1); [lia |].
  apply neverRaises_bind.
  - apply neverRaises_lift. intros Hr.
    apply toStrictFilter_error in Hr. discriminate.
  - intros sf. now apply neverRaises_fetchLoop.
Qed.

Lemma neverRaises_cachePage filterId_ cb :
  (forall c, cb = Some c -> forall a b f t, neverRaises InvalidPageSize (c a b f t)) ->
  forall a b f t, neverRaises InvalidPageSize (cachePage filterId_ cb a b f t).
Proof.
  intros Hcb a b f t. unfold cachePage, _insertLogs, _insertRange.
  apply neverRaises_bind.
  - apply neverRaises_transaction. apply neverRaises_bind.
    + apply neverRaises_forEach. intros x.
      apply neverRaises_statement; discriminate.
    + intros _. apply neverRaises_statement; discriminate.
  - intros _. now apply neverRaises_callOptional.
Qed.

Lemma neverRaises_progress cb missingRanges i blocksToScan a b f t :
  neverRaises InvalidPageSize (progress cb missingRanges i blocksToScan a b f t).
Proof.
  unfold progress. apply neverRaises_bind; [apply neverRaises_getScanned |].
  intros total. apply neverRaises_bind; [apply neverRaises_setScanned |].
  intros _. destruct cb as [c |]; [| apply neverRaises_ret].
  unfold callCacheBatch.
  apply neverRaises_bind; [apply neverRaises_emit |].
  intros _. destruct (c a b f t missingRanges i _ blocksToScan);
    [apply neverRaises_ret | apply neverRaises_throw; discriminate].
Qed.

Lemma neverRaises_fetchRangeToCache provider strictFilter pageSize cb :
  1 <= pageSize ->
  (forall c, cb = Some c -> forall a b f t, neverRaises InvalidPageSize (c a b f t)) ->
  neverRaises InvalidPageSize (_fetchRangeToCache provider strictFilter pageSize cb).
Proof.
  intros Hps Hcb. unfold _fetchRangeToCache.
  apply neverRaises_bind; [| intros _; apply neverRaises_ret].
  apply neverRaises_fetchLogs; auto.
  intros c Hc. injection Hc as <-. now apply neverRaises_cachePage.
Qed.

Lemma neverRaises_tidyUpRanges filterId_ :
  neverRaises InvalidPageSize (_tidyUpRanges filterId_).
Proof.
  unfold _tidyUpRanges, _selectRanges, _replaceRanges, _insertRange.
  apply neverRaises_transaction. apply neverRaises_bind.
  - apply neverRaises_statement; discriminate.
  - intros ranges. destruct ranges; [apply neverRaises_ret |].
    apply neverRaises_bind; [apply neverRaises_statement; discriminate |].
    intros _. apply neverRaises_forEach. intros x.
    apply neverRaises_statement; discriminate.
Qed.

Lemma neverRaises_fetchMissing provider filter pageSize cb missingRanges
    blocksToScan todo :
  1 <= pageSize ->
  forall i, neverRaises InvalidPageSize (fetchMissing provider filter pageSize cb
                             missingRanges blocksToScan i todo).
Proof.
  intros Hps. induction todo as [| range todo IH]; intros i; simpl.
  - apply neverRaises_ret.
  - apply neverRaises_bind; [| intros _; apply IH].
    apply neverRaises_fetchRangeToCache; auto.
    intros c Hc. injection Hc as <-. intros. apply neverRaises_progress.
Qed.

Lemma neverRaises_fetchLogsToCache provider filter pageSize cb :
  1 <= pageSize ->
  neverRaises InvalidPageSize (fetchLogsToCache provider filter pageSize cb).
Proof.
  intros Hps. unfold fetchLogsToCache.
  destruct (Z.ltb_spec pageSize 1); [lia |].
  apply neverRaises_bind.
  { apply neverRaises_lift. intros Hr.
    apply toStrictFilter_error in Hr. discriminate. }
  intros sf. apply neverRaises_bind.
  { apply neverRaises_lift. intros Hr.
    apply getFinalizedBlockNumber_error in Hr. discriminate. }
  intros lastFinalizedBlock.
  destruct (strictTo sf >? lastFinalizedBlock);
    [apply neverRaises_throw; discriminate |].
  apply neverRaises_bind; [apply neverRaises_tidyUpRanges |].
  intros _. apply neverRaises_bind.
  { unfold _getMissingRanges, _selectRanges. apply neverRaises_bind.
    - apply neverRaises_statement; discriminate.
    - intros have. apply neverRaises_ret. }
  intros missingRanges.
  apply neverRaises_bind; [apply neverRaises_setScanned |].
  intros _. apply neverRaises_bind; [now apply neverRaises_fetchMissing |].
  intros _. apply neverRaises_tidyUpRanges.
Qed.

End PageSizeNeverRaised.

(** C10.  With [pageSize < 1], [fetchLogs] and [fetchLogsToCache] fail with
    'Invalid page size' and leave the world as it was: no request to the
    provider, no statement executed, nothing written.  With
    [pageSize >= 1] neither of them fails with that error. *)
Theorem pageSize_is_validated_first (provider : Provider) (filter : Filter)
    (pageSize : Z) (w : World) :
  (pageSize < 1 ->
   (forall cb, fetchLogs provider filter pageSize cb w
               = (Err InvalidPageSize, w)) /\
   (forall cb, fetchLogsToCache provider filter pageSize cb w
               = (Err InvalidPageSize, w))) /\
  (1 <= pageSize ->
   (forall cb : option FetchLogsBatchCallback,
      fst (fetchLogs provider filter pageSize (option_map callBatch cb) w)
      <> Err InvalidPageSize) /\
   (forall cb,
      fst (fetchLogsToCache provider filter pageSize cb w)
      <> Err InvalidPageSize)).
Proof.
  split; intros Hps; split; intros cb.
  - unfold fetchLogs. destruct (Z.ltb_spec pageSize 1); [reflexivity | lia].
  - unfold fetchLogsToCache.
    destruct (Z.ltb_spec pageSize 1); [reflexivity | lia].
  - apply neverRaises_fetchLogs; auto.
    intros c Hc a b f t. destruct cb as [c0 |]; [| discriminate].
    injection Hc as <-. apply neverRaises_callBatch.
  - now apply neverRaises_fetchLogsToCache.
Qed.

Lemma pageSize_is_validated_first_witness :
  fetchLogs demoProvider (demoFilter 1 100) 0 None emptyWorld
  = (Err InvalidPageSize, emptyWorld) /\
  fst (fetchLogsToCache demoProvider (demoFilter 1 100) 10 None emptyWorld)
  <> Err InvalidPageSize.
Proof.
  split.
  - apply (pageSize_is_validated_first demoProvider (demoFilter 1 100) 0
             emptyWorld). lia.
  - apply (pageSize_is_validated_first demoProvider (demoFilter 1 100) 10
             emptyWorld). lia.
Defined.

(** C5.  For a call with a page size of at least 1 whose range resolves,
    when the resolved upper bound exceeds the last finalized block
    [fetchLogsToCache] fails with 'toBlock is not finalized' and the
    world is as it was: no statement executed (no records, no ranges, no
    tidy), no request sent. *)
Theorem fetchLogsToCache_rejects_unfinalized (provider : Provider)
    (filter : Filter) (pageSize : Z)
    (batchCallback : option FetchLogsToCacheBatchCallback) (w : World)
    (strictFilter : StrictFilter) (lastFinalizedBlock : Z) :
  1 <= pageSize ->
  toStrictFilter provider filter (TagString "finalized") = Ok strictFilter ->
  getFinalizedBlockNumber provider = Ok lastFinalizedBlock ->
  lastFinalizedBlock < strictTo strictFilter ->
  fetchLogsToCache provider filter pageSize batchCallback w
  = (Err NotFinalized, w).
Proof.
  intros Hps Hsf Hfin Hgt. unfold fetchLogsToCache.
  destruct (Z.ltb_spec pageSize 1); [lia |].
  rewrite Hsf, Hfin. unfold bind; simpl.
  rewrite Z.gtb_ltb.
  destruct (Z.ltb_spec lastFinalizedBlock (strictTo strictFilter));
    [reflexivity | lia].
Qed.

Lemma fetchLogsToCache_rejects_unfinalized_witness :
  1 <= 10 /\
  toStrictFilter demoProvider (demoFilter 1 200) (TagString "finalized")
  = Ok (mkStrict demoKey 1 200) /\
  getFinalizedBlockNumber demoProvider = Ok 100 /\
  100 < 200 /\
  fetchLogsToCache demoProvider (demoFilter 1 200) 10 None emptyWorld
  = (Err NotFinalized, emptyWorld).
Proof.
  split; [lia |]. split; [reflexivity |]. split; [reflexivity |].
  split; [lia |].
  apply (fetchLogsToCache_rejects_unfinalized demoProvider (demoFilter 1 200)
           10 None emptyWorld (mkStrict demoKey 1 200) 100);
    [lia | reflexivity | reflexivity | simpl; lia].
Defined.


(** ** The pages of a walk *)

Section Pages.

Variable pageSize : Z.
Hypothesis pageSize_pos : 1 <= pageSize.

Lemma pagesOf_done fromBlockN toBlockN :
  toBlockN < fromBlockN -> pagesOf pageSize fromBlockN toBlockN = [].
Proof.
  intros Hlt. unfold pagesOf, pageCount.
  assert (H : (toBlockN - fromBlockN + pageSize) / pageSize <= 0).
  { apply Z.lt_succ_r. apply Z.div_lt_upper_bound; lia. }
  replace (Z.to_nat ((toBlockN - fromBlockN + pageSize) / pageSize))
    with 0%nat by lia.
  reflexivity.
Qed.

Lemma page_shift fromBlockN toBlockN k :
  page pageSize fromBlockN toBlockN (S k)
  = page pageSize (fromBlockN + pageSize) toBlockN k.
Proof.
  unfold page. rewrite Nat2Z.inj_succ.
  replace (fromBlockN + Z.succ (Z.of_nat k) * pageSize)
    with (fromBlockN + pageSize + Z.of_nat k * pageSize) by ring.
  reflexivity.
Qed.

Lemma pagesOf_step fromBlockN toBlockN :
  fromBlockN <= toBlockN ->
  pagesOf pageSize fromBlockN toBlockN
  = mkRange fromBlockN (Z.min (fromBlockN + pageSize - 1) toBlockN)
    :: pagesOf pageSize (Z.min (fromBlockN + pageSize - 1) toBlockN + 1)
         toBlockN.
Proof.
  intros Hle.
  destruct (Z.lt_ge_cases (fromBlockN + pageSize - 1) toBlockN) as [Hin | Hlast].
  - (* a full page, more to come *)
    rewrite Z.min_l by lia.
    replace (fromBlockN + pageSize - 1 + 1) with (fromBlockN + pageSize) by lia.
    unfold pagesOf, pageCount.
    replace (toBlockN - fromBlockN + pageSize)
      with (toBlockN - (fromBlockN + pageSize) + pageSize + 1 * pageSize)
      by lia.
    rewrite Z.div_add by lia.
    assert (0 <= (toBlockN - (fromBlockN + pageSize) + pageSize) / pageSize)
      by (apply Z.div_pos; lia).
    rewrite Z2Nat.inj_add by lia.
    rewrite Nat.add_comm. simpl.
    f_equal.
    + unfold page; f_equal; simpl; lia.
    + rewrite <- seq_shift, map_map. apply map_ext.
      intros k. apply page_shift.
  - (* the last page *)
    rewrite Z.min_r by lia.
    rewrite (pagesOf_done (toBlockN + 1) toBlockN) by lia.
    unfold pagesOf, pageCount.
    assert (E : (toBlockN - fromBlockN + pageSize) / pageSize = 1).
    { symmetry. apply Z.div_unique with (r := toBlockN - fromBlockN); lia. }
    rewrite E. simpl. unfold page. simpl.
    f_equal. f_equal; lia.
Qed.

Lemma pagesOf_walk toBlockN : forall n fromBlockN,
  (Z.to_nat (toBlockN - fromBlockN + 1) <= n)%nat ->
  Walk pageSize toBlockN fromBlockN (pagesOf pageSize fromBlockN toBlockN).
Proof.
  induction n as [| n IH]; intros fromBlockN Hn.
  - rewrite pagesOf_done by lia. constructor. lia.
  - destruct (Z.lt_ge_cases toBlockN fromBlockN) as [Hlt | Hge].
    + rewrite pagesOf_done by lia. now constructor.
    + rewrite pagesOf_step by lia. constructor; [lia |].
      apply IH. lia.
Qed.

End Pages.

(** ** fetchLogs *)

Section FetchLogs.

Variable provider : Provider.
Variable key : FilterKey.
Variable pageSize : Z.
Hypothesis pageSize_pos : 1 <= pageSize.
Variable strictToBlock : Z.

(** The walk when every request is answered and the callback returns. *)
Lemma fetchLoop_run (cb : option FetchLogsBatchCallback) :
  (forall c, cb = Some c -> forall a b f t, c a b f t = true) ->
  forall fuel fromBlockN acc w,
    (Z.to_nat (strictToBlock - fromBlockN + 1) <= fuel)%nat ->
    (forall pg, In pg (pagesOf pageSize fromBlockN strictToBlock) ->
       getLogs_upstream provider key (fromBlock pg) (toBlock pg) <> None) ->
    fetchLoop fuel provider key pageSize (option_map callBatch cb)
      strictToBlock fromBlockN acc w
    = (Ok (acc ++ flat_map (answer provider key)
                    (pagesOf pageSize fromBlockN strictToBlock)),
       appendTrace
         (walkEvents provider key (isSome cb) acc
            (pagesOf pageSize fromBlockN strictToBlock)) w).
Proof.
  intros Hcb. induction fuel as [| fuel IH]; intros fromBlockN acc w Hfuel Hup.
  - assert (Hlt : strictToBlock < fromBlockN) by lia.
    rewrite pagesOf_done by lia. simpl.
    destruct (Z.leb_spec fromBlockN strictToBlock); [lia |].
    now rewrite app_nil_r, appendTrace_nil.
  - simpl.
    destruct (Z.leb_spec fromBlockN strictToBlock) as [Hle | Hlt].
    + rewrite pagesOf_step in * by lia.
      set (thisToBlock := Z.min (fromBlockN + pageSize - 1) strictToBlock) in *.
      set (pg := mkRange fromBlockN thisToBlock) in *.
      assert (Hans : getLogs_upstream provider key fromBlockN thisToBlock
                     = Some (answer provider key pg)).
      { unfold answer; simpl.
        specialize (Hup pg (or_introl eq_refl)). simpl in Hup.
        destruct (getLogs_upstream provider key fromBlockN thisToBlock);
          [reflexivity | contradiction]. }
      unfold providerGetLogs.
      unfold bind at 1. unfold bind at 1. rewrite emit_run, Hans.
      cbn [ret].
      assert (Hcall : callOptional (option_map callBatch cb)
                        (acc ++ answer provider key pg)
                        (answer provider key pg) fromBlockN thisToBlock
                        (appendTrace [EvGetLogs key fromBlockN thisToBlock] w)
                = (Ok tt,
                   appendTrace
                     (EvGetLogs key fromBlockN thisToBlock
                      :: (if isSome cb
                          then [EvBatch (acc ++ answer provider key pg)
                                  (answer provider key pg) fromBlockN
                                  thisToBlock]
                          else [])) w)).
      { destruct cb as [c |]; simpl.
        - unfold callBatch, bind. rewrite emit_run.
          rewrite (Hcb c eq_refl). cbn [ret].
          now rewrite appendTrace_app.
        - reflexivity. }
      unfold bind at 1. rewrite Hcall.
      rewrite IH.
      * cbn [flat_map walkEvents fromBlock toBlock pg].
        rewrite appendTrace_app, <- app_assoc. reflexivity.
      * unfold thisToBlock. lia.
      * intros pg' Hpg'. apply Hup. now right.
    + rewrite pagesOf_done by lia. simpl.
      now rewrite app_nil_r, appendTrace_nil.
Qed.

End FetchLogs.

(** The bound [fetchLogs] gives the loop is never used up. *)
Lemma fetchLoop_fuel (provider : Provider) (key : FilterKey) (pageSize : Z)
    (cb : option BatchClosure) (strictToBlock : Z) :
  1 <= pageSize ->
  (forall c, cb = Some c ->
     forall a b f t, neverRaises OutOfFuel (c a b f t)) ->
  forall fuel fromBlockN acc,
    (Z.to_nat (strictToBlock - fromBlockN + 1) <= fuel)%nat ->
    neverRaises OutOfFuel
      (fetchLoop fuel provider key pageSize cb strictToBlock fromBlockN acc).
Proof.
  intros Hps Hcb. induction fuel as [| fuel IH]; intros fromBlockN acc Hfuel;
    simpl; destruct (Z.leb_spec fromBlockN strictToBlock);
    try apply neverRaises_ret; try lia.
  apply neverRaises_bind.
  - unfold providerGetLogs.
    apply neverRaises_bind; [apply neverRaises_emit |].
    intros _. destruct (getLogs_upstream provider key fromBlockN _);
      [apply neverRaises_ret | apply neverRaises_throw; discriminate].
  - intros thisBatchLogs. apply neverRaises_bind.
    + unfold callOptional. destruct cb as [c |];
        [now apply Hcb | apply neverRaises_ret].
    + intros _. apply IH. lia.
Qed.

Lemma fetchLogs_fuel (provider : Provider) (filter : Filter) (pageSize : Z)
    (cb : option BatchClosure) :
  (forall c, cb = Some c ->
     forall a b f t, neverRaises OutOfFuel (c a b f t)) ->
  neverRaises OutOfFuel (fetchLogs provider filter pageSize cb).
Proof.
  intros Hcb. unfold fetchLogs.
  destruct (Z.ltb_spec pageSize 1);
    [apply neverRaises_throw; discriminate |].
  apply neverRaises_bind.
  - apply neverRaises_lift. intros Hr.
    apply toStrictFilter_error in Hr. discriminate.
  - intros sf. apply fetchLoop_fuel; auto.
Qed.

(** C7.  With [pageSize >= 1] and a range that resolves to [sf], when the
    provider answers every page and the callback returns: the pages walked
    are the consecutive pages [[f, min (f + pageSize - 1) toBlock]]
    starting at [fromBlock]; the trace grows by one request per page, each
    followed (when a callback is given) by one call of the callback with
    all records so far, the page's records and the page's bounds, before
    the next page is requested; the result is the pages' records
    concatenated in page order.  When [fromBlock > toBlock] the result is
    the empty list and nothing is requested. *)
Theorem fetchLogs_walks_pages (provider : Provider) (filter : Filter)
    (pageSize : Z) (batchCallback : option FetchLogsBatchCallback)
    (sf : StrictFilter) (w : World) :
  1 <= pageSize ->
  toStrictFilter provider filter (TagString "latest") = Ok sf ->
  (forall pg, In pg (pagesOf pageSize (strictFrom sf) (strictTo sf)) ->
     getLogs_upstream provider (filterKey filter) (fromBlock pg) (toBlock pg)
     <> None) ->
  (forall c, batchCallback = Some c -> forall a b f t, c a b f t = true) ->
  let pages := pagesOf pageSize (strictFrom sf) (strictTo sf) in
  Walk pageSize (strictTo sf) (strictFrom sf) pages /\
  fetchLogs provider filter pageSize (option_map callBatch batchCallback) w
  = (Ok (flat_map (answer provider (filterKey filter)) pages),
     appendTrace
       (walkEvents provider (filterKey filter) (isSome batchCallback) []
          pages) w) /\
  (strictTo sf < strictFrom sf ->
   fetchLogs provider filter pageSize (option_map callBatch batchCallback) w
   = (Ok [], w)).
Proof.
  intros Hps Hsf Hup Hcb pages.
  assert (Hrun :
    fetchLogs provider filter pageSize (option_map callBatch batchCallback) w
    = (Ok (flat_map (answer provider (filterKey filter)) pages),
       appendTrace
         (walkEvents provider (filterKey filter) (isSome batchCallback) []
            pages) w)).
  { unfold fetchLogs. destruct (Z.ltb_spec pageSize 1); [lia |].
    rewrite Hsf. unfold bind at 1. cbn [lift ret].
    rewrite fetchLoop_run; auto. }
  split; [| split].
  - apply pagesOf_walk with (n := Z.to_nat (strictTo sf - strictFrom sf + 1));
      auto.
  - exact Hrun.
  - intros Hlt. rewrite Hrun. unfold pages.
    rewrite pagesOf_done by lia. simpl. now rewrite appendTrace_nil.
Qed.

Lemma fetchLogs_walks_pages_witness :
  let cb : FetchLogsBatchCallback := fun _ _ _ _ => true in
  let pages := pagesOf 40 1 100 in
  pages = [mkRange 1 40; mkRange 41 80; mkRange 81 100] /\
  Walk 40 100 1 pages /\
  fetchLogs demoProvider (demoFilter 1 100) 40 (Some (callBatch cb))
    emptyWorld
  = (Ok (flat_map (answer demoProvider demoKey) pages),
     appendTrace (walkEvents demoProvider demoKey true [] pages) emptyWorld) /\
  (100 < 1 ->
   fetchLogs demoProvider (demoFilter 1 100) 40 (Some (callBatch cb))
     emptyWorld = (Ok [], emptyWorld)).
Proof.
  cbv zeta. split; [reflexivity |].
  apply (fetchLogs_walks_pages demoProvider (demoFilter 1 100) 40
           (Some (fun _ _ _ _ => true)) (mkStrict demoKey 1 100) emptyWorld).
  - lia.
  - reflexivity.
  - intros pg _. simpl. discriminate.
  - intros c Hc. injection Hc as <-. reflexivity.
Defined.

(** ** One transaction per page *)

Section PageTransaction.

Variable filterId_ : string.

(** A statement either fails and leaves the tables, or applies its
    effect. *)
Lemma statement_run {A} (run : Db -> A * Db) w :
  (fst (statement run w) = Err StoreFailure /\
   db (snd (statement run w)) = db w) \/
  (fst (statement run w) = Ok (fst (run (db w))) /\
   db (snd (statement run w)) = snd (run (db w))).
Proof.
  unfold statement. destruct (faulty w (statements w)); simpl; [now left |].
  right. destruct (run (db w)); simpl; auto.
Qed.

Lemma insertLogs_run thisBatchLogs : forall w,
  fst (_insertLogs thisBatchLogs filterId_ w) = Err StoreFailure \/
  (fst (_insertLogs thisBatchLogs filterId_ w) = Ok tt /\
   db (snd (_insertLogs thisBatchLogs filterId_ w))
   = insertAllLogs filterId_ thisBatchLogs (db w)).
Proof.
  unfold _insertLogs.
  induction thisBatchLogs as [| log rest IH]; intros w; simpl.
  - right; split; reflexivity.
  - unfold bind.
    match goal with |- context [statement ?r w] =>
      destruct (statement_run r w) as [[He Hd] | [Ho Hd]];
      destruct (statement r w) as [[[] | e] w1] end;
      simpl in *; try discriminate.
    + left. congruence.
    + destruct (IH w1) as [He' | [Ho' Hd']]; [now left |].
      right. split; [assumption |]. rewrite Hd', Hd. reflexivity.
Qed.

(** The transaction of a page commits both inserts or neither. *)
Lemma page_transaction_run thisBatchLogs thisBatchFrom thisBatchTo w :
  let r := transaction
             (_insertLogs thisBatchLogs filterId_ ;;
              _insertRange filterId_ thisBatchFrom thisBatchTo) w in
  (fst r = Ok tt /\
   db (snd r) = commitPage filterId_ thisBatchLogs thisBatchFrom thisBatchTo
                  (db w)) \/
  (fst r = Err StoreFailure /\ db (snd r) = db w).
Proof.
  cbv zeta. unfold transaction, bind.
  destruct (insertLogs_run thisBatchLogs w) as [He | [Ho Hd]];
    destruct (_insertLogs thisBatchLogs filterId_ w) as [[[] | e] w1];
    simpl in *; try discriminate.
  - right. split; [congruence | reflexivity].
  - unfold _insertRange.
    match goal with |- context [statement ?r w1] =>
      destruct (statement_run r w1) as [[He Hd'] | [Ho' Hd']];
      destruct (statement r w1) as [[[] | e] w2] end;
      simpl in *; try discriminate.
    + right. split; [congruence | reflexivity].
    + left. split; [reflexivity |]. rewrite Hd', Hd. reflexivity.
Qed.

(** The closure handed to [fetchLogs]: three outcomes. *)
Lemma cachePage_run (cb : option BatchClosure) :
  (forall c, cb = Some c -> keepsDb c) ->
  forall allLogs thisBatchLogs thisBatchFrom thisBatchTo w,
    let r := cachePage filterId_ cb allLogs thisBatchLogs thisBatchFrom
               thisBatchTo w in
    db (snd r) = commitPage filterId_ thisBatchLogs thisBatchFrom thisBatchTo
                   (db w) \/
    (fst r = Err StoreFailure /\ db (snd r) = db w).
Proof.
  intros Hcb allLogs thisBatchLogs thisBatchFrom thisBatchTo w. cbv zeta.
  unfold cachePage, bind.
  destruct (page_transaction_run thisBatchLogs thisBatchFrom thisBatchTo w)
    as [[Ho Hd] | [He Hd]]; cbv zeta in *;
    destruct (transaction _ w) as [[[] | e] w1]; simpl in *;
    try discriminate.
  - left. rewrite <- Hd. unfold callOptional.
    destruct cb as [c |]; [| reflexivity]. now apply Hcb.
  - right. split; [congruence | assumption].
Qed.

End PageTransaction.

Lemma keepsDb_progress cb missingRanges i blocksToScan :
  keepsDb (progress cb missingRanges i blocksToScan).
Proof.
  intros a b f t w. unfold progress, bind, getScanned, setScanned. simpl.
  destruct cb as [c |]; [| reflexivity].
  unfold callCacheBatch, bind, emit. simpl.
  destruct (c a b f t missingRanges i _ blocksToScan); reflexivity.
Qed.

Section RangeToCache.

Variable provider : Provider.
Variable key : FilterKey.
Variable filterId_ : string.
Variable pageSize : Z.
Hypothesis pageSize_pos : 1 <= pageSize.
Variable strictToBlock : Z.
Variable cb : option BatchClosure.
Hypothesis cb_keepsDb : forall c, cb = Some c -> keepsDb c.

Lemma commitPages_cons pg pages d :
  commitPages provider key filterId_ (pg :: pages) d
  = commitPages provider key filterId_ pages
      (commitPage filterId_ (answer provider key pg) (fromBlock pg)
         (toBlock pg) d).
Proof. reflexivity. Qed.

(** Whatever fails, the tables hold the pages of a prefix of the walk,
    each with its logs and its range; all of them when the walk
    succeeds. *)
Lemma fetchLoop_commits : forall fuel fromBlockN acc w r,
  (Z.to_nat (strictToBlock - fromBlockN + 1) <= fuel)%nat ->
  fetchLoop fuel provider key pageSize (Some (cachePage filterId_ cb))
    strictToBlock fromBlockN acc w = r ->
  exists k,
    db (snd r)
    = commitPages provider key filterId_
        (firstn k (pagesOf pageSize fromBlockN strictToBlock)) (db w) /\
    (forall l, fst r = Ok l ->
       k = length (pagesOf pageSize fromBlockN strictToBlock)).
Proof.
  induction fuel as [| fuel IH]; intros fromBlockN acc w r Hfuel Hr.
  - rewrite pagesOf_done by lia. simpl in Hr.
    destruct (Z.leb_spec fromBlockN strictToBlock); [lia |].
    subst r. exists 0%nat. simpl. auto.
  - simpl in Hr.
    destruct (Z.leb_spec fromBlockN strictToBlock) as [Hle | Hlt].
    2:{ rewrite pagesOf_done by lia. subst r. exists 0%nat. simpl. auto. }
    rewrite pagesOf_step by lia.
    set (thisToBlock := Z.min (fromBlockN + pageSize - 1) strictToBlock) in *.
    set (pg := mkRange fromBlockN thisToBlock).
    unfold providerGetLogs, bind in Hr. rewrite emit_run in Hr.
    destruct (getLogs_upstream provider key fromBlockN thisToBlock)
      as [thisBatchLogs |] eqn:Hup; cbn [ret throw] in Hr.
    2:{ subst r. exists 0%nat. simpl. split; [reflexivity | discriminate]. }
    assert (Hans : answer provider key pg = thisBatchLogs).
    { unfold answer, pg; simpl. now rewrite Hup. }
    unfold callOptional in Hr.
    set (w1 := appendTrace [EvGetLogs key fromBlockN thisToBlock] w) in *.
    destruct (cachePage_run filterId_ cb cb_keepsDb (acc ++ thisBatchLogs)
                thisBatchLogs fromBlockN thisToBlock w1) as [Hd | [He Hd]];
      cbv zeta in *;
      destruct (cachePage filterId_ cb (acc ++ thisBatchLogs) thisBatchLogs
                  fromBlockN thisToBlock w1) as [[[] | e] w2];
      simpl in Hd; try (simpl in He; try discriminate).
    + (* the page is committed and the callback returned *)
      destruct (IH (thisToBlock + 1) (acc ++ thisBatchLogs) w2 r)
        as [k [Hk Hall]]; [unfold thisToBlock; lia | exact Hr |].
      exists (S k). split.
      * rewrite Hk. simpl firstn. rewrite commitPages_cons, Hans.
        now rewrite Hd.
      * intros l Hl. simpl. f_equal. eapply Hall; eauto.
    + (* the page is committed and the callback threw *)
      subst r. exists 1%nat. split.
      * simpl. rewrite Hans. exact Hd.
      * simpl. discriminate.
    + (* the transaction failed *)
      subst r. exists 0%nat. split; [simpl; exact Hd | simpl; discriminate].
Qed.

End RangeToCache.

(** C6.  In [_fetchRangeToCache], when the callback does not write to the
    tables: the closure run for a page leaves the tables either with the
    page's logs and the page's exact range both inserted, or exactly as
    they were (and then it failed with a store failure); and after the
    whole call, whatever failed, the tables are the initial ones plus the
    logs and the range of each page of a prefix of the walk (earlier pages
    stay committed), all pages when the call succeeds. *)
Theorem fetchRangeToCache_pages_atomic (provider : Provider)
    (strictFilter : Filter) (pageSize : Z) (cb : option BatchClosure)
    (w : World) :
  (forall c, cb = Some c -> keepsDb c) ->
  let filterId_ := getFilterId provider (filterKey strictFilter) in
  let key := filterKey strictFilter in
  let pages :=
    match toStrictFilter provider strictFilter (TagString "latest") with
    | Ok sf => pagesOf pageSize (strictFrom sf) (strictTo sf)
    | Err _ => []
    end in
  (forall allLogs thisBatchLogs thisBatchFrom thisBatchTo w0,
     let r := cachePage filterId_ cb allLogs thisBatchLogs thisBatchFrom
                thisBatchTo w0 in
     db (snd r) = commitPage filterId_ thisBatchLogs thisBatchFrom
                    thisBatchTo (db w0) \/
     (fst r = Err StoreFailure /\ db (snd r) = db w0)) /\
  (exists k,
     db (snd (_fetchRangeToCache provider strictFilter pageSize cb w))
     = commitPages provider key filterId_ (firstn k pages) (db w) /\
     (fst (_fetchRangeToCache provider strictFilter pageSize cb w) = Ok tt ->
      k = length pages)).
Proof.
  intros Hcb filterId_ key pages. split.
  - intros. now apply cachePage_run.
  - unfold _fetchRangeToCache, fetchLogs. fold filterId_. fold key.
    destruct (Z.ltb_spec pageSize 1) as [Hlt | Hge].
    { exists 0%nat. simpl. split; [reflexivity | discriminate]. }
    unfold bind, pages.
    destruct (toStrictFilter provider strictFilter (TagString "latest"))
      as [sf | e]; cbn [lift ret throw].
    2:{ exists 0%nat. simpl. split; [reflexivity | discriminate]. }
    destruct (fetchLoop_commits provider key filterId_ pageSize Hge
                (strictTo sf) cb Hcb
                (Z.to_nat (strictTo sf - strictFrom sf + 1))
                (strictFrom sf) [] w _ (le_n _) eq_refl) as [k [Hk Hall]].
    destruct (fetchLoop _ provider key pageSize _ (strictTo sf)
                (strictFrom sf) [] w) as [[l | e] w1]; simpl in *.
    + exists k. split; [assumption |]. intros _. eapply Hall; eauto.
    + exists k. split; [assumption | discriminate].
Qed.

Lemma fetchRangeToCache_pages_atomic_witness :
  let cb := Some (progress None [mkRange 1 100] 0 100) in
  let r := _fetchRangeToCache demoProvider (demoFilter 1 100) 40 cb
             faultyWorld in
  fst r = Err StoreFailure /\
  db (snd r) = mkDb [] [mkRow demoId 1 40] /\
  exists k,
    db (snd r)
    = commitPages demoProvider demoKey demoId
        (firstn k (pagesOf 40 1 100)) (db faultyWorld) /\
    (fst r = Ok tt -> k = length (pagesOf 40 1 100)).
Proof.
  cbv zeta. split; [reflexivity |]. split; [reflexivity |].
  apply (fetchRangeToCache_pages_atomic demoProvider (demoFilter 1 100) 40
           (Some (progress None [mkRange 1 100] 0 100)) faultyWorld).
  intros c Hc. injection Hc as <-. apply keepsDb_progress.
Defined.

(** ** A fully cached range *)

Section NoFaults.

Lemma statement_ok {A} (run : Db -> A * Db) w :
  noFaults w ->
  statement run w
  = (Ok (fst (run (db w))),
     mkWorld (snd (run (db w))) (trace w) (S (statements w)) (faulty w)
       (scanned w)).
Proof.
  intros Hnf. unfold statement. rewrite Hnf.
  destruct (run (db w)); reflexivity.
Qed.

Lemma insertRanges_ok filterId_ ranges : forall w,
  noFaults w ->
  exists w',
    forEach ranges
      (fun range => _insertRange filterId_ (fromBlock range) (toBlock range)) w
    = (Ok tt, w') /\
    db w' = mkDb (logs (db w))
              (fetched_ranges (db w) ++ map (rowOf filterId_) ranges) /\
    trace w' = trace w /\ faulty w' = faulty w /\ scanned w' = scanned w.
Proof.
  induction ranges as [| r ranges IH]; intros w Hnf; simpl.
  - exists w. rewrite app_nil_r. destruct w as [[] ? ? ? ?]; simpl. auto.
  - unfold bind. unfold _insertRange at 1.
    rewrite statement_ok by assumption. simpl.
    match goal with |- context [forEach ranges _ ?w1] =>
      destruct (IH w1) as [w' (Hrun & Hdb & Htr & Hf & Hs)]; [exact Hnf |]
    end.
    exists w'. rewrite Hrun, Hdb. simpl.
    rewrite <- app_assoc. auto.
Qed.

Lemma filter_complement {A} (f : A -> bool) l :
  filter f (filter (fun x => negb (f x)) l) = [].
Proof.
  induction l as [| a l IH]; simpl; auto.
  destruct (f a) eqn:E; simpl; auto. now rewrite E.
Qed.

Lemma selectedRanges_replaced filterId_ d ranges :
  StronglySorted fromLe ranges ->
  selectedRanges
    (mkDb (logs d)
       (fetched_ranges (deleteRanges filterId_ d)
        ++ map (rowOf filterId_) ranges)) filterId_
  = ranges.
Proof.
  intros Hs. unfold selectedRanges, deleteRanges. simpl.
  rewrite filter_app.
  rewrite (filter_complement
             (fun row => String.eqb (rangeFilterId row) filterId_)).
  simpl.
  assert (E : forall l,
    map (fun row => mkRange (rangeFrom row) (rangeTo row))
      (filter (fun row => String.eqb (rangeFilterId row) filterId_)
         (map (rowOf filterId_) l)) = l).
  { induction l as [| [a b] l IH]; simpl; auto.
    rewrite String.eqb_refl. simpl. now rewrite IH. }
  rewrite E. now apply sortVals_fixed.
Qed.

Lemma tidyUpRanges_ok filterId_ w :
  noFaults w ->
  Forall valid (selectedRanges (db w) filterId_) ->
  exists w',
    _tidyUpRanges filterId_ w = (Ok tt, w') /\
    logs (db w') = logs (db w) /\
    selectedRanges (db w') filterId_
    = mergeVals (selectedRanges (db w) filterId_) /\
    trace w' = trace w /\ faulty w' = faulty w /\ scanned w' = scanned w.
Proof.
  intros Hnf Hv. unfold _tidyUpRanges, transaction, bind, _selectRanges.
  rewrite statement_ok by assumption. simpl.
  destruct (selectedRanges (db w) filterId_) as [| r rs] eqn:Hsel.
  - simpl. eexists. split; [reflexivity |]. simpl.
    repeat split; auto.
  - rewrite <- Hsel in *.
    unfold _replaceRanges, bind.
    rewrite statement_ok by assumption. simpl.
    match goal with |- context [forEach _ _ ?w1] =>
      destruct (insertRanges_ok filterId_
                  (mergeRangesOf (selectedRanges (db w) filterId_)) w1)
        as [w' (Hrun & Hdb & Htr & Hf & Hs)]; [exact Hnf |]
    end.
    rewrite Hrun. exists w'. simpl in *.
    split; [reflexivity |]. rewrite Hdb. simpl.
    split; [reflexivity |]. split; [| auto].
    rewrite mergeRangesOf_values by assumption.
    apply selectedRanges_replaced.
    destruct (mergeVals_spec _ Hv) as (_ & Hval & Hgap).
    now apply gap_sorted_fromLe.
Qed.

(** Nothing is missing from a range the stored ranges cover. *)
Lemma subtractRanges_covered want have :
  valid want -> Forall valid have ->
  (forall b, inRange want b -> covers have b) ->
  subtractRanges want have = [].
Proof.
  intros Hw Hh Hc.
  destruct (subtractRanges_spec want have Hw Hh) as (Hcov & Hval & _).
  destruct (subtractRanges want have) as [| r out]; auto.
  exfalso. inversion Hval as [| ? ? Hr _]; subst.
  assert (Hb : covers (r :: out) (fromBlock r)).
  { exists r. split; [now left |]. unfold inRange, valid in *. lia. }
  apply Hcov in Hb as [Hin Hn]. auto.
Qed.

Lemma selectedLogs_same d d' filterId_ a b :
  logs d' = logs d ->
  selectedLogs d' filterId_ a b = selectedLogs d filterId_ a b.
Proof. intros E. unfold selectedLogs. now rewrite E. Qed.

Lemma finalized_number provider n :
  getFinalizedBlockNumber provider = Ok n ->
  getBlock provider "finalized" = Some n.
Proof.
  unfold getFinalizedBlockNumber.
  destruct (getBlock provider "finalized"); congruence.
Qed.

End NoFaults.

Section Cached.

Variable provider : Provider.
Variable pageSize : Z.
Hypothesis pageSize_pos : 1 <= pageSize.
Variable lastFinalizedBlock : Z.
Hypothesis finalized :
  getFinalizedBlockNumber provider = Ok lastFinalizedBlock.

Lemma cachedIn_merged d d' filterId_ want :
  cachedIn d filterId_ want ->
  selectedRanges d' filterId_ = mergeVals (selectedRanges d filterId_) ->
  cachedIn d' filterId_ want.
Proof.
  intros [Hv Hc] E. unfold cachedIn. rewrite E.
  destruct (mergeVals_spec _ Hv) as (Hcov & Hval & _).
  split; auto. intros b Hb. apply Hcov. auto.
Qed.

Lemma missing_when_cached filterId_ want w :
  noFaults w -> valid want -> cachedIn (db w) filterId_ want ->
  exists w1,
    (_tidyUpRanges filterId_ ;; _getMissingRanges filterId_ want) w
    = (Ok [], w1) /\
    logs (db w1) = logs (db w) /\
    selectedRanges (db w1) filterId_
    = mergeVals (selectedRanges (db w) filterId_) /\
    trace w1 = trace w /\ faulty w1 = faulty w.
Proof.
  intros Hnf Hw Hc.
  destruct (tidyUpRanges_ok filterId_ w Hnf (proj1 Hc))
    as [w' (Hrun & Hl & Hsel & Htr & Hf & _)].
  unfold bind at 1. rewrite Hrun.
  assert (Hnf' : noFaults w') by (intros n; rewrite Hf; apply Hnf).
  unfold _getMissingRanges, bind, _selectRanges.
  rewrite statement_ok by assumption. simpl.
  destruct (cachedIn_merged _ _ _ _ Hc Hsel) as [Hv' Hc'].
  rewrite subtractRanges_covered by assumption.
  eexists. split; [reflexivity |]. simpl. auto.
Qed.

Lemma fetchLogsToCache_cached filter cb sf w :
  noFaults w ->
  toStrictFilter provider filter (TagString "finalized") = Ok sf ->
  strictTo sf <= lastFinalizedBlock ->
  valid (asRange sf) ->
  let filterId_ := getFilterId provider (filterKey filter) in
  cachedIn (db w) filterId_ (asRange sf) ->
  exists w',
    fetchLogsToCache provider filter pageSize cb w = (Ok tt, w') /\
    trace w' = trace w /\
    logs (db w') = logs (db w) /\
    faulty w' = faulty w /\
    selectedRanges (db w') filterId_
    = mergeVals (selectedRanges (db w) filterId_).
Proof.
  intros Hnf Hsf Hle Hw filterId_ Hc.
  unfold fetchLogsToCache.
  destruct (Z.ltb_spec pageSize 1); [lia |].
  rewrite Hsf, finalized. unfold bind at 1. unfold bind at 1. cbn [lift ret].
  rewrite Z.gtb_ltb.
  destruct (Z.ltb_spec lastFinalizedBlock (strictTo sf)); [lia |].
  fold filterId_.
  destruct (missing_when_cached filterId_ (asRange sf) w Hnf Hw Hc)
    as [w1 (Hrun & Hl & Hsel & Htr & Hf)].
  unfold bind in Hrun. unfold bind at 1.
  destruct (_tidyUpRanges filterId_ w) as [[[] | e] w0]; [| discriminate].
  unfold bind at 1. rewrite Hrun.
  unfold bind at 1. unfold setScanned at 1.
  unfold bind at 1. cbn [fetchMissing ret].
  match goal with |- context [_tidyUpRanges filterId_ ?w2] =>
    destruct (tidyUpRanges_ok filterId_ w2)
      as [w' (Hrun' & Hl' & Hsel' & Htr' & Hf' & _)]
  end.
  { intros n. simpl. rewrite Hf. apply Hnf. }
  { simpl. rewrite Hsel. apply (mergeVals_spec _ (proj1 Hc)). }
  rewrite Hrun'. exists w'. simpl in *.
  split; [reflexivity |].
  split; [congruence |]. split; [congruence |]. split; [congruence |].
  rewrite Hsel', Hsel.
  destruct (mergeVals_spec _ (proj1 Hc)) as (_ & Hval & Hgap).
  now apply mergeVals_fixed.
Qed.

Lemma getLogs_cached filter cb1 cb2 sg sf sr w :
  noFaults w ->
  toStrictFilter provider filter (TagString "latest") = Ok sg ->
  strictTo sg <= lastFinalizedBlock ->
  let inner := withToBlock sg (Z.min (strictTo sg) lastFinalizedBlock) in
  let filterId_ := getFilterId provider (filterKey inner) in
  toStrictFilter provider inner (TagString "finalized") = Ok sf ->
  toStrictFilter provider inner (TagString "latest") = Ok sr ->
  strictTo sf <= lastFinalizedBlock ->
  valid (asRange sf) ->
  cachedIn (db w) filterId_ (asRange sf) ->
  exists w',
    getLogs provider filter pageSize cb1 cb2 w
    = (Ok (map data (selectedLogs (db w) filterId_ (strictFrom sr)
                       (strictTo sr))), w') /\
    trace w' = trace w /\
    logs (db w') = logs (db w) /\
    faulty w' = faulty w /\
    selectedRanges (db w') filterId_
    = mergeVals (selectedRanges (db w) filterId_).
Proof.
  intros Hnf Hsg Hle inner filterId_ Hsf Hsr Hlef Hw Hc.
  unfold getLogs. rewrite (finalized_number _ _ finalized), Hsg.
  unfold bind at 1. unfold bind at 1. cbn [lift ret].
  fold inner.
  destruct (fetchLogsToCache_cached inner cb1 sf w Hnf Hsf Hlef Hw Hc)
    as [w1 (Hrun & Htr & Hl & Hf & Hsel)].
  unfold bind at 1. rewrite Hrun.
  unfold bind at 1. unfold readLogsFromCache. rewrite Hsr.
  unfold bind at 1. cbn [lift ret]. unfold bind at 1. unfold _selectLogs.
  rewrite statement_ok by (intros n; rewrite Hf; apply Hnf).
  cbn [fst snd ret].
  rewrite Z.gtb_ltb.
  destruct (Z.ltb_spec lastFinalizedBlock (strictTo sg)); [lia |].
  fold filterId_.
  rewrite (selectedLogs_same (db w) (db w1)) by assumption.
  eexists. split; [reflexivity |]. simpl. auto.
Qed.

(** What a successful call over finalized blocks returns is what the table
    of logs holds when it ends. *)
Lemma getLogs_returns_cache filter cb1 cb2 sg sr w0 w records :
  toStrictFilter provider filter (TagString "latest") = Ok sg ->
  strictTo sg <= lastFinalizedBlock ->
  let inner := withToBlock sg (Z.min (strictTo sg) lastFinalizedBlock) in
  let filterId_ := getFilterId provider (filterKey inner) in
  toStrictFilter provider inner (TagString "latest") = Ok sr ->
  getLogs provider filter pageSize cb1 cb2 w0 = (Ok records, w) ->
  records
  = map data (selectedLogs (db w) filterId_ (strictFrom sr) (strictTo sr)).
Proof.
  intros Hsg Hle inner filterId_ Hsr.
  unfold getLogs. rewrite (finalized_number _ _ finalized), Hsg.
  unfold bind at 1. unfold bind at 1. cbn [lift ret]. fold inner.
  unfold bind at 1.
  destruct (fetchLogsToCache provider inner pageSize cb1 w0)
    as [[[] | e] wa]; [| discriminate].
  unfold bind at 1. unfold readLogsFromCache. rewrite Hsr.
  unfold bind at 1. cbn [lift ret]. unfold bind at 1.
  unfold _selectLogs, statement.
  destruct (faulty wa (statements wa)); [discriminate |].
  cbn [fst snd ret]. rewrite Z.gtb_ltb.
  destruct (Z.ltb_spec lastFinalizedBlock (strictTo sg)); [lia |].
  intros Hres. injection Hres as <- <-. reflexivity.
Qed.

End Cached.

(** C4.  When the ranges stored for the filter are valid and cover the
    range [fetchLogsToCache] resolves (which lies within the finalized
    blocks), and no statement fails: the missing-range list computed after
    the tidy is empty; [fetchLogsToCache] succeeds with the trace
    unchanged (no request to the provider, no callback) and the table of
    logs unchanged, and the range is still fully cached afterwards; and a
    [getLogs] request whose finalized part is this filter returns the same
    records when repeated, again without any request to the provider:
    both for two calls in a row from this state, and for a call repeated
    after a first call that ended in this state. *)
Theorem cached_range_is_not_refetched (provider : Provider) (filter : Filter)
    (pageSize : Z)
    (finalizedLogsCallback : option FetchLogsToCacheBatchCallback)
    (sf : StrictFilter) (lastFinalizedBlock : Z) (w : World) :
  1 <= pageSize ->
  noFaults w ->
  getFinalizedBlockNumber provider = Ok lastFinalizedBlock ->
  toStrictFilter provider filter (TagString "finalized") = Ok sf ->
  strictTo sf <= lastFinalizedBlock ->
  valid (asRange sf) ->
  let filterId_ := getFilterId provider (filterKey filter) in
  cachedIn (db w) filterId_ (asRange sf) ->
  (exists w1,
     (_tidyUpRanges filterId_ ;; _getMissingRanges filterId_ (asRange sf)) w
     = (Ok [], w1)) /\
  (exists w',
     fetchLogsToCache provider filter pageSize finalizedLogsCallback w
     = (Ok tt, w') /\
     trace w' = trace w /\
     logs (db w') = logs (db w) /\
     cachedIn (db w') filterId_ (asRange sf)) /\
  (forall request unfinalizedLogsCallback sg sr,
     toStrictFilter provider request (TagString "latest") = Ok sg ->
     strictTo sg <= lastFinalizedBlock ->
     filter = withToBlock sg (Z.min (strictTo sg) lastFinalizedBlock) ->
     toStrictFilter provider filter (TagString "latest") = Ok sr ->
     exists records w1 w2,
       getLogs provider request pageSize finalizedLogsCallback
         unfinalizedLogsCallback w = (Ok records, w1) /\
       getLogs provider request pageSize finalizedLogsCallback
         unfinalizedLogsCallback w1 = (Ok records, w2) /\
       trace w1 = trace w /\ trace w2 = trace w) /\
  (forall request unfinalizedLogsCallback sg sr w0 records,
     toStrictFilter provider request (TagString "latest") = Ok sg ->
     strictTo sg <= lastFinalizedBlock ->
     filter = withToBlock sg (Z.min (strictTo sg) lastFinalizedBlock) ->
     toStrictFilter provider filter (TagString "latest") = Ok sr ->
     getLogs provider request pageSize finalizedLogsCallback
       unfinalizedLogsCallback w0 = (Ok records, w) ->
     exists w2,
       getLogs provider request pageSize finalizedLogsCallback
         unfinalizedLogsCallback w = (Ok records, w2) /\
       trace w2 = trace w).
Proof.
  intros Hps Hnf Hfin Hsf Hle Hw filterId_ Hc.
  split; [| split; [| split]].
  - destruct (missing_when_cached filterId_ (asRange sf) w Hnf Hw Hc)
      as [w1 [Hrun _]].
    now exists w1.
  - destruct (fetchLogsToCache_cached provider pageSize Hps lastFinalizedBlock
                Hfin filter finalizedLogsCallback sf w Hnf Hsf Hle Hw Hc)
      as [w' (Hrun & Htr & Hl & Hf & Hsel)].
    exists w'. repeat (split; [assumption |]).
    now apply (cachedIn_merged (db w)).
  - intros request cbu sg sr Hsg Hleg Hinner Hsr. subst filter.
    destruct (getLogs_cached provider pageSize Hps lastFinalizedBlock Hfin
                request finalizedLogsCallback cbu sg sf sr w Hnf Hsg Hleg
                Hsf Hsr Hle Hw Hc)
      as [w1 (Hrun1 & Htr1 & Hl1 & Hf1 & Hsel1)].
    assert (Hnf1 : noFaults w1) by (intros n; rewrite Hf1; apply Hnf).
    assert (Hc1 : cachedIn (db w1) filterId_ (asRange sf))
      by now apply (cachedIn_merged (db w)).
    destruct (getLogs_cached provider pageSize Hps lastFinalizedBlock Hfin
                request finalizedLogsCallback cbu sg sf sr w1 Hnf1 Hsg Hleg
                Hsf Hsr Hle Hw Hc1)
      as [w2 (Hrun2 & Htr2 & Hl2 & Hf2 & Hsel2)].
    eexists. exists w1, w2.
    split; [exact Hrun1 |]. split; [| split; congruence].
    rewrite Hrun2. f_equal. f_equal. f_equal.
    now apply selectedLogs_same.
  - intros request cbu sg sr w0 records Hsg Hleg Hinner Hsr Hfirst.
    subst filter.
    destruct (getLogs_cached provider pageSize Hps lastFinalizedBlock Hfin
                request finalizedLogsCallback cbu sg sf sr w Hnf Hsg Hleg
                Hsf Hsr Hle Hw Hc)
      as [w2 (Hrun & Htr & _)].
    exists w2. split; [| assumption].
    rewrite Hrun.
    rewrite (getLogs_returns_cache provider pageSize lastFinalizedBlock Hfin
               request finalizedLogsCallback cbu sg sr w0 w records Hsg Hleg
               Hsr Hfirst).
    reflexivity.
Qed.

Lemma cached_range_is_not_refetched_witness :
  let w := demoCachedWorld in
  getLogs demoProvider (demoFilter 1 100) 10 None None emptyWorld
  = (Ok [mkLog 50 3 "a"], w) /\
  cachedIn (db w) demoId (mkRange 1 100) /\
  (exists w1,
     (_tidyUpRanges demoId ;; _getMissingRanges demoId (mkRange 1 100)) w
     = (Ok [], w1)) /\
  (exists w',
     fetchLogsToCache demoProvider (demoFilter 1 100) 10 None w = (Ok tt, w') /\
     trace w' = trace w /\
     logs (db w') = logs (db w) /\
     cachedIn (db w') demoId (mkRange 1 100)) /\
  (exists w2,
     getLogs demoProvider (demoFilter 1 100) 10 None None w
     = (Ok [mkLog 50 3 "a"], w2) /\
     trace w2 = trace w).
Proof.
  cbv zeta.
  assert (Hfirst :
    getLogs demoProvider (demoFilter 1 100) 10 None None emptyWorld
    = (Ok [mkLog 50 3 "a"], demoCachedWorld)) by (vm_compute; reflexivity).
  assert (Hsel : selectedRanges (db demoCachedWorld) demoId = [mkRange 1 100])
    by (vm_compute; reflexivity).
  assert (Hc : cachedIn (db demoCachedWorld) demoId (mkRange 1 100)).
  { unfold cachedIn. rewrite Hsel. split.
    - repeat constructor; unfold valid; simpl; lia.
    - intros b Hb. exists (mkRange 1 100). split; [now left | exact Hb]. }
  split; [exact Hfirst |]. split; [exact Hc |].
  destruct (cached_range_is_not_refetched demoProvider (demoFilter 1 100) 10
              None (mkStrict demoKey 1 100) 100 demoCachedWorld)
    as (Hmissing & Hfetch & _ & Hagain).
  - lia.
  - intros n; reflexivity.
  - reflexivity.
  - reflexivity.
  - simpl; lia.
  - unfold valid; simpl; lia.
  - exact Hc.
  - split; [exact Hmissing |]. split; [exact Hfetch |].
    apply (Hagain (demoFilter 1 100) None (mkStrict demoKey 1 100)
             (mkStrict demoKey 1 100) emptyWorld [mkLog 50 3 "a"]);
      [reflexivity | simpl; lia | reflexivity | reflexivity | exact Hfirst].
Defined.

(** C1 fails on the code in two ways, shown here on the demo chain (last
    finalized block 100, latest block 150).

    First, a missing range [[0, 0]]: after a request for blocks 1 to 100,
    a request for blocks 0 to 120 finds [[0, 0]] missing; [fetchLogs] then
    resolves [toBlock: 0] as ['latest'], and the page [[0, 150]] is fetched
    and stored: the table of ranges records blocks above 100 and the table
    of logs holds the logs of blocks 110 and 140.

    Second, a request that starts above the block after the last
    finalized one: for blocks 120 to 130 the live fetch starts at block
    101, and the log of block 110 is returned. *)
Theorem getLogs_split_defects :
  let w1 := snd (getLogs demoProvider (demoFilter 1 100) 1000 None None
                   emptyWorld) in
  let r := getLogs demoProvider (demoFilter 0 120) 1000 None None w1 in
  let r' := getLogs demoProvider (demoFilter 120 130) 1000 None None
              emptyWorld in
  getBlock demoProvider "finalized" = Some 100 /\
  (toStrictFilter demoProvider (demoFilter 0 120) (TagString "latest")
   = Ok (mkStrict demoKey 0 120) /\
   fetched_ranges (db w1) = [mkRow demoId 1 100] /\
   fst r = Ok [mkLog 0 0 "genesis"; mkLog 50 3 "a"; mkLog 110 1 "b"] /\
   fetched_ranges (db (snd r)) = [mkRow demoId 0 150] /\
   map entryBlockNumber (logs (db (snd r))) = [50; 0; 110; 140] /\
   skipn (length (trace w1)) (trace (snd r))
   = [EvGetLogs demoKey 0 150; EvGetLogs demoKey 101 120]) /\
  (toStrictFilter demoProvider (demoFilter 120 130) (TagString "latest")
   = Ok (mkStrict demoKey 120 130) /\
   fst r' = Ok [mkLog 110 1 "b"] /\
   trace (snd r') = [EvGetLogs demoKey 101 130]).
Proof. vm_compute. repeat split. Qed.

(* ================================================================== *)
(** * Further properties of the range algebra *)
(* ================================================================== *)

(** ** subtractRanges: order and number of the missing ranges *)

Section SubtractOrder.

Lemma sorted_app {A} (R : A -> A -> Prop) l1 l2 :
  StronglySorted R l1 -> StronglySorted R l2 ->
  (forall a b, In a l1 -> In b l2 -> R a b) ->
  StronglySorted R (l1 ++ l2).
Proof.
  induction 1 as [| a l1 H1 IH Ha]; intros H2 H12; simpl; auto.
  constructor.
  - apply IH; auto. intros; apply H12; simpl; auto.
  - apply Forall_app; split; auto.
    apply Forall_forall; intros b Hb. apply H12; simpl; auto.
Qed.

Lemma sorted_flat_map {A B} (R : B -> B -> Prop) (Q : A -> A -> Prop)
    (f : A -> list B) l :
  StronglySorted Q l ->
  (forall a, In a l -> StronglySorted R (f a)) ->
  (forall a a' b b', Q a a' -> In b (f a) -> In b' (f a') -> R b b') ->
  StronglySorted R (flat_map f l).
Proof.
  intros HQ Hf HR.
  induction HQ as [| a l HQ IH Ha]; simpl; [constructor |].
  apply sorted_app.
  - apply Hf; simpl; auto.
  - apply IH. intros; apply Hf; simpl; auto.
  - intros b b' Hb Hb'. apply in_flat_map in Hb' as [a' [Ha' Hb']].
    rewrite Forall_forall in Ha. eapply HR; eauto.
Qed.

Ltac split_pieces :=
  unfold pieces, subtractStep;
  rewrite ?Z.gtb_ltb;
  repeat match goal with
  | |- context [Z.ltb ?a ?b] => destruct (Z.ltb_spec a b)
  end; simpl.

Lemma pieces_within x z_ p : In p (pieces x z_) -> within p z_.
Proof.
  unfold within. revert p. split_pieces; intros p Hp;
    repeat (destruct Hp as [<- | Hp]; [simpl; lia |]); destruct Hp.
Qed.

Lemma pieces_gap x z_ : valid x -> StronglySorted gap (pieces x z_).
Proof.
  unfold valid. split_pieces; intros Hx;
    repeat (constructor; simpl; auto).
  unfold gap; simpl; lia.
Qed.

Lemma pieces_length x z_ :
  (length (pieces x z_) <= if strictlyInside x z_ then 2 else 1)%nat.
Proof.
  unfold strictlyInside. split_pieces; lia.
Qed.

(** An interval that [x] lies strictly inside meets [x]; an interval
    separated from it by a gap does not contain [x]. *)
Lemma strictlyInside_unique x a b :
  valid x -> gap a b \/ gap b a ->
  strictlyInside x a = true -> strictlyInside x b = false.
Proof.
  unfold valid, gap, strictlyInside. intros Hx Hg Ha.
  apply andb_true_iff in Ha as [H1 H2].
  apply Z.ltb_lt in H1. apply Z.ltb_lt in H2.
  apply andb_false_iff.
  destruct (Z.ltb_spec (fromBlock b) (fromBlock x)); [right | now left].
  apply Z.ltb_ge. lia.
Qed.

Lemma pass_length x z :
  valid x -> StronglySorted gap z ->
  (length (flat_map (pieces x) z) <= length z + 1)%nat /\
  ((forall z_, In z_ z -> strictlyInside x z_ = false) ->
   (length (flat_map (pieces x) z) <= length z)%nat).
Proof.
  intros Hx Hs. induction Hs as [| z_ z Hs IH Hz]; simpl.
  - split; intros; lia.
  - destruct IH as [IH1 IH2]. rewrite length_app.
    pose proof (pieces_length x z_) as Hl.
    destruct (strictlyInside x z_) eqn:E.
    + assert (Hrest : forall z', In z' z -> strictlyInside x z' = false).
      { intros z' Hz'. rewrite Forall_forall in Hz.
        apply (strictlyInside_unique x z_ z'); auto. }
      specialize (IH2 Hrest). split; [lia |].
      intros Hall. rewrite (Hall z_ (or_introl eq_refl)) in E. discriminate.
    + split; [lia |]. intros Hall.
      assert ((length (flat_map (pieces x) z) <= length z)%nat).
      { apply IH2. intros; apply Hall; simpl; auto. }
      lia.
Qed.

Lemma pass_sorted x z :
  valid x -> StronglySorted gap z ->
  StronglySorted gap (flat_map (pieces x) z).
Proof.
  intros Hx Hs. apply sorted_flat_map with (Q := gap); auto.
  - intros; now apply pieces_gap.
  - intros a a' p p' Hg Hp Hp'.
    apply pieces_within in Hp, Hp'. unfold gap, within in *. lia.
Qed.

Lemma outer_loop_order have : forall z,
  Forall valid have -> StronglySorted gap z ->
  let out := fold_left (fun z x => fold_left (subtractStep x) z []) have z in
  StronglySorted gap out /\ (length out <= length z + length have)%nat.
Proof.
  induction have as [| x have IH]; intros z Hh Hs; simpl.
  - split; [assumption | lia].
  - inversion Hh as [| ? ? Hx Hh']; subst.
    rewrite inner_loop_flat_map. simpl.
    destruct (IH (flat_map (pieces x) z) Hh' (pass_sorted x z Hx Hs))
      as [Hs' Hl'].
    split; [assumption |].
    pose proof (proj1 (pass_length x z Hx Hs)). lia.
Qed.

End SubtractOrder.

(** X1.  The missing ranges come out in ascending order and separated:
    for valid ranges in [have], each range returned by [subtractRanges]
    starts after the block that follows the end of the previous one, and
    there are at most one more of them than ranges in [have]. *)
Theorem subtractRanges_ascending_bounded (want : BlockRange)
    (have : list BlockRange) :
  Forall valid have ->
  StronglySorted gap (subtractRanges want have) /\
  (length (subtractRanges want have) <= length have + 1)%nat.
Proof.
  intros Hh.
  destruct (outer_loop_order have [want] Hh) as [Hs Hl].
  { repeat constructor. }
  fold (subtractRanges want have) in Hs, Hl. simpl in Hl.
  split; [assumption | lia].
Qed.

Lemma subtractRanges_ascending_bounded_witness :
  let want := mkRange 0 100 in
  let have := [mkRange 40 50; mkRange 10 20; mkRange 90 120] in
  subtractRanges want have = [mkRange 0 9; mkRange 21 39; mkRange 51 89] /\
  StronglySorted gap (subtractRanges want have) /\
  (length (subtractRanges want have) <= length have + 1)%nat.
Proof.
  split; [reflexivity |].
  apply (subtractRanges_ascending_bounded (mkRange 0 100)
           [mkRange 40 50; mkRange 10 20; mkRange 90 120]).
  repeat constructor; unfold valid; simpl; lia.
Defined.

(** ** mergeRanges: the result is canonical *)

Section Canonical.

Lemma covers_gap_tail a l x :
  StronglySorted gap (a :: l) -> covers l x -> toBlock a + 1 < x.
Proof.
  intros Hs [m [Hm Hx]]. inversion Hs as [| ? ? _ Ha]; subst.
  rewrite Forall_forall in Ha. specialize (Ha m Hm).
  unfold gap, inRange in *. lia.
Qed.

Lemma head_within_head a l1 b l2 :
  Forall valid (a :: l1) -> Forall valid (b :: l2) ->
  StronglySorted gap (a :: l1) -> StronglySorted gap (b :: l2) ->
  (forall x, covers (a :: l1) x <-> covers (b :: l2) x) ->
  within a b.
Proof.
  intros V1 V2 S1 S2 Hc.
  inversion V1 as [| ? ? Va _]; inversion V2 as [| ? ? Vb _]; subst.
  destruct (covered_within (b :: l2) a V2 S2 Va) as [m [Hm Wa]].
  { intros x Hx. apply Hc. exists a. split; [now left | assumption]. }
  destruct Hm as [<- | Hm]; [assumption | exfalso].
  assert (Gm : toBlock b + 1 < fromBlock m).
  { inversion S2 as [| ? ? _ Hb]; subst. rewrite Forall_forall in Hb.
    apply (Hb m Hm). }
  destruct (covered_within (a :: l1) b V1 S1 Vb) as [m' [Hm' Wb]].
  { intros x Hx. apply Hc. exists b. split; [now left | assumption]. }
  destruct Hm' as [<- | Hm'].
  - unfold within, valid in *. lia.
  - assert (Gm' : toBlock a + 1 < fromBlock m').
    { inversion S1 as [| ? ? _ Ha]; subst. rewrite Forall_forall in Ha.
      apply (Ha m' Hm'). }
    unfold within, valid in *. lia.
Qed.

(** Two lists of valid intervals, each ascending with gaps, that cover the
    same blocks are the same list. *)
Lemma gap_sorted_unique l1 : forall l2,
  Forall valid l1 -> Forall valid l2 ->
  StronglySorted gap l1 -> StronglySorted gap l2 ->
  (forall x, covers l1 x <-> covers l2 x) ->
  l1 = l2.
Proof.
  induction l1 as [| a l1 IH]; intros [| b l2] V1 V2 S1 S2 Hc; auto.
  - exfalso. inversion V2 as [| ? ? Vb _]; subst.
    apply (covers_nil (fromBlock b)). apply Hc.
    exists b. split; [now left | unfold inRange, valid in *; lia].
  - exfalso. inversion V1 as [| ? ? Va _]; subst.
    apply (covers_nil (fromBlock a)). apply Hc.
    exists a. split; [now left | unfold inRange, valid in *; lia].
  - assert (Wab : within a b) by (eapply head_within_head; eauto).
    assert (Wba : within b a).
    { eapply head_within_head; eauto. intros x. symmetry. apply Hc. }
    assert (E : a = b).
    { destruct a, b. unfold within in *; simpl in *. f_equal; lia. }
    subst b. f_equal.
    inversion V1; inversion V2; inversion S1; inversion S2; subst.
    apply IH; auto.
    intros x. split; intros Hx.
    + pose proof (covers_gap_tail _ _ _ S1 Hx) as Hg.
      assert (Hx' : covers (a :: l2) x).
      { apply Hc. apply covers_cons. now right. }
      apply covers_cons in Hx' as [Hin | Hx']; auto.
      unfold inRange in Hin. lia.
    + pose proof (covers_gap_tail _ _ _ S2 Hx) as Hg.
      assert (Hx' : covers (a :: l1) x).
      { apply Hc. apply covers_cons. now right. }
      apply covers_cons in Hx' as [Hin | Hx']; auto.
      unfold inRange in Hin. lia.
Qed.

Lemma mergeVals_perm l1 l2 :
  Forall valid l1 -> Permutation l1 l2 -> mergeVals l1 = mergeVals l2.
Proof.
  intros V1 HP.
  assert (V2 : Forall valid l2) by (eapply Permutation_Forall; eauto).
  destruct (mergeVals_spec l1 V1) as (C1 & W1 & G1).
  destruct (mergeVals_spec l2 V2) as (C2 & W2 & G2).
  apply gap_sorted_unique; auto.
  intros x. rewrite C1, C2. split; apply covers_perm; auto.
  now apply Permutation_sym.
Qed.

End Canonical.

(** X2.  The result of [mergeRanges] is the only way to write the blocks
    of its argument as valid intervals in ascending order with gaps: any
    such list [c] covering the same blocks as an array of valid ranges is
    the list the call returns. *)
Theorem mergeRanges_canonical (h : heap) (ranges : list loc)
    (c : list BlockRange) :
  Forall (fun l => valid (h l)) ranges ->
  Forall valid c -> StronglySorted gap c ->
  (forall b, covers c b <-> covers (deref h ranges) b) ->
  deref (mo_heap (mergeRanges h ranges)) (mo_result (mergeRanges h ranges))
  = c.
Proof.
  intros Hv Vc Sc Hc.
  destruct (mergeRanges_result_spec h ranges Hv) as (Hcov & Hval & Hgap).
  apply gap_sorted_unique; auto.
  intros x. rewrite Hcov. symmetry. apply Hc.
Qed.

Lemma mergeRanges_canonical_witness :
  let h := freshHeap [mkRange 7 10; mkRange 1 5; mkRange 6 6; mkRange 20 30] in
  deref (mo_heap (mergeRanges h [0; 1; 2; 3]%nat))
        (mo_result (mergeRanges h [0; 1; 2; 3]%nat))
  = [mkRange 1 10; mkRange 20 30].
Proof.
  apply (mergeRanges_canonical
           (freshHeap [mkRange 7 10; mkRange 1 5; mkRange 6 6; mkRange 20 30])
           [0; 1; 2; 3]%nat [mkRange 1 10; mkRange 20 30]).
  - repeat constructor; unfold valid; simpl; lia.
  - repeat constructor; unfold valid; simpl; lia.
  - repeat constructor; unfold gap; simpl; lia.
  - intros b. unfold deref, freshHeap. simpl.
    rewrite !covers_cons. unfold inRange; simpl.
    split; intros H; repeat destruct H as [H | H];
      try (now apply covers_nil in H); lia.
Defined.

(** X3.  The order of the argument does not matter: on the same store,
    two arrays of references to valid ranges that are permutations of
    each other are merged into the same list of ranges. *)
Theorem mergeRanges_order_irrelevant (h : heap) (ranges1 ranges2 : list loc) :
  Forall (fun l => valid (h l)) ranges1 ->
  Permutation ranges1 ranges2 ->
  deref (mo_heap (mergeRanges h ranges1)) (mo_result (mergeRanges h ranges1))
  = deref (mo_heap (mergeRanges h ranges2)) (mo_result (mergeRanges h ranges2)).
Proof.
  intros Hv HP.
  assert (Hv2 : Forall (fun l => valid (h l)) ranges2)
    by (eapply Permutation_Forall; eauto).
  rewrite !mergeRanges_values by assumption.
  apply mergeVals_perm.
  - unfold deref. now apply Forall_map.
  - unfold deref. now apply Permutation_map.
Qed.

Lemma mergeRanges_order_irrelevant_witness :
  let h := freshHeap [mkRange 7 10; mkRange 1 5; mkRange 6 6; mkRange 20 30] in
  Permutation [0; 1; 2; 3]%nat [1; 0; 2; 3]%nat /\
  deref (mo_heap (mergeRanges h [0; 1; 2; 3]%nat))
        (mo_result (mergeRanges h [0; 1; 2; 3]%nat))
  = deref (mo_heap (mergeRanges h [1; 0; 2; 3]%nat))
          (mo_result (mergeRanges h [1; 0; 2; 3]%nat)).
Proof.
  split; [apply perm_swap |].
  apply (mergeRanges_order_irrelevant
           (freshHeap [mkRange 7 10; mkRange 1 5; mkRange 6 6; mkRange 20 30])
           [0; 1; 2; 3]%nat [1; 0; 2; 3]%nat).
  - repeat constructor; unfold valid; simpl; lia.
  - apply perm_swap.
Defined.

(** ** mergeRanges: what the call does to its argument *)

Section SideEffects.

Lemma sortInsert_perm h a l : Permutation (a :: l) (sortInsert h a l).
Proof.
  induction l as [| b l IH]; simpl; auto.
  destruct (fromBlock (h a) <=? fromBlock (h b)); auto.
  eapply perm_trans; [apply perm_swap |]. now constructor.
Qed.

Lemma sortByFromBlock_perm h l : Permutation l (sortByFromBlock h l).
Proof.
  induction l as [| a l IH]; simpl; auto.
  eapply perm_trans; [| apply sortInsert_perm]. now constructor.
Qed.

(** The sweep leaves every [fromBlock] and only extends [toBlock]. *)
Lemma mergeSweep_grows rest : forall h cur merged l,
  fromBlock (fst (mergeSweep h cur rest merged) l) = fromBlock (h l) /\
  toBlock (h l) <= toBlock (fst (mergeSweep h cur rest merged) l).
Proof.
  induction rest as [| n rest IH]; intros h cur merged l; simpl.
  - split; [reflexivity | lia].
  - destruct (fromBlock (h n) <=? toBlock (h cur) + 1).
    + match goal with |- context [mergeSweep ?h1 cur rest merged] =>
        destruct (IH h1 cur merged l) as [Hf Ht] end.
      rewrite Hf. unfold heap_set in *.
      destruct (Nat.eqb l cur) eqn:E; simpl in *;
        [apply Nat.eqb_eq in E; subst l |]; split; try reflexivity; lia.
    + apply IH.
Qed.

Lemma mergeSweep_keeps_current rest : forall h cur merged,
  In cur (snd (mergeSweep h cur rest merged)).
Proof.
  induction rest as [| n rest IH]; intros h cur merged; simpl.
  - apply in_or_app. right. now left.
  - destruct (fromBlock (h n) <=? toBlock (h cur) + 1); [apply IH |].
    rewrite mergeSweep_acc. simpl.
    apply in_or_app. left. apply in_or_app. right. now left.
Qed.

(** An object is in the returned array or is left as it was. *)
Lemma mergeSweep_result_or_same rest : forall h cur l,
  In l (snd (mergeSweep h cur rest [])) \/
  fst (mergeSweep h cur rest []) l = h l.
Proof.
  induction rest as [| n rest IH]; intros h cur l; simpl.
  - now right.
  - destruct (fromBlock (h n) <=? toBlock (h cur) + 1).
    + destruct (Nat.eq_dec l cur) as [-> | Hne].
      * left. apply mergeSweep_keeps_current.
      * match goal with |- context [mergeSweep ?h1 cur rest []] =>
          destruct (IH h1 cur l) as [Hin | Hsame] end; [now left |].
        right. rewrite Hsame. now apply heap_set_other.
    + rewrite mergeSweep_acc. simpl.
      destruct (IH h n l) as [Hin | Hsame]; [left; now right | now right].
Qed.

Lemma mergeSweep_result_from rest : forall h cur l,
  In l (snd (mergeSweep h cur rest [])) -> In l (cur :: rest).
Proof.
  induction rest as [| n rest IH]; intros h cur l; simpl.
  - tauto.
  - destruct (fromBlock (h n) <=? toBlock (h cur) + 1).
    + intros H. apply IH in H. simpl in *. tauto.
    + rewrite mergeSweep_acc. simpl. intros [<- | H]; [now left |].
      apply IH in H. simpl in *. tauto.
Qed.

Lemma mergeSweep_result_length rest : forall h cur,
  (length (snd (mergeSweep h cur rest [])) <= S (length rest))%nat.
Proof.
  induction rest as [| n rest IH]; intros h cur; simpl.
  - lia.
  - destruct (fromBlock (h n) <=? toBlock (h cur) + 1).
    + specialize (IH (heap_set h cur
                        (mkRange (fromBlock (h cur))
                           (Z.max (toBlock (h cur)) (toBlock (h n))))) cur).
      lia.
    + rewrite mergeSweep_acc. simpl. specialize (IH h n). lia.
Qed.

Lemma sorted_same_keys (h h' : heap) l :
  (forall x, fromBlock (h' x) = fromBlock (h x)) ->
  StronglySorted fromLe (deref h l) -> StronglySorted fromLe (deref h' l).
Proof.
  intros Hk. unfold deref.
  induction l as [| a l IH]; simpl; intros Hs; [constructor |].
  inversion Hs as [| ? ? Hs' Ha]; subst. constructor; auto.
  rewrite Forall_forall in *. intros y Hy.
  apply in_map_iff in Hy as [x [<- Hx]].
  specialize (Ha (h x) (in_map h _ _ Hx)).
  unfold fromLe in *. rewrite !Hk. exact Ha.
Qed.

End SideEffects.

(** X4.  What a call of [mergeRanges] does to the caller's data, whatever
    the ranges are.  The argument array is left sorted by [fromBlock] (a
    permutation of what it was); no object changes its [fromBlock] and a
    [toBlock] can only grow; objects outside the array are untouched; an
    object of the array either is in the returned array or is exactly as
    it was; and the returned array holds references of the argument, no
    more of them than the argument had. *)
Theorem mergeRanges_side_effects (h : heap) (ranges : list loc) :
  let o := mergeRanges h ranges in
  Permutation ranges (mo_ranges o) /\
  StronglySorted fromLe (deref (mo_heap o) (mo_ranges o)) /\
  (forall l, fromBlock (mo_heap o l) = fromBlock (h l) /\
             toBlock (h l) <= toBlock (mo_heap o l)) /\
  (forall l, ~ In l ranges -> mo_heap o l = h l) /\
  (forall l, In l (mo_result o) \/ mo_heap o l = h l) /\
  (forall l, In l (mo_result o) -> In l ranges) /\
  (length (mo_result o) <= length ranges)%nat.
Proof.
  cbv zeta. unfold mergeRanges.
  destruct (Nat.leb_spec (length ranges) 1) as [Hlen | Hlen]; simpl.
  - repeat split; auto; try lia.
    destruct ranges as [| a [| b l]]; simpl in Hlen; try lia;
      repeat constructor.
  - pose proof (sortByFromBlock_perm h ranges) as HP.
    pose proof (sortVals_sorted (deref h ranges)) as Hs.
    rewrite <- sortByFromBlock_deref in Hs.
    destruct (sortByFromBlock h ranges) as [| c rest] eqn:E.
    + apply Permutation_sym, Permutation_nil in HP. subst. simpl in Hlen. lia.
    + rewrite (surjective_pairing (mergeSweep h c rest [])). simpl.
      assert (Hin : forall l, In l (c :: rest) <-> In l ranges).
      { intros l. split; apply Permutation_in; auto.
        now apply Permutation_sym. }
      split; [assumption |].
      split.
      { apply (sorted_same_keys h (fst (mergeSweep h c rest [])) (c :: rest));
          auto.
        intros x. apply mergeSweep_grows. }
      split; [intros l; apply mergeSweep_grows |].
      split.
      { intros l Hl. apply mergeSweep_frame. intros H. apply Hl.
        now apply Hin. }
      split; [intros l; apply mergeSweep_result_or_same |].
      split.
      { intros l Hl. apply Hin. eapply mergeSweep_result_from; eauto. }
      pose proof (mergeSweep_result_length rest h c) as Hl.
      apply Permutation_length in HP. simpl in HP. lia.
Qed.

(* ================================================================== *)
(** * Further properties of tag resolution and of fetchLogs *)
(* ================================================================== *)

(** X5.  How [toStrictFilter] reads block bounds.  Non-zero numbers are
    returned as they are, whatever the provider and the default; so a
    strict filter with non-zero bounds resolves to itself.  A bound given
    as the number 0 is read as if it were not given: [fromBlock: 0]
    resolves as ['earliest'] and [toBlock: 0] as the default tag.  The
    only failure is 'Invalid block'; with a provider that knows a block
    for every tag, every filter resolves, and keeps its key. *)
Theorem toStrictFilter_bounds (provider : Provider) (key : FilterKey)
    (defaultToBlock : BlockTag) :
  (forall a b, a <> 0 -> b <> 0 ->
     toStrictFilter provider
       (mkFilter key (Some (TagNumber a)) (Some (TagNumber b))) defaultToBlock
     = Ok (mkStrict key a b)) /\
  (forall sf, strictFrom sf <> 0 -> strictTo sf <> 0 ->
     toStrictFilter provider (asFilter sf) defaultToBlock = Ok sf) /\
  (forall t,
     toStrictFilter provider (mkFilter key (Some (TagNumber 0)) t)
       defaultToBlock
     = toStrictFilter provider (mkFilter key None t) defaultToBlock) /\
  (forall f,
     toStrictFilter provider (mkFilter key f (Some (TagNumber 0)))
       defaultToBlock
     = toStrictFilter provider (mkFilter key f None) defaultToBlock) /\
  (forall filter e,
     toStrictFilter provider filter defaultToBlock = Err e ->
     e = InvalidBlock) /\
  ((forall s, getBlock provider s <> None) ->
   forall filter, exists a b,
     toStrictFilter provider filter defaultToBlock
     = Ok (mkStrict (filterKey filter) a b)).
Proof.
  split; [| split; [| split; [| split; [| split]]]].
  - intros a b Ha Hb. unfold toStrictFilter, orElse, truthy; simpl.
    destruct (Z.eqb_spec a 0); [contradiction |].
    destruct (Z.eqb_spec b 0); [contradiction |]. reflexivity.
  - intros [k a b] Ha Hb. simpl in *.
    unfold toStrictFilter, asFilter, orElse, truthy; simpl.
    destruct (Z.eqb_spec a 0); [contradiction |].
    destruct (Z.eqb_spec b 0); [contradiction |]. reflexivity.
  - reflexivity.
  - reflexivity.
  - intros filter e. apply toStrictFilter_error.
  - intros Hall filter.
    assert (Htag : forall tag, exists n, tagToNumber provider tag = Ok n).
    { intros [n | s]; simpl; [eauto |].
      specialize (Hall s). destruct (getBlock provider s); [eauto | tauto]. }
    unfold toStrictFilter.
    destruct (Htag (orElse (fromTag filter) (TagString "earliest")))
      as [a ->].
    destruct (Htag (orElse (toTag filter) defaultToBlock)) as [b ->].
    eauto.
Qed.

Lemma toStrictFilter_bounds_witness :
  toStrictFilter demoProvider (demoFilter 5 9) (TagString "latest")
  = Ok (mkStrict demoKey 5 9) /\
  toStrictFilter demoProvider (demoFilter 0 0) (TagString "latest")
  = Ok (mkStrict demoKey 0 150).
Proof.
  split.
  - apply (toStrictFilter_bounds demoProvider demoKey (TagString "latest"));
      lia.
  - reflexivity.
Defined.

(** ** fetchLogs: the loop, one page at a time *)

Section FetchLoopSteps.

Variable provider : Provider.
Variable key : FilterKey.
Variable pageSize : Z.
Hypothesis pageSize_pos : 1 <= pageSize.
Variable cb : option BatchClosure.
Variable strictToBlock : Z.

Lemma bind_ext {A B} (m : M A) (k1 k2 : A -> M B) w :
  (forall a w', k1 a w' = k2 a w') -> bind m k1 w = bind m k2 w.
Proof.
  intros H. unfold bind. destruct (m w) as [[a | e] w']; auto.
Qed.

(** Any bound that is large enough gives the same fetchFrom provider key pageSize cb strictToBlock. *)
Lemma fetchLoop_fuel_irrelevant : forall fuel1 fuel2 fromBlockN acc w,
  (Z.to_nat (strictToBlock - fromBlockN + 1) <= fuel1)%nat ->
  (Z.to_nat (strictToBlock - fromBlockN + 1) <= fuel2)%nat ->
  fetchLoop fuel1 provider key pageSize cb strictToBlock fromBlockN acc w
  = fetchLoop fuel2 provider key pageSize cb strictToBlock fromBlockN acc w.
Proof.
  induction fuel1 as [| fuel1 IH]; intros fuel2 fromBlockN acc w H1 H2.
  - destruct fuel2; simpl;
      destruct (Z.leb_spec fromBlockN strictToBlock); auto; lia.
  - destruct fuel2 as [| fuel2]; simpl;
      destruct (Z.leb_spec fromBlockN strictToBlock); auto; try lia.
    apply bind_ext. intros thisBatchLogs w1.
    apply bind_ext. intros _ w2.
    apply IH; lia.
Qed.

Lemma run_done fromBlockN acc w :
  strictToBlock < fromBlockN -> fetchFrom provider key pageSize cb strictToBlock fromBlockN acc w = (Ok acc, w).
Proof.
  intros Hlt. unfold fetchFrom.
  replace (Z.to_nat (strictToBlock - fromBlockN + 1)) with 0%nat by lia.
  simpl. destruct (Z.leb_spec fromBlockN strictToBlock); [lia | reflexivity].
Qed.

Lemma run_page fromBlockN acc w :
  fromBlockN <= strictToBlock ->
  fetchFrom provider key pageSize cb strictToBlock fromBlockN acc w
  = (thisBatchLogs <-
       providerGetLogs provider key fromBlockN
         (Z.min (fromBlockN + pageSize - 1) strictToBlock) ;;
     callOptional cb (acc ++ thisBatchLogs) thisBatchLogs fromBlockN
       (Z.min (fromBlockN + pageSize - 1) strictToBlock) ;;
     fetchFrom provider key pageSize cb strictToBlock (Z.min (fromBlockN + pageSize - 1) strictToBlock + 1)
       (acc ++ thisBatchLogs)) w.
Proof.
  intros Hle. unfold fetchFrom.
  destruct (Z.to_nat (strictToBlock - fromBlockN + 1)) as [| fuel] eqn:E;
    [lia |].
  simpl. destruct (Z.leb_spec fromBlockN strictToBlock); [| lia].
  apply bind_ext. intros thisBatchLogs w1.
  apply bind_ext. intros _ w2.
  apply fetchLoop_fuel_irrelevant; lia.
Qed.

End FetchLoopSteps.

Section FetchLoopPrefix.

Variable provider : Provider.
Variable key : FilterKey.
Variable pageSize : Z.
Hypothesis pageSize_pos : 1 <= pageSize.
Variable cb : option FetchLogsBatchCallback.
Variable strictToBlock : Z.

Lemma pagesOf_head fromBlockN pg rest :
  pagesOf pageSize fromBlockN strictToBlock = pg :: rest ->
  fromBlockN <= strictToBlock /\
  pg = mkRange fromBlockN (Z.min (fromBlockN + pageSize - 1) strictToBlock) /\
  rest = pagesOf pageSize
           (Z.min (fromBlockN + pageSize - 1) strictToBlock + 1) strictToBlock.
Proof.
  intros E.
  destruct (Z.lt_ge_cases strictToBlock fromBlockN) as [Hlt | Hge].
  - rewrite pagesOf_done in E by lia. discriminate.
  - rewrite pagesOf_step in E by lia. injection E as <- <-. auto with zarith.
Qed.

Lemma callBatch_passes pg acc w :
  passes provider key cb pg ->
  callOptional (option_map callBatch cb) (acc ++ answer provider key pg)
    (answer provider key pg) (fromBlock pg) (toBlock pg) w
  = (Ok tt,
     appendTrace
       (if isSome cb
        then [EvBatch (acc ++ answer provider key pg) (answer provider key pg)
                (fromBlock pg) (toBlock pg)]
        else []) w).
Proof.
  intros [_ Hc]. unfold isSome. destruct cb as [c |]; simpl.
  - unfold callBatch, bind. rewrite emit_run, (Hc c eq_refl). reflexivity.
  - now rewrite appendTrace_nil.
Qed.

Lemma providerGetLogs_answer pg w :
  getLogs_upstream provider key (fromBlock pg) (toBlock pg) <> None ->
  providerGetLogs provider key (fromBlock pg) (toBlock pg) w
  = (Ok (answer provider key pg),
     appendTrace [EvGetLogs key (fromBlock pg) (toBlock pg)] w).
Proof.
  intros Hup. unfold providerGetLogs, bind, answer. rewrite emit_run.
  destruct (getLogs_upstream provider key (fromBlock pg) (toBlock pg));
    [reflexivity | contradiction].
Qed.

(** The fetchFrom provider key pageSize (option_map callBatch cb)
      strictToBlock over a prefix of pages that all pass. *)
Lemma run_prefix rest : forall pre fromBlockN acc w,
  pagesOf pageSize fromBlockN strictToBlock = pre ++ rest ->
  Forall (passes provider key cb) pre ->
  exists fromBlockN',
    pagesOf pageSize fromBlockN' strictToBlock = rest /\
    fetchFrom provider key pageSize (option_map callBatch cb)
      strictToBlock fromBlockN acc w
    = fetchFrom provider key pageSize (option_map callBatch cb)
      strictToBlock fromBlockN' (acc ++ flat_map (answer provider key) pre)
        (appendTrace (walkEvents provider key (isSome cb) acc pre) w).
Proof.
  induction pre as [| pg pre IH]; intros fromBlockN acc w Hpages Hpass.
  - exists fromBlockN. simpl. now rewrite app_nil_r, appendTrace_nil.
  - simpl in Hpages. apply pagesOf_head in Hpages as (Hle & Hpg & Hrest).
    apply Forall_cons_iff in Hpass as [Hp Hpass'].
    destruct (IH _ (acc ++ answer provider key pg)
                (appendTrace
                   (EvGetLogs key (fromBlock pg) (toBlock pg)
                    :: (if isSome cb
                        then [EvBatch (acc ++ answer provider key pg)
                                (answer provider key pg) (fromBlock pg)
                                (toBlock pg)]
                        else [])) w)
                (eq_sym Hrest) Hpass') as [f' [Hf' Hrun]].
    exists f'. split; [assumption |].
    rewrite run_page by assumption.
    assert (Ef : fromBlockN = fromBlock pg) by (subst pg; reflexivity).
    assert (Et : Z.min (fromBlockN + pageSize - 1) strictToBlock = toBlock pg)
      by (subst pg; reflexivity).
    rewrite Et, Ef.
    unfold bind at 1. rewrite providerGetLogs_answer by apply Hp.
    unfold bind at 1. rewrite callBatch_passes by assumption.
    rewrite appendTrace_app. simpl app.
    rewrite Et in Hrun. rewrite Hrun.
    simpl. rewrite <- !app_assoc, appendTrace_app. simpl. reflexivity.
Qed.

End FetchLoopPrefix.

Section FetchLogsOutcomes.

Variable provider : Provider.
Variable filter : Filter.
Variable pageSize : Z.
Hypothesis pageSize_pos : 1 <= pageSize.
Variable cb : option FetchLogsBatchCallback.
Variable sf : StrictFilter.
Hypothesis resolves :
  toStrictFilter provider filter (TagString "latest") = Ok sf.

Lemma fetchLogs_fetchFrom w :
  fetchLogs provider filter pageSize (option_map callBatch cb) w
  = fetchFrom provider (filterKey filter) pageSize (option_map callBatch cb)
      (strictTo sf) (strictFrom sf) [] w.
Proof.
  unfold fetchLogs, fetchFrom.
  destruct (Z.ltb_spec pageSize 1); [lia |].
  rewrite resolves. reflexivity.
Qed.

Lemma walkEvents_app hasCb : forall l1 l2 acc,
  walkEvents provider (filterKey filter) hasCb acc (l1 ++ l2)
  = walkEvents provider (filterKey filter) hasCb acc l1
    ++ walkEvents provider (filterKey filter) hasCb
         (acc ++ flat_map (answer provider (filterKey filter)) l1) l2.
Proof.
  induction l1 as [| pg l1 IH]; intros l2 acc; simpl.
  - now rewrite app_nil_r.
  - rewrite IH, <- !app_assoc. reflexivity.
Qed.

Lemma requested_walkEvents hasCb : forall pages acc,
  requested (walkEvents provider (filterKey filter) hasCb acc pages) = pages.
Proof.
  induction pages as [| [a b] pages IH]; intros acc; simpl; auto.
  destruct hasCb; simpl; now rewrite IH.
Qed.

End FetchLogsOutcomes.

(** X6.  A rejected request aborts the walk.  When the pages before [pg]
    pass (the provider answers and the callback returns) and the provider
    rejects the request for [pg], [fetchLogs] fails with the upstream
    failure; the trace holds the events of the pages before and the
    rejected request, no callback for [pg] and no later request; the
    records fetched so far are not returned. *)
Theorem fetchLogs_stops_at_rejected_page (provider : Provider)
    (filter : Filter) (pageSize : Z)
    (batchCallback : option FetchLogsBatchCallback) (sf : StrictFilter)
    (pre : list BlockRange) (pg : BlockRange) (post : list BlockRange)
    (w : World) :
  1 <= pageSize ->
  toStrictFilter provider filter (TagString "latest") = Ok sf ->
  pagesOf pageSize (strictFrom sf) (strictTo sf) = pre ++ pg :: post ->
  Forall (passes provider (filterKey filter) batchCallback) pre ->
  getLogs_upstream provider (filterKey filter) (fromBlock pg) (toBlock pg)
  = None ->
  fetchLogs provider filter pageSize (option_map callBatch batchCallback) w
  = (Err UpstreamFetchFailure,
     appendTrace
       (walkEvents provider (filterKey filter) (isSome batchCallback) [] pre
        ++ [EvGetLogs (filterKey filter) (fromBlock pg) (toBlock pg)]) w).
Proof.
  intros Hps Hsf Hpages Hpass Hrej.
  rewrite (fetchLogs_fetchFrom provider filter pageSize Hps batchCallback sf Hsf).
  destruct (run_prefix provider (filterKey filter) pageSize Hps batchCallback
              (strictTo sf) (pg :: post) pre (strictFrom sf) [] w Hpages Hpass)
    as [f' [Hf' Hrun]].
  rewrite Hrun.
  apply pagesOf_head in Hf' as (Hle & Hpg & _); [| assumption].
  rewrite run_page by assumption.
  assert (Ef : f' = fromBlock pg) by (subst pg; reflexivity).
  assert (Et : Z.min (f' + pageSize - 1) (strictTo sf) = toBlock pg)
    by (subst pg; reflexivity).
  rewrite Et, Ef. unfold bind at 1.
  unfold providerGetLogs, bind. rewrite emit_run, Hrej. simpl.
  now rewrite appendTrace_app.
Qed.

Lemma fetchLogs_stops_at_rejected_page_witness :
  let provider :=
    mkProvider (getBlock demoProvider)
      (fun key a b => if a =? 41 then None
                      else getLogs_upstream demoProvider key a b)
      1 (fun key => key) (fun s => s) in
  pagesOf 40 1 100 = [mkRange 1 40] ++ mkRange 41 80 :: [mkRange 81 100] /\
  fetchLogs provider (demoFilter 1 100) 40 None emptyWorld
  = (Err UpstreamFetchFailure,
     appendTrace [EvGetLogs demoKey 1 40; EvGetLogs demoKey 41 80] emptyWorld).
Proof.
  cbv zeta. split; [reflexivity |].
  apply (fetchLogs_stops_at_rejected_page
           (mkProvider (getBlock demoProvider)
              (fun key a b => if a =? 41 then None
                              else getLogs_upstream demoProvider key a b)
              1 (fun key => key) (fun s => s))
           (demoFilter 1 100) 40 None (mkStrict demoKey 1 100)
           [mkRange 1 40] (mkRange 41 80) [mkRange 81 100] emptyWorld).
  - lia.
  - reflexivity.
  - reflexivity.
  - repeat constructor; simpl; discriminate.
  - reflexivity.
Defined.

(** X7.  A callback that throws aborts the walk after its page.  When the
    pages before [pg] pass, the provider answers [pg] and the callback
    throws on [pg], [fetchLogs] fails with the callback's failure; the
    trace ends with the request for [pg] and the call of the callback for
    it, and no later page is requested. *)
Theorem fetchLogs_stops_at_throwing_callback (provider : Provider)
    (filter : Filter) (pageSize : Z) (c : FetchLogsBatchCallback)
    (sf : StrictFilter) (pre : list BlockRange) (pg : BlockRange)
    (post : list BlockRange) (w : World) :
  1 <= pageSize ->
  toStrictFilter provider filter (TagString "latest") = Ok sf ->
  pagesOf pageSize (strictFrom sf) (strictTo sf) = pre ++ pg :: post ->
  Forall (passes provider (filterKey filter) (Some c)) pre ->
  getLogs_upstream provider (filterKey filter) (fromBlock pg) (toBlock pg)
  <> None ->
  (forall a b, c a b (fromBlock pg) (toBlock pg) = false) ->
  fetchLogs provider filter pageSize (Some (callBatch c)) w
  = (Err CallbackFailure,
     appendTrace
       (walkEvents provider (filterKey filter) true [] (pre ++ [pg])) w).
Proof.
  intros Hps Hsf Hpages Hpass Hans Hthrow.
  change (Some (callBatch c)) with (option_map callBatch (Some c)).
  rewrite (fetchLogs_fetchFrom provider filter pageSize Hps (Some c) sf Hsf).
  destruct (run_prefix provider (filterKey filter) pageSize Hps (Some c)
              (strictTo sf) (pg :: post) pre (strictFrom sf) [] w Hpages Hpass)
    as [f' [Hf' Hrun]].
  rewrite Hrun.
  apply pagesOf_head in Hf' as (Hle & Hpg & _); [| assumption].
  rewrite run_page by assumption.
  assert (Ef : f' = fromBlock pg) by (subst pg; reflexivity).
  assert (Et : Z.min (f' + pageSize - 1) (strictTo sf) = toBlock pg)
    by (subst pg; reflexivity).
  rewrite Et, Ef. unfold bind at 1.
  rewrite providerGetLogs_answer by assumption.
  unfold bind at 1. simpl callOptional.
  unfold callBatch, bind. rewrite emit_run, Hthrow. simpl.
  rewrite !appendTrace_app, walkEvents_app. simpl.
  rewrite <- ?app_assoc. reflexivity.
Qed.

Lemma fetchLogs_stops_at_throwing_callback_witness :
  let c : FetchLogsBatchCallback := fun _ _ f _ => negb (f =? 41) in
  fst (fetchLogs demoProvider (demoFilter 1 100) 40 (Some (callBatch c))
         emptyWorld) = Err CallbackFailure /\
  requested
    (trace (snd (fetchLogs demoProvider (demoFilter 1 100) 40
                   (Some (callBatch c)) emptyWorld)))
  = [mkRange 1 40; mkRange 41 80].
Proof.
  cbv zeta.
  rewrite (fetchLogs_stops_at_throwing_callback demoProvider
             (demoFilter 1 100) 40 (fun _ _ f _ => negb (f =? 41))
             (mkStrict demoKey 1 100) [mkRange 1 40] (mkRange 41 80)
             [mkRange 81 100] emptyWorld).
  - split; reflexivity.
  - lia.
  - reflexivity.
  - reflexivity.
  - repeat constructor; simpl; try discriminate.
    intros c Hc. injection Hc as <-. reflexivity.
  - simpl. discriminate.
  - reflexivity.
Defined.

(** ** fetchLogs: the requests tile the range *)

Section Tiling.

Variable pageSize : Z.
Hypothesis pageSize_pos : 1 <= pageSize.
Variable toBlockN : Z.

Lemma walk_tiles f pages :
  Walk pageSize toBlockN f pages ->
  (forall b, covers pages b <-> f <= b <= toBlockN) /\
  Forall (fun p => valid p /\ f <= fromBlock p /\ toBlock p <= toBlockN /\
                   blocksIn p <= pageSize) pages /\
  StronglySorted before pages.
Proof.
  induction 1 as [f Hlt | f rest Hle HW IH].
  - split; [| split]; constructor.
    + intros Hc. now apply covers_nil in Hc.
    + lia.
  - destruct IH as (Hcov & Hall & Hsort).
    set (thisTo := Z.min (f + pageSize - 1) toBlockN) in *.
    split; [| split].
    + intros b. rewrite covers_cons, Hcov. unfold inRange; simpl.
      unfold thisTo. lia.
    + constructor.
      * unfold valid, blocksIn; simpl. unfold thisTo. lia.
      * rewrite Forall_forall in *. intros p Hp.
        specialize (Hall p Hp). unfold thisTo, valid in *. lia.
    + constructor; auto. rewrite Forall_forall in *.
      intros p Hp. specialize (Hall p Hp). unfold before; simpl. lia.
Qed.

End Tiling.

(** X8.  The requests of a walk tile the resolved range.  When every page
    passes, the requests [fetchLogs] adds to the trace are for valid
    ranges in ascending order, each starting after the previous one ends,
    none spanning more than [pageSize] blocks, and together they cover
    exactly the blocks [fromBlock] to [toBlock]: every block is requested
    once. *)
Theorem fetchLogs_requests_tile_range (provider : Provider) (filter : Filter)
    (pageSize : Z) (batchCallback : option FetchLogsBatchCallback)
    (sf : StrictFilter) (w : World) :
  1 <= pageSize ->
  toStrictFilter provider filter (TagString "latest") = Ok sf ->
  Forall (passes provider (filterKey filter) batchCallback)
    (pagesOf pageSize (strictFrom sf) (strictTo sf)) ->
  exists evs,
    trace (snd (fetchLogs provider filter pageSize
                  (option_map callBatch batchCallback) w))
    = trace w ++ evs /\
    (forall b, covers (requested evs) b <->
               strictFrom sf <= b <= strictTo sf) /\
    StronglySorted before (requested evs) /\
    Forall (fun r => valid r /\ blocksIn r <= pageSize) (requested evs).
Proof.
  intros Hps Hsf Hpass.
  rewrite (fetchLogs_fetchFrom provider filter pageSize Hps batchCallback sf
             Hsf).
  destruct (run_prefix provider (filterKey filter) pageSize Hps batchCallback
              (strictTo sf) [] (pagesOf pageSize (strictFrom sf) (strictTo sf))
              (strictFrom sf) [] w) as [f' [Hf' Hrun]];
    [now rewrite app_nil_r | assumption |].
  rewrite Hrun.
  assert (Hdone : strictTo sf < f').
  { destruct (Z.lt_ge_cases (strictTo sf) f'); auto.
    rewrite pagesOf_step in Hf' by lia. discriminate. }
  rewrite run_done by assumption. simpl.
  eexists. split; [reflexivity |].
  rewrite requested_walkEvents.
  destruct (walk_tiles pageSize Hps (strictTo sf) (strictFrom sf) _
              (pagesOf_walk pageSize Hps (strictTo sf) _ (strictFrom sf)
                 (le_n _))) as (Hcov & Hall & Hsort).
  split; [assumption |]. split; [assumption |].
  rewrite Forall_forall in *. intros r Hr. specialize (Hall r Hr). tauto.
Qed.

Lemma fetchLogs_requests_tile_range_witness :
  exists evs,
    trace (snd (fetchLogs demoProvider (demoFilter 1 100) 40 None emptyWorld))
    = trace emptyWorld ++ evs /\
    (forall b, covers (requested evs) b <-> 1 <= b <= 100) /\
    StronglySorted before (requested evs) /\
    Forall (fun r => valid r /\ blocksIn r <= 40) (requested evs).
Proof.
  apply (fetchLogs_requests_tile_range demoProvider (demoFilter 1 100) 40 None
           (mkStrict demoKey 1 100) emptyWorld).
  - lia.
  - reflexivity.
  - repeat constructor; simpl; discriminate.
Defined.

(** X9.  With a provider that answers each request with the records of the
    requested blocks in block/index order, the records [fetchLogs]
    returns all lie in the resolved range and are in block/index order
    over the whole result. *)
Theorem fetchLogs_result_ordered (provider : Provider) (filter : Filter)
    (pageSize : Z) (batchCallback : option FetchLogsBatchCallback)
    (sf : StrictFilter) (w : World) :
  1 <= pageSize ->
  toStrictFilter provider filter (TagString "latest") = Ok sf ->
  Forall (passes provider (filterKey filter) batchCallback)
    (pagesOf pageSize (strictFrom sf) (strictTo sf)) ->
  ordered provider (filterKey filter) ->
  exists logs_,
    fst (fetchLogs provider filter pageSize
           (option_map callBatch batchCallback) w) = Ok logs_ /\
    Forall (fun log => strictFrom sf <= blockNumber log <= strictTo sf) logs_ /\
    StronglySorted logLe logs_.
Proof.
  intros Hps Hsf Hpass Hord.
  rewrite (fetchLogs_fetchFrom provider filter pageSize Hps batchCallback sf
             Hsf).
  destruct (run_prefix provider (filterKey filter) pageSize Hps batchCallback
              (strictTo sf) [] (pagesOf pageSize (strictFrom sf) (strictTo sf))
              (strictFrom sf) [] w) as [f' [Hf' Hrun]];
    [now rewrite app_nil_r | assumption |].
  rewrite Hrun.
  assert (Hdone : strictTo sf < f').
  { destruct (Z.lt_ge_cases (strictTo sf) f'); auto.
    rewrite pagesOf_step in Hf' by lia. discriminate. }
  rewrite run_done by assumption. simpl.
  eexists. split; [reflexivity |].
  destruct (walk_tiles pageSize Hps (strictTo sf) (strictFrom sf) _
              (pagesOf_walk pageSize Hps (strictTo sf) _ (strictFrom sf)
                 (le_n _))) as (_ & Hall & Hsort).
  assert (Hans : forall pg,
            In pg (pagesOf pageSize (strictFrom sf) (strictTo sf)) ->
            Forall (fun log => fromBlock pg <= blockNumber log <= toBlock pg)
              (answer provider (filterKey filter) pg) /\
            StronglySorted logLe (answer provider (filterKey filter) pg)).
  { intros pg Hpg. unfold answer.
    destruct (getLogs_upstream provider (filterKey filter) (fromBlock pg)
                (toBlock pg)) as [l |] eqn:E.
    - now apply Hord.
    - split; constructor. }
  split.
  - apply Forall_forall. intros log Hlog.
    apply in_flat_map in Hlog as [pg [Hpg Hlog]].
    destruct (Hans pg Hpg) as [Hin _].
    rewrite Forall_forall in Hin, Hall.
    specialize (Hin log Hlog). specialize (Hall pg Hpg). lia.
  - apply sorted_flat_map with (Q := before).
    + exact Hsort.
    + intros pg Hpg. now apply Hans.
    + intros p q a b Hpq Ha Hb. left.
      assert (Hp : In p (pagesOf pageSize (strictFrom sf) (strictTo sf)) ->
                   blockNumber a <= toBlock p).
      { intros Hp. destruct (Hans p Hp) as [Hin _].
        rewrite Forall_forall in Hin. apply (Hin a Ha). }
      unfold answer in Ha, Hb.
      destruct (getLogs_upstream provider (filterKey filter) (fromBlock p)
                  (toBlock p)) as [lp |] eqn:Ep; [| destruct Ha].
      destruct (getLogs_upstream provider (filterKey filter) (fromBlock q)
                  (toBlock q)) as [lq |] eqn:Eq; [| destruct Hb].
      destruct (Hord _ _ _ Ep) as [Hinp _].
      destruct (Hord _ _ _ Eq) as [Hinq _].
      rewrite Forall_forall in Hinp, Hinq.
      specialize (Hinp a Ha). specialize (Hinq b Hb).
      unfold before in Hpq. lia.
Qed.

Lemma sorted_filter {A} (R : A -> A -> Prop) (f : A -> bool) l :
  StronglySorted R l -> StronglySorted R (filter f l).
Proof.
  induction 1 as [| a l Hs IH Ha]; simpl; [constructor |].
  destruct (f a); auto. constructor; auto.
  rewrite Forall_forall in *. intros x Hx.
  apply filter_In in Hx as [Hx _]. auto.
Qed.

Lemma chain_ordered (chain : list Log) a b l :
  StronglySorted logLe chain ->
  Some (filter (fun log => (a <=? blockNumber log) && (blockNumber log <=? b))
          chain) = Some l ->
  Forall (fun log => a <= blockNumber log <= b) l /\
  StronglySorted logLe l.
Proof.
  intros Hs E. injection E as <-. split.
  - apply Forall_forall. intros log Hlog.
    apply filter_In in Hlog as [_ Hlog].
    apply andb_true_iff in Hlog as [H1 H2]. lia.
  - now apply sorted_filter.
Qed.

Lemma demoProvider_ordered : ordered demoProvider demoKey.
Proof.
  intros a b l E. apply (chain_ordered demoChain); [| exact E].
  repeat constructor; unfold logLe; simpl; lia.
Qed.

Lemma fetchLogs_result_ordered_witness :
  exists logs_,
    fst (fetchLogs demoProvider (demoFilter 1 150) 40 None emptyWorld)
    = Ok logs_ /\
    Forall (fun log => 1 <= blockNumber log <= 150) logs_ /\
    StronglySorted logLe logs_.
Proof.
  apply (fetchLogs_result_ordered demoProvider (demoFilter 1 150) 40 None
           (mkStrict demoKey 1 150) emptyWorld).
  - lia.
  - reflexivity.
  - repeat constructor; simpl; discriminate.
  - apply demoProvider_ordered.
Defined.

(* ================================================================== *)
(** * Further properties of the store and of the coordinator *)
(* ================================================================== *)

(** ** Relations every step keeps *)

Section Always.

Variable R : Db -> Db -> Prop.
Hypothesis R_refl : forall d, R d d.
Hypothesis R_trans : forall d1 d2 d3, R d1 d2 -> R d2 d3 -> R d1 d3.

Lemma always_ret {A} (a : A) : always R (ret a).
Proof. intros w; simpl; auto. Qed.

Lemma always_throw {A} e : always R (@throw A e).
Proof. intros w; simpl; auto. Qed.

Lemma always_lift {A} (r : Result A) : always R (lift r).
Proof. destruct r; [apply always_ret | apply always_throw]. Qed.

Lemma always_emit ev : always R (emit ev).
Proof. intros w; simpl; auto. Qed.

Lemma always_setScanned n : always R (setScanned n).
Proof. intros w; simpl; auto. Qed.

Lemma always_getScanned : always R getScanned.
Proof. intros w; simpl; auto. Qed.

Lemma always_bind {A B} (m : M A) (k : A -> M B) :
  always R m -> (forall a, always R (k a)) -> always R (bind m k).
Proof.
  intros Hm Hk w. unfold bind. specialize (Hm w).
  destruct (m w) as [[a | e] w']; simpl in *; auto.
  eapply R_trans; [exact Hm | apply Hk].
Qed.

Lemma always_bind_ret {A B} (a : A) (k : A -> M B) :
  always R (k a) -> always R (bind (ret a) k).
Proof. intros H w. apply H. Qed.

Lemma always_statement {A} (run : Db -> A * Db) :
  (forall d, R d (snd (run d))) -> always R (statement run).
Proof.
  intros Hrun w. unfold statement.
  destruct (faulty w (statements w)); simpl; auto.
  specialize (Hrun (db w)). destruct (run (db w)); simpl in *; auto.
Qed.

Lemma always_transaction {A} (body : M A) :
  always R body -> always R (transaction body).
Proof.
  intros Hb w. unfold transaction. specialize (Hb w).
  destruct (body w) as [[a | e] w']; simpl in *; auto.
Qed.

Lemma always_forEach {A} (xs : list A) (body : A -> M unit) :
  (forall x, In x xs -> always R (body x)) -> always R (forEach xs body).
Proof.
  induction xs as [| x xs IH]; intros Hb; simpl.
  - apply always_ret.
  - apply always_bind; [apply Hb; now left |].
    intros _. apply IH. intros; apply Hb; now right.
Qed.

Lemma always_callBatch cb a b f t : always R (callBatch cb a b f t).
Proof.
  unfold callBatch. apply always_bind; [apply always_emit |].
  intros _. destruct (cb a b f t); [apply always_ret | apply always_throw].
Qed.

Lemma always_progress cb missingRanges i blocksToScan a b f t :
  always R (progress cb missingRanges i blocksToScan a b f t).
Proof.
  unfold progress. apply always_bind; [apply always_getScanned |].
  intros total. apply always_bind; [apply always_setScanned |].
  intros _. destruct cb as [c |]; [| apply always_ret].
  unfold callCacheBatch. apply always_bind; [apply always_emit |].
  intros _. destruct (c a b f t missingRanges i _ blocksToScan);
    [apply always_ret | apply always_throw].
Qed.

Lemma always_providerGetLogs provider key a b :
  always R (providerGetLogs provider key a b).
Proof.
  unfold providerGetLogs. apply always_bind; [apply always_emit |].
  intros _. destruct (getLogs_upstream provider key a b);
    [apply always_ret | apply always_throw].
Qed.

(** The page loop calls its closure on pages [f <= t] only. *)
Lemma always_fetchLoop provider key pageSize cb strictToBlock fuel :
  1 <= pageSize ->
  (forall c, cb = Some c ->
     forall a b f t, f <= t -> always R (c a b f t)) ->
  forall fromBlockN logs_,
    always R (fetchLoop fuel provider key pageSize cb strictToBlock
                fromBlockN logs_).
Proof.
  intros Hps Hcb. induction fuel as [| fuel IH]; intros fromBlockN logs_;
    simpl; destruct (Z.leb_spec fromBlockN strictToBlock);
    try apply always_ret; try apply always_throw.
  apply always_bind; [apply always_providerGetLogs |].
  intros thisBatchLogs. apply always_bind; [| intros _; apply IH].
  unfold callOptional. destruct cb as [c |]; [| apply always_ret].
  apply (Hcb c eq_refl). lia.
Qed.

Lemma always_fetchLogs provider filter pageSize cb :
  (forall c, cb = Some c ->
     forall a b f t, f <= t -> always R (c a b f t)) ->
  always R (fetchLogs provider filter pageSize cb).
Proof.
  intros Hcb. unfold fetchLogs.
  destruct (Z.ltb_spec pageSize 1); [apply always_throw |].
  apply always_bind; [apply always_lift |].
  intros sf. apply always_fetchLoop; auto.
Qed.

End Always.

Lemma toStrictFilter_key provider filter d sf :
  toStrictFilter provider filter d = Ok sf -> strictKey sf = filterKey filter.
Proof.
  unfold toStrictFilter.
  destruct (tagToNumber provider _); [| discriminate].
  destruct (tagToNumber provider _); [| discriminate].
  intros H; injection H as <-. reflexivity.
Qed.

(** The coordinator, for the filter identity [getFilterId provider key]:
    what is left to show is the closure of a page and the tidy. *)
Section AlwaysCoordinator.

Variable R : Db -> Db -> Prop.
Hypothesis R_refl : forall d, R d d.
Hypothesis R_trans : forall d1 d2 d3, R d1 d2 -> R d2 d3 -> R d1 d3.
Variable provider : Provider.
Variable key : FilterKey.
Hypothesis R_cachePage : forall cb a b f t,
  f <= t ->
  (forall c, cb = Some c -> always R (c a b f t)) ->
  always R (cachePage (getFilterId provider key) cb a b f t).
Hypothesis R_tidy : always R (_tidyUpRanges (getFilterId provider key)).

Ltac side := try exact R_trans; try exact R_refl.

Lemma always_fetchRangeToCache strictFilter pageSize cb :
  filterKey strictFilter = key ->
  (forall c, cb = Some c -> forall a b f t, always R (c a b f t)) ->
  always R (_fetchRangeToCache provider strictFilter pageSize cb).
Proof.
  intros Hkey Hcb. unfold _fetchRangeToCache. rewrite Hkey.
  apply always_bind; side; [| intros _; apply always_ret; side].
  apply always_fetchLogs; side.
  intros c Hc a b f t Hft. injection Hc as <-.
  apply R_cachePage; auto.
Qed.

Lemma always_fetchMissing filter pageSize cb missingRanges blocksToScan todo :
  filterKey filter = key ->
  forall i,
    always R (fetchMissing provider filter pageSize cb missingRanges
                blocksToScan i todo).
Proof.
  intros Hkey. induction todo as [| range todo IH]; intros i; simpl.
  - apply always_ret; side.
  - apply always_bind; side; [| intros _; apply IH].
    apply always_fetchRangeToCache; auto.
    intros c Hc. injection Hc as <-. intros. apply always_progress; side.
Qed.

Lemma always_fetchLogsToCache filter pageSize cb :
  filterKey filter = key ->
  always R (fetchLogsToCache provider filter pageSize cb).
Proof.
  intros Hkey. unfold fetchLogsToCache. rewrite Hkey.
  destruct (pageSize <? 1); [apply always_throw; side |].
  apply always_bind; side; [apply always_lift; side |]. intros sf.
  apply always_bind; side; [apply always_lift; side |].
  intros lastFinalizedBlock.
  destruct (strictTo sf >? lastFinalizedBlock); [apply always_throw; side |].
  apply always_bind; side; [exact R_tidy |]. intros _.
  apply always_bind; side.
  { unfold _getMissingRanges, _selectRanges. apply always_bind; side.
    - apply always_statement; side.
    - intros have. apply always_ret; side. }
  intros missingRanges.
  apply always_bind; side; [apply always_setScanned; side |]. intros _.
  apply always_bind; side; [now apply always_fetchMissing |].
  intros _. exact R_tidy.
Qed.

Lemma always_readLogsFromCache filter :
  always R (readLogsFromCache provider filter).
Proof.
  unfold readLogsFromCache.
  apply always_bind; side; [apply always_lift; side |]. intros sf.
  apply always_bind; side; [| intros rows; apply always_ret; side].
  unfold _selectLogs. apply always_statement; side.
Qed.

Lemma always_getLogs filter pageSize cb1 cb2 :
  filterKey filter = key ->
  always R (getLogs provider filter pageSize cb1 cb2).
Proof.
  intros Hkey. unfold getLogs.
  apply always_bind; side.
  { destruct (getBlock provider "finalized");
      [apply always_ret; side | apply always_throw; side]. }
  intros lastFinalizedBlock.
  destruct (toStrictFilter provider filter (TagString "latest"))
    as [sf | e] eqn:Hsf; cbn [lift].
  2:{ intros w. simpl. apply R_refl. }
  assert (Hk : strictKey sf = key)
    by (rewrite <- Hkey; eapply toStrictFilter_key; eauto).
  apply always_bind_ret.
  apply always_bind; side.
  { apply always_fetchLogsToCache. exact Hk. }
  intros _.
  apply always_bind; side; [apply always_readLogsFromCache |]. intros logs_.
  destruct (strictTo sf >? lastFinalizedBlock); [| apply always_ret; side].
  apply always_bind; side; [| intros l; apply always_ret; side].
  apply always_fetchLogs; side.
  intros c Hc a b f t _. destruct cb2 as [c2 |]; [| discriminate].
  injection Hc as <-. apply always_callBatch; side.
Qed.

End AlwaysCoordinator.

(** ** Cached records are only ever added *)

Section Extends.

Variable filterId_ : string.

Lemma extends_refl d : extends filterId_ d d.
Proof.
  split; [| reflexivity]. exists []. split; [now rewrite app_nil_r | constructor].
Qed.

Lemma extends_trans d1 d2 d3 :
  extends filterId_ d1 d2 -> extends filterId_ d2 d3 ->
  extends filterId_ d1 d3.
Proof.
  intros [[a1 [H1 F1]] O1] [[a2 [H2 F2]] O2]. split; [| congruence].
  exists (a1 ++ a2). split.
  - rewrite H2, H1. now rewrite app_assoc.
  - apply Forall_app. auto.
Qed.

Lemma extends_insertOrIgnore log d :
  extends filterId_ d
    (insertOrIgnore (mkEntry filterId_ (blockNumber log) (index log) log) d).
Proof.
  unfold insertOrIgnore.
  destruct (existsb _ (logs d)); [apply extends_refl |].
  split; [| reflexivity]. simpl. eexists. split; [reflexivity |].
  repeat constructor.
Qed.

Lemma extends_insertRange a b d :
  extends filterId_ d
    (mkDb (logs d) (fetched_ranges d ++ [mkRow filterId_ a b])).
Proof.
  split.
  - exists []. simpl. split; [now rewrite app_nil_r | constructor].
  - unfold otherRanges. simpl. rewrite filter_app. simpl.
    rewrite String.eqb_refl. simpl. now rewrite app_nil_r.
Qed.

Lemma filter_twice {A} (f : A -> bool) l : filter f (filter f l) = filter f l.
Proof.
  induction l as [| a l IH]; simpl; auto.
  destruct (f a) eqn:E; simpl; [rewrite E; now f_equal | assumption].
Qed.

Lemma extends_deleteRanges d : extends filterId_ d (deleteRanges filterId_ d).
Proof.
  split.
  - exists []. simpl. split; [now rewrite app_nil_r | constructor].
  - unfold otherRanges, deleteRanges. simpl. apply filter_twice.
Qed.

Lemma extends_cachePage cb a b f t :
  (forall c, cb = Some c -> always (extends filterId_) (c a b f t)) ->
  always (extends filterId_) (cachePage filterId_ cb a b f t).
Proof.
  intros Hcb. unfold cachePage.
  apply always_bind; [apply extends_trans | |].
  - apply always_transaction; [apply extends_refl |].
    apply always_bind; [apply extends_trans | |].
    + unfold _insertLogs. apply always_forEach;
        [apply extends_refl | apply extends_trans |].
      intros log _. apply always_statement; [apply extends_refl |].
      intros d. apply extends_insertOrIgnore.
    + intros _. unfold _insertRange.
      apply always_statement; [apply extends_refl |].
      intros d. apply extends_insertRange.
  - intros _. unfold callOptional. destruct cb as [c |].
    + now apply Hcb.
    + apply always_ret. apply extends_refl.
Qed.

Lemma extends_tidyUpRanges :
  always (extends filterId_) (_tidyUpRanges filterId_).
Proof.
  unfold _tidyUpRanges.
  apply always_transaction; [apply extends_refl |].
  apply always_bind; [apply extends_trans | |].
  - unfold _selectRanges. apply always_statement; [apply extends_refl |].
    intros d. apply extends_refl.
  - intros ranges. destruct ranges as [| r ranges].
    + apply always_ret. apply extends_refl.
    + unfold _replaceRanges. apply always_bind; [apply extends_trans | |].
      * apply always_statement; [apply extends_refl |].
        intros d. apply extends_deleteRanges.
      * intros _. apply always_forEach;
          [apply extends_refl | apply extends_trans |].
        intros range _. unfold _insertRange.
        apply always_statement; [apply extends_refl |].
        intros d. apply extends_insertRange.
Qed.

End Extends.

(** X10.  Whatever fails (statements, requests, callbacks), [getLogs] and
    [fetchLogsToCache] only add to the table of logs: the rows it held are
    still there, in place, followed by new rows that all belong to the
    filter of the call; and the stored ranges of every other filter are
    exactly as they were. *)
Theorem cache_is_only_extended (provider : Provider) (filter : Filter)
    (pageSize : Z)
    (finalizedLogsCallback : option FetchLogsToCacheBatchCallback)
    (unfinalizedLogsCallback : option FetchLogsBatchCallback) (w : World) :
  let filterId_ := getFilterId provider (filterKey filter) in
  extends filterId_ (db w)
    (db (snd (getLogs provider filter pageSize finalizedLogsCallback
                unfinalizedLogsCallback w))) /\
  extends filterId_ (db w)
    (db (snd (fetchLogsToCache provider filter pageSize
                finalizedLogsCallback w))).
Proof.
  cbv zeta. split.
  - apply (always_getLogs
             (extends (getFilterId provider (filterKey filter)))
             (extends_refl _) (extends_trans _) provider (filterKey filter)).
    + intros cb a b f t _ Hcb. now apply extends_cachePage.
    + apply extends_tidyUpRanges.
    + reflexivity.
  - apply (always_fetchLogsToCache
             (extends (getFilterId provider (filterKey filter)))
             (extends_refl _) (extends_trans _) provider (filterKey filter)).
    + intros cb a b f t _ Hcb. now apply extends_cachePage.
    + apply extends_tidyUpRanges.
    + reflexivity.
Qed.

(** ** The tidy is atomic *)

Section TidyAtomic.

Variable filterId_ : string.

Lemma insertRanges_run ranges : forall w r w',
  forEach ranges
    (fun range => _insertRange filterId_ (fromBlock range) (toBlock range)) w
  = (r, w') ->
  r = Err StoreFailure \/
  (r = Ok tt /\
   db w' = mkDb (logs (db w))
             (fetched_ranges (db w) ++ map (rowOf filterId_) ranges)).
Proof.
  induction ranges as [| x ranges IH]; intros w r w' Hrun; simpl in Hrun.
  - injection Hrun as <- <-. right. split; [reflexivity |].
    rewrite app_nil_r. now destruct (db w).
  - unfold bind in Hrun. unfold _insertRange at 1 in Hrun.
    match type of Hrun with context [statement ?f w] =>
      destruct (statement_run f w) as [[He Hd] | [Ho Hd]];
      destruct (statement f w) as [[[] | e] w1] end;
      simpl in *; try discriminate.
    + left. congruence.
    + destruct (IH w1 r w' Hrun) as [He' | [Ho' Hd']]; [now left |].
      right. split; [assumption |]. rewrite Hd', Hd. simpl.
      now rewrite <- app_assoc.
Qed.

(** Whatever fails, the tidy leaves the tables as they were or as the
    complete tidy makes them. *)
Lemma tidyUpRanges_run w :
  (fst (_tidyUpRanges filterId_ w) = Ok tt /\
   db (snd (_tidyUpRanges filterId_ w)) = tidied filterId_ (db w)) \/
  (fst (_tidyUpRanges filterId_ w) = Err StoreFailure /\
   db (snd (_tidyUpRanges filterId_ w)) = db w).
Proof.
  unfold _tidyUpRanges, transaction, bind, _selectRanges, tidied.
  match goal with |- context [statement ?r w] =>
    destruct (statement_run r w) as [[He Hd] | [Ho Hd]];
    destruct (statement r w) as [[ranges | e] w1] end;
    simpl in *; try discriminate.
  - right. split; [congruence | reflexivity].
  - injection Ho as ->.
    destruct (selectedRanges (db w) filterId_) as [| r rs] eqn:Hsel.
    + left. simpl. split; [reflexivity | assumption].
    + rewrite <- Hsel. unfold _replaceRanges, bind.
      match goal with |- context [statement ?r w1] =>
        destruct (statement_run r w1) as [[He Hd'] | [Ho Hd']];
        destruct (statement r w1) as [[[] | e] w2] end;
        simpl in *; try discriminate.
      * right. split; [congruence | reflexivity].
      * destruct (forEach _ _ w2) as [r3 w3] eqn:Hrun.
        destruct (insertRanges_run _ _ _ _ Hrun) as [He' | [Ho' Hd'']];
          subst r3; simpl in *.
        -- right. split; [congruence | reflexivity].
        -- left. split; [reflexivity |].
           rewrite Hd'', Hd', Hd. reflexivity.
Qed.

Lemma selectedRanges_covers d b :
  covers (selectedRanges d filterId_) b <->
  exists row, In row (fetched_ranges d) /\
              rangeFilterId row = filterId_ /\
              rangeFrom row <= b <= rangeTo row.
Proof.
  unfold selectedRanges, covers. split.
  - intros [r [Hr Hb]]. apply (proj1 (sortVals_In _ _)) in Hr.
    apply in_map_iff in Hr as [row [<- Hrow]].
    apply filter_In in Hrow as [Hin Hid]. apply String.eqb_eq in Hid.
    exists row. auto.
  - intros [row (Hin & Hid & Hb)].
    exists (mkRange (rangeFrom row) (rangeTo row)). split; [| exact Hb].
    apply (proj2 (sortVals_In _ _)). apply in_map_iff. exists row.
    split; auto.
    apply filter_In. split; auto. now apply String.eqb_eq.
Qed.

Lemma tidied_spec d :
  Forall valid (selectedRanges d filterId_) ->
  logs (tidied filterId_ d) = logs d /\
  otherRanges filterId_ (tidied filterId_ d) = otherRanges filterId_ d /\
  selectedRanges (tidied filterId_ d) filterId_
  = mergeVals (selectedRanges d filterId_).
Proof.
  intros Hv. unfold tidied.
  destruct (selectedRanges d filterId_) as [| r rs] eqn:Hsel.
  - rewrite Hsel. auto.
  - rewrite <- Hsel in *. split; [reflexivity |]. split.
    + unfold otherRanges, replaced, deleteRanges. simpl.
      rewrite filter_app, filter_twice.
      assert (E : forall l,
                filter (fun row => negb (String.eqb (rangeFilterId row) filterId_))
                  (map (rowOf filterId_) l) = []).
      { induction l as [| x l IH]; simpl; auto.
        now rewrite String.eqb_refl. }
      now rewrite E, app_nil_r.
    + rewrite mergeRangesOf_values by assumption.
      unfold replaced. apply selectedRanges_replaced.
      destruct (mergeVals_spec _ Hv) as (_ & Hval & Hgap).
      now apply gap_sorted_fromLe.
Qed.

End TidyAtomic.

(** X11.  The tidy is all or nothing and changes no coverage.  For a
    filter whose stored ranges are valid, and whatever statement fails:
    after [_tidyUpRanges] the table of logs and the ranges of the other
    filters are as before and the filter's ranges cover the same blocks;
    when the call succeeds the filter's ranges are the merged ones, in
    ascending order with gaps (disjoint and non-adjacent); when it fails
    the tables are exactly as before. *)
Theorem tidyUpRanges_atomic (filterId_ : string) (w : World) :
  Forall valid (selectedRanges (db w) filterId_) ->
  let r := _tidyUpRanges filterId_ w in
  logs (db (snd r)) = logs (db w) /\
  otherRanges filterId_ (db (snd r)) = otherRanges filterId_ (db w) /\
  (forall b, covers (selectedRanges (db (snd r)) filterId_) b <->
             covers (selectedRanges (db w) filterId_) b) /\
  (fst r = Ok tt ->
   selectedRanges (db (snd r)) filterId_
   = mergeVals (selectedRanges (db w) filterId_) /\
   StronglySorted gap (selectedRanges (db (snd r)) filterId_)) /\
  (fst r <> Ok tt -> fst r = Err StoreFailure /\ db (snd r) = db w).
Proof.
  intros Hv. cbv zeta.
  destruct (tidied_spec filterId_ (db w) Hv) as (Hl & Ho & Hs).
  destruct (mergeVals_spec _ Hv) as (Hcov & Hval & Hgap).
  destruct (tidyUpRanges_run filterId_ w) as [[Hok Hd] | [Herr Hd]];
    rewrite Hd.
  - split; [assumption |]. split; [assumption |].
    split; [intros b; rewrite Hs; apply Hcov |].
    split; [intros _; rewrite Hs; auto |].
    intros Hne. contradiction.
  - split; [reflexivity |]. split; [reflexivity |].
    split; [tauto |].
    split; [intros H; rewrite H in Herr; discriminate | auto].
Qed.

Lemma tidyUpRanges_atomic_witness :
  let w := mkWorld
             (mkDb [] [mkRow demoId 61 100; mkRow demoId 1 60;
                       mkRow "other" 5 6])
             [] 0 (fun n => Nat.eqb n 2) 0 in
  let good := mkWorld (db w) [] 0 (fun _ => false) 0 in
  fetched_ranges (db (snd (_tidyUpRanges demoId good)))
  = [mkRow "other" 5 6; mkRow demoId 1 100] /\
  db (snd (_tidyUpRanges demoId w)) = db w /\
  (forall b, covers (selectedRanges (db (snd (_tidyUpRanges demoId w))) demoId) b
             <-> covers (selectedRanges (db w) demoId) b).
Proof.
  cbv zeta. split; [reflexivity |]. split; [reflexivity |].
  apply (tidyUpRanges_atomic demoId
           (mkWorld
              (mkDb [] [mkRow demoId 61 100; mkRow demoId 1 60;
                        mkRow "other" 5 6])
              [] 0 (fun n => Nat.eqb n 2) 0)).
  repeat constructor; unfold valid; simpl; lia.
Defined.

(** ** The tables stay consistent *)

Section Consistent.

Variable filterId_ : string.

Lemma preserves_refl (d : Db) : consistent d -> consistent d.
Proof. auto. Qed.

Lemma preserves_trans (d1 d2 d3 : Db) :
  (consistent d1 -> consistent d2) -> (consistent d2 -> consistent d3) ->
  consistent d1 -> consistent d3.
Proof. auto. Qed.

Lemma sameLogKey_spec a b : sameLogKey a b = true <-> logKey a = logKey b.
Proof.
  unfold sameLogKey, logKey.
  rewrite !andb_true_iff, String.eqb_eq, !Z.eqb_eq.
  split; [intros [[-> ->] ->]; reflexivity | intros E; injection E; auto].
Qed.

Lemma consistent_insertOrIgnore log d :
  consistent d ->
  consistent
    (insertOrIgnore (mkEntry filterId_ (blockNumber log) (index log) log) d).
Proof.
  intros (Hnd & Hcols & Hr). unfold insertOrIgnore.
  destruct (existsb _ (logs d)) eqn:E; [repeat split; assumption |].
  repeat split; simpl; [| | assumption].
  - rewrite map_app. simpl.
    apply (Permutation_NoDup
             (l := logKey (mkEntry filterId_ (blockNumber log) (index log) log)
                   :: map logKey (logs d))).
    + apply Permutation_cons_append.
    + constructor; [| assumption].
      intros Hin. apply in_map_iff in Hin as [row [Hk Hin]].
      assert (Ht : existsb
                     (sameLogKey
                        (mkEntry filterId_ (blockNumber log) (index log) log))
                     (logs d) = true).
      { apply existsb_exists. exists row. split; [assumption |].
        apply sameLogKey_spec. now symmetry. }
      congruence.
  - apply Forall_app. split; [assumption |]. repeat constructor.
Qed.

Lemma consistent_insertRange a b d :
  a <= b ->
  consistent d ->
  consistent (mkDb (logs d) (fetched_ranges d ++ [mkRow filterId_ a b])).
Proof.
  intros Hab (Hnd & Hcols & Hr). repeat split; simpl; try assumption.
  apply Forall_app. split; [assumption |]. repeat constructor. exact Hab.
Qed.

Lemma consistent_selected d :
  consistent d -> Forall valid (selectedRanges d filterId_).
Proof.
  intros (_ & _ & Hr). apply Forall_forall. intros r Hin.
  apply (proj1 (sortVals_In _ _)) in Hin.
  apply in_map_iff in Hin as [row [<- Hrow]].
  apply filter_In in Hrow as [Hin _].
  rewrite Forall_forall in Hr. apply (Hr row Hin).
Qed.

Lemma consistent_tidied d : consistent d -> consistent (tidied filterId_ d).
Proof.
  intros Hc. pose proof (consistent_selected d Hc) as Hv.
  destruct Hc as (Hnd & Hcols & Hr). unfold tidied.
  destruct (selectedRanges d filterId_) as [| r rs] eqn:Hsel;
    [repeat split; assumption |].
  rewrite <- Hsel in *. repeat split; simpl; try assumption.
  apply Forall_app. split.
  - apply Forall_forall. intros row Hin. apply filter_In in Hin as [Hin _].
    rewrite Forall_forall in Hr. now apply Hr.
  - rewrite mergeRangesOf_values by assumption.
    destruct (mergeVals_spec _ Hv) as (_ & Hval & _).
    apply Forall_forall. intros row Hin.
    apply in_map_iff in Hin as [x [<- Hx]].
    rewrite Forall_forall in Hval. apply (Hval x Hx).
Qed.

Lemma consistent_cachePage cb a b f t :
  f <= t ->
  (forall c, cb = Some c ->
             always (fun d d' => consistent d -> consistent d') (c a b f t)) ->
  always (fun d d' => consistent d -> consistent d')
    (cachePage filterId_ cb a b f t).
Proof.
  intros Hft Hcb. unfold cachePage.
  apply always_bind; [apply preserves_trans | |].
  - apply always_transaction; [apply preserves_refl |].
    apply always_bind; [apply preserves_trans | |].
    + unfold _insertLogs. apply always_forEach;
        [apply preserves_refl | apply preserves_trans |].
      intros log _. apply always_statement; [apply preserves_refl |].
      intros d. apply consistent_insertOrIgnore.
    + intros _. unfold _insertRange.
      apply always_statement; [apply preserves_refl |].
      intros d. now apply consistent_insertRange.
  - intros _. unfold callOptional. destruct cb as [c |].
    + now apply Hcb.
    + apply always_ret. apply preserves_refl.
Qed.

Lemma consistent_tidyUpRanges :
  always (fun d d' => consistent d -> consistent d')
    (_tidyUpRanges filterId_).
Proof.
  intros w Hc.
  destruct (tidyUpRanges_run filterId_ w) as [[_ Hd] | [_ Hd]]; rewrite Hd.
  - now apply consistent_tidied.
  - exact Hc.
Qed.

End Consistent.

(** X12.  The coordinator keeps the tables consistent, whatever fails on
    the way.  When no two rows of table [logs] share a key, every row's
    columns [blockNumber] and [logIndex] are those of the log it stores
    and every stored range has [from_block <= to_block], the same holds
    after [getLogs] and after [fetchLogsToCache], whether they return or
    throw and whatever the provider, the callbacks and the store do. *)
Theorem cache_stays_consistent (provider : Provider) (filter : Filter)
    (pageSize : Z)
    (finalizedLogsCallback : option FetchLogsToCacheBatchCallback)
    (unfinalizedLogsCallback : option FetchLogsBatchCallback) (w : World) :
  consistent (db w) ->
  consistent
    (db (snd (getLogs provider filter pageSize finalizedLogsCallback
                unfinalizedLogsCallback w))) /\
  consistent
    (db (snd (fetchLogsToCache provider filter pageSize
                finalizedLogsCallback w))).
Proof.
  intros Hc. split.
  - apply (always_getLogs (fun d d' => consistent d -> consistent d')
             preserves_refl preserves_trans provider (filterKey filter));
      [| | reflexivity | exact Hc].
    + intros cb a b f t Hft Hcb. now apply consistent_cachePage.
    + apply consistent_tidyUpRanges.
  - apply (always_fetchLogsToCache
             (fun d d' => consistent d -> consistent d')
             preserves_refl preserves_trans provider (filterKey filter));
      [| | reflexivity | exact Hc].
    + intros cb a b f t Hft Hcb. now apply consistent_cachePage.
    + apply consistent_tidyUpRanges.
Qed.

Lemma cache_stays_consistent_witness :
  consistent (db emptyWorld) /\
  consistent
    (db (snd (getLogs demoProvider (demoFilter 1 120) 40 None None
                emptyWorld))) /\
  consistent
    (db (snd (fetchLogsToCache demoProvider (demoFilter 1 120) 40 None
                emptyWorld))).
Proof.
  assert (H : consistent (db emptyWorld)).
  { repeat split; simpl; constructor. }
  split; [exact H |].
  exact (cache_stays_consistent demoProvider (demoFilter 1 120) 40 None None
           emptyWorld H).
Defined.

(* ================================================================== *)
(** * Filling the cache *)
(* ================================================================== *)

(** ** Requests and reported blocks *)

Section Advance.

Lemma blocksOf_fold l : forall a,
  fold_left (fun acc range => acc + toBlock range - fromBlock range + 1) l a
  = a + blocksOf l.
Proof.
  unfold blocksOf. induction l as [| r l IH]; intros a; simpl; [lia |].
  rewrite IH.
  match goal with |- _ = a + fold_left _ l ?x => rewrite (IH x) end. lia.
Qed.

Lemma blocksOf_cons r l : blocksOf (r :: l) = blocksIn r + blocksOf l.
Proof.
  unfold blocksOf at 1. simpl. rewrite blocksOf_fold. unfold blocksIn. lia.
Qed.

Lemma blocksOf_app l1 l2 : blocksOf (l1 ++ l2) = blocksOf l1 + blocksOf l2.
Proof.
  induction l1 as [| r l1 IH]; simpl; [reflexivity |].
  rewrite !blocksOf_cons, IH. lia.
Qed.

Lemma requested_app evs1 evs2 :
  requested (evs1 ++ evs2) = requested evs1 ++ requested evs2.
Proof.
  induction evs1 as [| e evs1 IH]; simpl; [reflexivity |].
  destruct e; simpl; now rewrite ?IH.
Qed.

Lemma advance_refl w : advance [] w w.
Proof.
  split; [reflexivity |]. split; [unfold blocksOf; simpl; lia |].
  exists []. now rewrite app_nil_r.
Qed.

Lemma advance_trans p1 p2 w w1 w2 :
  advance p1 w w1 -> advance p2 w1 w2 -> advance (p1 ++ p2) w w2.
Proof.
  intros (Hf1 & Hs1 & evs1 & Ht1 & Hr1) (Hf2 & Hs2 & evs2 & Ht2 & Hr2).
  split; [congruence |]. split; [rewrite blocksOf_app; lia |].
  exists (evs1 ++ evs2). split.
  - now rewrite Ht2, Ht1, app_assoc.
  - now rewrite requested_app, Hr1, Hr2.
Qed.

Lemma advance_noFaults p w w' : advance p w w' -> noFaults w -> noFaults w'.
Proof. intros (Hf & _) Hnf n. rewrite Hf. apply Hnf. Qed.

End Advance.

(** ** The run when nothing fails *)

Section FaultFree.

Variable provider : Provider.
Variable key : FilterKey.
Variable filterId_ : string.
Variable pageSize : Z.
Hypothesis pageSize_pos : 1 <= pageSize.

Lemma insertLogs_ok thisBatchLogs : forall w,
  noFaults w ->
  exists w',
    _insertLogs thisBatchLogs filterId_ w = (Ok tt, w') /\
    db w' = insertAllLogs filterId_ thisBatchLogs (db w) /\
    faulty w' = faulty w /\ trace w' = trace w /\ scanned w' = scanned w.
Proof.
  unfold _insertLogs, insertAllLogs.
  induction thisBatchLogs as [| log rest IH]; intros w Hnf; simpl.
  - exists w. auto.
  - unfold bind. rewrite statement_ok by assumption. simpl.
    match goal with |- context [forEach rest _ ?w1] =>
      destruct (IH w1) as [w' (Hrun & Hdb & Hf & Htr & Hs)]; [exact Hnf |] end.
    exists w'. rewrite Hrun. simpl in *. auto.
Qed.

Lemma progress_reports cb missingRanges i blocksToScan :
  (forall c, cb = Some c ->
     forall a b f0 t0 rs j s n, c a b f0 t0 rs j s n = true) ->
  reports (progress cb missingRanges i blocksToScan).
Proof.
  intros Hcb allLogs batch f t w.
  unfold progress, bind, getScanned, setScanned.
  destruct cb as [c |]; simpl.
  - unfold callCacheBatch, bind, emit. rewrite (Hcb c eq_refl).
    eexists. split; [reflexivity |]. simpl. split; [reflexivity |].
    split; [reflexivity |]. simpl.
    split; [unfold blocksOf; simpl; lia |].
    eexists. split; reflexivity.
  - eexists. split; [reflexivity |]. simpl. split; [reflexivity |].
    apply advance_refl.
Qed.

Lemma cachePage_ok (c : BatchClosure) allLogs batch f t w :
  noFaults w -> reports c ->
  exists w',
    cachePage filterId_ (Some c) allLogs batch f t w = (Ok tt, w') /\
    db w' = commitPage filterId_ batch f t (db w) /\
    advance []
      (mkWorld (db w) (trace w) (statements w) (faulty w)
         (scanned w + (t - f + 1))) w'.
Proof.
  intros Hnf Hc. unfold cachePage, transaction.
  destruct (insertLogs_ok batch w Hnf) as [w1 (Hrun & Hdb & Hf & Htr & Hs)].
  unfold bind. rewrite Hrun. unfold _insertRange.
  rewrite statement_ok by (intros n; rewrite Hf; apply Hnf). simpl.
  match goal with |- context [c allLogs batch f t ?w2] =>
    destruct (Hc allLogs batch f t w2) as [w' (Hrun' & Hdb' & Hadv)] end.
  exists w'. rewrite Hrun'. split; [reflexivity |].
  simpl in *. split; [rewrite Hdb', Hdb; reflexivity |].
  destruct Hadv as (Hf' & Hs' & evs & Ht' & Hr'). simpl in *.
  unfold advance. simpl.
  split; [congruence |]. split; [rewrite Hs', Hs; reflexivity |].
  exists evs. split; [congruence | assumption].
Qed.

Lemma fetchLoop_fills (c : BatchClosure) strictToBlock :
  reports c ->
  forall fuel fromBlockN acc w,
    (Z.to_nat (strictToBlock - fromBlockN + 1) <= fuel)%nat ->
    noFaults w ->
    (forall pg, In pg (pagesOf pageSize fromBlockN strictToBlock) ->
       getLogs_upstream provider key (fromBlock pg) (toBlock pg) <> None) ->
    exists l w',
      fetchLoop fuel provider key pageSize
        (Some (cachePage filterId_ (Some c))) strictToBlock fromBlockN acc w
      = (Ok l, w') /\
      db w'
      = commitPages provider key filterId_
          (pagesOf pageSize fromBlockN strictToBlock) (db w) /\
      advance (pagesOf pageSize fromBlockN strictToBlock) w w'.
Proof.
  intros Hc.
  induction fuel as [| fuel IH]; intros fromBlockN acc w Hfuel Hnf Hup.
  - rewrite pagesOf_done by lia. simpl.
    destruct (Z.leb_spec fromBlockN strictToBlock); [lia |].
    exists acc, w. split; [reflexivity |]. split; [reflexivity |].
    apply advance_refl.
  - simpl.
    destruct (Z.leb_spec fromBlockN strictToBlock) as [Hle | Hlt].
    2:{ rewrite pagesOf_done by lia. exists acc, w.
        split; [reflexivity |]. split; [reflexivity |]. apply advance_refl. }
    rewrite pagesOf_step in * by lia.
    set (thisToBlock := Z.min (fromBlockN + pageSize - 1) strictToBlock) in *.
    set (pg := mkRange fromBlockN thisToBlock) in *.
    assert (Hans : getLogs_upstream provider key fromBlockN thisToBlock
                   = Some (answer provider key pg)).
    { unfold answer; simpl.
      specialize (Hup pg (or_introl eq_refl)). simpl in Hup.
      destruct (getLogs_upstream provider key fromBlockN thisToBlock);
        [reflexivity | contradiction]. }
    unfold providerGetLogs.
    unfold bind at 1. unfold bind at 1. rewrite emit_run, Hans.
    cbn [ret]. unfold callOptional.
    destruct (cachePage_ok c (acc ++ answer provider key pg)
                (answer provider key pg) fromBlockN thisToBlock
                (appendTrace [EvGetLogs key fromBlockN thisToBlock] w))
      as [w1 (Hrun & Hdb & Hadv)]; [exact Hnf | exact Hc |].
    assert (Hpage : advance [pg] w w1).
    { destruct Hadv as (Hf & Hs & evs & Ht & Hr). simpl in *.
      split; [exact Hf |].
      split; [rewrite Hs, blocksOf_cons; unfold blocksOf, blocksIn, pg;
              simpl; lia |].
      exists (EvGetLogs key fromBlockN thisToBlock :: evs).
      split; [rewrite Ht, <- app_assoc; reflexivity |].
      simpl. now rewrite Hr. }
    unfold bind at 1. rewrite Hrun.
    destruct (IH (thisToBlock + 1) (acc ++ answer provider key pg) w1)
      as [l [w' (Hrun' & Hdb' & Hadv')]].
    + unfold thisToBlock. lia.
    + exact (advance_noFaults _ _ _ Hpage Hnf).
    + intros pg' Hpg'. apply Hup. now right.
    + exists l, w'. split; [exact Hrun' |]. split.
      * rewrite Hdb', Hdb. now rewrite commitPages_cons.
      * exact (advance_trans [pg] _ _ _ _ Hpage Hadv').
Qed.

End FaultFree.

Section Fills.

Variable provider : Provider.
Variable pageSize : Z.
Hypothesis pageSize_pos : 1 <= pageSize.

Lemma pages_within fromBlockN toBlockN pg :
  In pg (pagesOf pageSize fromBlockN toBlockN) ->
  fromBlockN <= fromBlock pg /\ fromBlock pg <= toBlock pg /\
  toBlock pg <= toBlockN /\ toBlock pg - fromBlock pg + 1 <= pageSize.
Proof.
  intros Hin.
  pose proof (pagesOf_walk pageSize pageSize_pos toBlockN
                (Z.to_nat (toBlockN - fromBlockN + 1)) fromBlockN
                (Nat.le_refl _)) as Hwalk.
  destruct (walk_tiles pageSize pageSize_pos toBlockN _ _ Hwalk)
    as (_ & Hall & _).
  rewrite Forall_forall in Hall. specialize (Hall pg Hin).
  unfold valid, blocksIn in Hall. lia.
Qed.

Lemma pages_cover fromBlockN toBlockN b :
  covers (pagesOf pageSize fromBlockN toBlockN) b <->
  fromBlockN <= b <= toBlockN.
Proof.
  pose proof (pagesOf_walk pageSize pageSize_pos toBlockN
                (Z.to_nat (toBlockN - fromBlockN + 1)) fromBlockN
                (Nat.le_refl _)) as Hwalk.
  destruct (walk_tiles pageSize pageSize_pos toBlockN _ _ Hwalk)
    as (Hcov & _ & _).
  apply Hcov.
Qed.

Lemma withRange_strict filter range :
  fromBlock range <> 0 -> toBlock range <> 0 ->
  toStrictFilter provider (withRange filter range) (TagString "latest")
  = Ok (mkStrict (filterKey filter) (fromBlock range) (toBlock range)).
Proof.
  intros Hf Ht. unfold toStrictFilter, withRange, orElse, truthy. simpl.
  destruct (Z.eqb_spec (fromBlock range) 0); [contradiction |].
  destruct (Z.eqb_spec (toBlock range) 0); [contradiction |].
  reflexivity.
Qed.

Lemma fetchRangeToCache_fills filter range cb missingRanges i blocksToScan w :
  noFaults w ->
  fromBlock range <> 0 -> toBlock range <> 0 ->
  (forall c, cb = Some c ->
     forall a b f0 t0 rs j s n, c a b f0 t0 rs j s n = true) ->
  (forall pg, In pg (pagesOf pageSize (fromBlock range) (toBlock range)) ->
     getLogs_upstream provider (filterKey filter) (fromBlock pg) (toBlock pg)
     <> None) ->
  exists w',
    _fetchRangeToCache provider (withRange filter range) pageSize
      (Some (progress cb missingRanges i blocksToScan)) w
    = (Ok tt, w') /\
    db w'
    = fetchedRange provider (filterKey filter)
        (getFilterId provider (filterKey filter)) pageSize range (db w) /\
    advance (pagesOf pageSize (fromBlock range) (toBlock range)) w w'.
Proof.
  intros Hnf Hf Ht Hcb Hup. unfold _fetchRangeToCache, fetchLogs.
  destruct (Z.ltb_spec pageSize 1); [lia |].
  rewrite (withRange_strict filter range Hf Ht).
  unfold bind at 1. unfold bind at 1. cbn [lift ret].
  cbn [strictFrom strictTo filterKey withRange].
  destruct (fetchLoop_fills provider (filterKey filter)
              (getFilterId provider (filterKey filter)) pageSize
              pageSize_pos (progress cb missingRanges i blocksToScan)
              (toBlock range)
              (progress_reports cb missingRanges i blocksToScan Hcb)
              (Z.to_nat (toBlock range - fromBlock range + 1))
              (fromBlock range) [] w (Nat.le_refl _) Hnf Hup)
    as [l [w' (Hrun & Hdb & Hadv)]].
  rewrite Hrun. exists w'. auto.
Qed.

Lemma fetchMissing_fills filter cb missingRanges blocksToScan todo :
  (forall c, cb = Some c ->
     forall a b f0 t0 rs j s n, c a b f0 t0 rs j s n = true) ->
  Forall (fun range =>
            fromBlock range <> 0 /\ toBlock range <> 0 /\
            forall pg,
              In pg (pagesOf pageSize (fromBlock range) (toBlock range)) ->
              getLogs_upstream provider (filterKey filter) (fromBlock pg)
                (toBlock pg) <> None) todo ->
  forall i w,
    noFaults w ->
    exists w',
      fetchMissing provider filter pageSize cb missingRanges blocksToScan i
        todo w
      = (Ok tt, w') /\
      db w'
      = fetchedAll provider (filterKey filter)
          (getFilterId provider (filterKey filter)) pageSize todo (db w) /\
      advance (pagesOfAll pageSize todo) w w'.
Proof.
  intros Hcb Hall. induction Hall as [| range todo (Hf & Ht & Hup) _ IH];
    intros i w Hnf; simpl.
  - exists w. split; [reflexivity |]. split; [reflexivity |].
    apply advance_refl.
  - destruct (fetchRangeToCache_fills filter range cb missingRanges i
                blocksToScan w Hnf Hf Ht Hcb Hup) as [w1 (Hrun & Hdb & Hadv)].
    unfold bind at 1. rewrite Hrun.
    destruct (IH (S i) w1) as [w' (Hrun' & Hdb' & Hadv')].
    { exact (advance_noFaults _ _ _ Hadv Hnf). }
    exists w'. split; [exact Hrun' |]. split.
    + rewrite Hdb', Hdb. reflexivity.
    + exact (advance_trans _ _ _ _ _ Hadv Hadv').
Qed.

Lemma tidyUpRanges_fills filterId_ w :
  noFaults w ->
  Forall valid (selectedRanges (db w) filterId_) ->
  exists w',
    _tidyUpRanges filterId_ w = (Ok tt, w') /\
    db w' = tidied filterId_ (db w) /\
    faulty w' = faulty w /\ trace w' = trace w /\ scanned w' = scanned w.
Proof.
  intros Hnf Hv.
  destruct (tidyUpRanges_ok filterId_ w Hnf Hv)
    as [w' (Hrun & _ & _ & Htr & Hf & Hs)].
  exists w'. split; [exact Hrun |]. split; [| auto].
  destruct (tidyUpRanges_run filterId_ w) as [[_ Hd] | [He _]].
  - now rewrite Hrun in Hd.
  - rewrite Hrun in He. discriminate.
Qed.

Lemma consistent_insertAllLogs filterId_ batch : forall d,
  consistent d -> consistent (insertAllLogs filterId_ batch d).
Proof.
  unfold insertAllLogs. induction batch as [| log batch IH]; intros d Hc;
    simpl; [assumption |].
  apply IH. now apply consistent_insertOrIgnore.
Qed.

Lemma consistent_commitPages key filterId_ pages : forall d,
  Forall valid pages ->
  consistent d -> consistent (commitPages provider key filterId_ pages d).
Proof.
  induction pages as [| pg pages IH]; intros d Hall Hc; [assumption |].
  apply Forall_cons_iff in Hall as [Hv Hall].
  rewrite commitPages_cons. apply IH; [assumption |].
  unfold commitPage. apply consistent_insertRange; [exact Hv |].
  now apply consistent_insertAllLogs.
Qed.

Lemma consistent_fetchedAll key filterId_ ranges : forall d,
  consistent d ->
  consistent (fetchedAll provider key filterId_ pageSize ranges d).
Proof.
  unfold fetchedAll. induction ranges as [| range ranges IH]; intros d Hc;
    simpl; [assumption |].
  apply IH. unfold fetchedRange. apply consistent_commitPages; [| assumption].
  apply Forall_forall. intros pg Hpg.
  pose proof (pages_within _ _ _ Hpg). unfold valid. lia.
Qed.

End Fills.

(** ** The tables mirror the chain *)

Section Mirror.

Variable provider : Provider.
Variable key : FilterKey.
Variable filterId_ : string.
Variable chain : list Log.
Variable pageSize : Z.
Hypothesis pageSize_pos : 1 <= pageSize.
Variables lo hi : Z.
Hypothesis provider_serves : serves provider key chain pageSize lo hi.
Hypothesis chain_keys : forall x y,
  In x chain -> In y chain ->
  blockNumber x = blockNumber y -> index x = index y -> x = y.

Lemma insertOrIgnore_mirror log d :
  faithful filterId_ chain d -> In log chain ->
  faithful filterId_ chain (insertOrIgnore (entryOf filterId_ log) d) /\
  fetched_ranges (insertOrIgnore (entryOf filterId_ log) d)
  = fetched_ranges d /\
  (forall row, In row (logs d) ->
               In row (logs (insertOrIgnore (entryOf filterId_ log) d))) /\
  In (entryOf filterId_ log)
     (logs (insertOrIgnore (entryOf filterId_ log) d)).
Proof.
  intros [Hc Hfa] Hlog.
  pose proof (consistent_insertOrIgnore filterId_ log d Hc) as Hc'.
  fold (entryOf filterId_ log) in Hc'.
  unfold insertOrIgnore in *.
  destruct (existsb (sameLogKey (entryOf filterId_ log)) (logs d)) eqn:E.
  - split; [split; assumption |]. split; [reflexivity |].
    split; [auto |].
    apply existsb_exists in E as [row [Hin Hk]].
    apply sameLogKey_spec in Hk. unfold logKey in Hk. simpl in Hk.
    injection Hk as Hid Hbn Hix.
    destruct Hc as (_ & Hcols & _). rewrite Forall_forall in Hcols.
    destruct (Hcols row Hin) as [Hb Hi].
    assert (Hd : data row = log).
    { apply chain_keys; [apply Hfa; auto | assumption | congruence
                        | congruence]. }
    replace (entryOf filterId_ log) with row; [assumption |].
    destruct row as [fid bn ix dt]. unfold entryOf. simpl in *.
    subst. reflexivity.
  - split; [split; [assumption |] |].
    + simpl. intros row Hin Hid. apply in_app_iff in Hin as [Hin | [<- | []]].
      * now apply Hfa.
      * exact Hlog.
    + simpl. split; [reflexivity |]. split.
      * intros row Hin. apply in_app_iff. now left.
      * apply in_app_iff. right. now left.
Qed.

Lemma insertAllLogs_mirror batch : forall d,
  faithful filterId_ chain d -> (forall log, In log batch -> In log chain) ->
  faithful filterId_ chain (insertAllLogs filterId_ batch d) /\
  fetched_ranges (insertAllLogs filterId_ batch d) = fetched_ranges d /\
  (forall row, In row (logs d) ->
               In row (logs (insertAllLogs filterId_ batch d))) /\
  (forall log, In log batch ->
               In (entryOf filterId_ log)
                  (logs (insertAllLogs filterId_ batch d))).
Proof.
  unfold insertAllLogs.
  induction batch as [| log batch IH]; intros d Hfa Hsub; simpl.
  - split; [assumption |]. split; [reflexivity |]. split; [auto |].
    intros log [].
  - fold (entryOf filterId_ log).
    destruct (insertOrIgnore_mirror log d Hfa (Hsub log (or_introl eq_refl)))
      as (Hfa1 & Hr1 & Hk1 & Hin1).
    destruct (IH (insertOrIgnore (entryOf filterId_ log) d) Hfa1)
      as (Hfa2 & Hr2 & Hk2 & Hin2).
    { intros x Hx. apply Hsub. now right. }
    split; [assumption |]. split; [congruence |]. split; [auto |].
    intros x [<- | Hx]; auto.
Qed.

(** What one committed page changes. *)
Lemma commitPage_mirror f t d :
  lo <= f -> f <= t -> t <= hi -> t - f + 1 <= pageSize ->
  consistent d -> mirrors filterId_ chain d ->
  let d' := commitPage filterId_ (answer provider key (mkRange f t)) f t d in
  consistent d' /\ mirrors filterId_ chain d' /\
  (forall b, covers (selectedRanges d' filterId_) b <->
             covers (selectedRanges d filterId_) b \/ f <= b <= t) /\
  (forall row, In row (logs d) -> In row (logs d')).
Proof.
  intros Hlo Hft Hhi Hsize Hc [Hfa Hco]. cbv zeta.
  unfold answer. simpl. rewrite (provider_serves f t Hlo Hft Hhi Hsize).
  destruct (insertAllLogs_mirror (filter (inBlocks f t) chain) d)
    as ([Hc1 Hfa1] & Hr1 & Hk1 & Hin1).
  { split; assumption. }
  { intros log Hin. now apply filter_In in Hin as [Hin _]. }
  unfold commitPage.
  set (d1 := insertAllLogs filterId_ (filter (inBlocks f t) chain) d) in *.
  assert (Hcov : forall b,
            covers (selectedRanges
                      (mkDb (logs d1)
                         (fetched_ranges d1 ++ [mkRow filterId_ f t]))
                      filterId_) b <->
            covers (selectedRanges d filterId_) b \/ f <= b <= t).
  { intros b. rewrite !selectedRanges_covers. simpl. rewrite Hr1. split.
    - intros [row (Hin & Hid & Hb)].
      apply in_app_iff in Hin as [Hin | [<- | []]].
      + left. exists row. auto.
      + right. exact Hb.
    - intros [[row (Hin & Hid & Hb)] | Hb].
      + exists row. split; [apply in_app_iff; now left | auto].
      + exists (mkRow filterId_ f t).
        split; [apply in_app_iff; right; now left | auto]. }
  split; [now apply consistent_insertRange |].
  split; [| split; [exact Hcov | exact Hk1]].
  split; simpl.
  - exact Hfa1.
  - intros log Hlog Hb. apply Hcov in Hb as [Hb | Hb].
    + apply Hk1. now apply Hco.
    + apply Hin1. apply filter_In. split; [assumption |].
      unfold inBlocks. apply andb_true_iff. split; apply Z.leb_le; lia.
Qed.

Lemma commitPages_mirror pages : forall d,
  Forall (fun pg => lo <= fromBlock pg /\ fromBlock pg <= toBlock pg /\
                    toBlock pg <= hi /\
                    toBlock pg - fromBlock pg + 1 <= pageSize) pages ->
  consistent d -> mirrors filterId_ chain d ->
  let d' := commitPages provider key filterId_ pages d in
  consistent d' /\ mirrors filterId_ chain d' /\
  (forall b, covers (selectedRanges d' filterId_) b <->
             covers (selectedRanges d filterId_) b \/ covers pages b) /\
  (forall row, In row (logs d) -> In row (logs d')).
Proof.
  induction pages as [| pg pages IH]; intros d Hall Hc Hm; cbv zeta.
  - simpl. split; [assumption |]. split; [assumption |]. split; [| auto].
    intros b. pose proof (covers_nil b). tauto.
  - apply Forall_cons_iff in Hall as [(H1 & H2 & H3 & H4) Hall].
    rewrite commitPages_cons.
    destruct (commitPage_mirror (fromBlock pg) (toBlock pg) d H1 H2 H3 H4
                Hc Hm) as (Hc1 & Hm1 & Hcov1 & Hk1).
    replace (mkRange (fromBlock pg) (toBlock pg)) with pg in *
      by now destruct pg.
    destruct (IH _ Hall Hc1 Hm1) as (Hc2 & Hm2 & Hcov2 & Hk2).
    split; [assumption |]. split; [assumption |]. split; [| auto].
    intros b. rewrite Hcov2, Hcov1, covers_cons. unfold inRange. tauto.
Qed.

Lemma fetchedRange_mirror range d :
  lo <= fromBlock range -> toBlock range <= hi ->
  consistent d -> mirrors filterId_ chain d ->
  let d' := fetchedRange provider key filterId_ pageSize range d in
  consistent d' /\ mirrors filterId_ chain d' /\
  (forall b, covers (selectedRanges d' filterId_) b <->
             covers (selectedRanges d filterId_) b \/ inRange range b) /\
  (forall row, In row (logs d) -> In row (logs d')).
Proof.
  intros Hlo Hhi Hc Hm. cbv zeta. unfold fetchedRange.
  destruct (commitPages_mirror
              (pagesOf pageSize (fromBlock range) (toBlock range)) d)
    as (Hc' & Hm' & Hcov & Hk); try assumption.
  { apply Forall_forall. intros pg Hpg.
    pose proof (pages_within pageSize pageSize_pos _ _ _ Hpg). lia. }
  split; [assumption |]. split; [assumption |]. split; [| assumption].
  intros b. rewrite Hcov, (pages_cover pageSize pageSize_pos).
  unfold inRange. tauto.
Qed.

Lemma fetchedAll_mirror ranges : forall d,
  Forall (fun range => lo <= fromBlock range /\ toBlock range <= hi) ranges ->
  consistent d -> mirrors filterId_ chain d ->
  let d' := fetchedAll provider key filterId_ pageSize ranges d in
  consistent d' /\ mirrors filterId_ chain d' /\
  (forall b, covers (selectedRanges d' filterId_) b <->
             covers (selectedRanges d filterId_) b \/ covers ranges b) /\
  (forall row, In row (logs d) -> In row (logs d')).
Proof.
  unfold fetchedAll.
  induction ranges as [| range ranges IH]; intros d Hall Hc Hm; cbv zeta.
  - simpl. split; [assumption |]. split; [assumption |]. split; [| auto].
    intros b. pose proof (covers_nil b). tauto.
  - apply Forall_cons_iff in Hall as [[H1 H2] Hall]. simpl.
    destruct (fetchedRange_mirror range d H1 H2 Hc Hm)
      as (Hc1 & Hm1 & Hcov1 & Hk1).
    destruct (IH _ Hall Hc1 Hm1) as (Hc2 & Hm2 & Hcov2 & Hk2).
    split; [assumption |]. split; [assumption |]. split; [| auto].
    intros b. rewrite Hcov2, Hcov1, covers_cons. tauto.
Qed.

Lemma tidied_mirror d :
  consistent d -> mirrors filterId_ chain d ->
  let d' := tidied filterId_ d in
  consistent d' /\ mirrors filterId_ chain d' /\
  (forall b, covers (selectedRanges d' filterId_) b <->
             covers (selectedRanges d filterId_) b) /\
  logs d' = logs d /\
  StronglySorted gap (selectedRanges d' filterId_).
Proof.
  intros Hc [Hfa Hco]. cbv zeta.
  pose proof (consistent_selected filterId_ d Hc) as Hv.
  destruct (tidied_spec filterId_ d Hv) as (Hl & _ & Hs).
  destruct (mergeVals_spec _ Hv) as (Hcov & _ & Hgap).
  assert (Hcov' : forall b,
            covers (selectedRanges (tidied filterId_ d) filterId_) b <->
            covers (selectedRanges d filterId_) b).
  { intros b. rewrite Hs. apply Hcov. }
  split; [now apply consistent_tidied |].
  split; [| split; [exact Hcov' | split; [exact Hl | now rewrite Hs]]].
  split; rewrite Hl; [exact Hfa |].
  intros log Hlog Hb. apply Hco; [assumption | now apply Hcov'].
Qed.

Lemma missing_within want have :
  valid want -> Forall valid have ->
  Forall (fun range => fromBlock want <= fromBlock range /\
                       fromBlock range <= toBlock range /\
                       toBlock range <= toBlock want)
    (subtractRanges want have).
Proof.
  intros Hw Hh.
  destruct (subtractRanges_spec want have Hw Hh) as (Hcov & Hval & _).
  apply Forall_forall. intros r Hr.
  rewrite Forall_forall in Hval. pose proof (Hval r Hr) as Hv.
  unfold valid in Hv.
  assert (H1 : inRange want (fromBlock r)).
  { apply Hcov. exists r. unfold inRange. split; [assumption | lia]. }
  assert (H2 : inRange want (toBlock r)).
  { apply Hcov. exists r. unfold inRange. split; [assumption | lia]. }
  unfold inRange in *. lia.
Qed.

Lemma populated_mirror want d :
  valid want -> lo <= fromBlock want -> toBlock want <= hi ->
  consistent d -> mirrors filterId_ chain d ->
  let d' := populated provider key filterId_ pageSize want d in
  consistent d' /\ mirrors filterId_ chain d' /\
  (forall b, covers (selectedRanges d' filterId_) b <->
             covers (selectedRanges d filterId_) b \/ inRange want b) /\
  (forall row, In row (logs d) -> In row (logs d')) /\
  StronglySorted gap (selectedRanges d' filterId_).
Proof.
  intros Hw Hlo Hhi Hc Hm. cbv zeta. unfold populated.
  destruct (tidied_mirror d Hc Hm) as (Hc1 & Hm1 & Hcov1 & Hl1 & _).
  set (d1 := tidied filterId_ d) in *.
  pose proof (consistent_selected filterId_ d1 Hc1) as Hv1.
  destruct (subtractRanges_spec want _ Hw Hv1) as (Hmiss & _ & _).
  pose proof (missing_within want _ Hw Hv1) as Hwithin.
  set (missing := subtractRanges want (selectedRanges d1 filterId_)) in *.
  destruct (fetchedAll_mirror missing d1) as (Hc2 & Hm2 & Hcov2 & Hk2);
    try assumption.
  { eapply Forall_impl; [| exact Hwithin]. simpl. intros r ?. lia. }
  set (d2 := fetchedAll provider key filterId_ pageSize missing d1) in *.
  destruct (tidied_mirror d2 Hc2 Hm2) as (Hc3 & Hm3 & Hcov3 & Hl3 & Hgap).
  split; [assumption |]. split; [assumption |].
  split; [| split; [| assumption]].
  - intros b. rewrite Hcov3, Hcov2, Hmiss, Hcov1.
    destruct (coversb (selectedRanges d1 filterId_) b) eqn:E.
    + apply coversb_spec in E. apply Hcov1 in E. tauto.
    + assert (Hn : ~ covers (selectedRanges d filterId_) b).
      { intros H. apply Hcov1 in H. apply coversb_spec in H. congruence. }
      tauto.
  - intros row Hrow. rewrite Hl3. apply Hk2. now rewrite Hl1.
Qed.

End Mirror.

(** ** fetchLogsToCache fills the cache *)

Section Populate.

Variable provider : Provider.
Variable pageSize : Z.
Hypothesis pageSize_pos : 1 <= pageSize.

Lemma bind_run {A B} (m : M A) (k : A -> M B) w a w1 :
  m w = (Ok a, w1) -> bind m k w = k a w1.
Proof. intros E. unfold bind. now rewrite E. Qed.

Lemma getMissingRanges_ok filterId_ want w :
  noFaults w ->
  _getMissingRanges filterId_ want w
  = (Ok (subtractRanges want (selectedRanges (db w) filterId_)),
     mkWorld (db w) (trace w) (S (statements w)) (faulty w) (scanned w)).
Proof.
  intros Hnf. unfold _getMissingRanges, _selectRanges, bind.
  now rewrite statement_ok by assumption.
Qed.

Lemma serves_answers key chain lo hi :
  serves provider key chain pageSize lo hi ->
  answers provider key pageSize lo hi.
Proof.
  intros Hs a b H1 H2 H3 H4. rewrite (Hs a b H1 H2 H3 H4). discriminate.
Qed.

Lemma fetchLogsToCache_fills filter cb sf lastFinalizedBlock w :
  noFaults w ->
  toStrictFilter provider filter (TagString "finalized") = Ok sf ->
  getBlock provider "finalized" = Some lastFinalizedBlock ->
  1 <= strictFrom sf -> strictFrom sf <= strictTo sf ->
  strictTo sf <= lastFinalizedBlock ->
  answers provider (filterKey filter) pageSize (strictFrom sf)
    (strictTo sf) ->
  (forall c, cb = Some c ->
     forall a b f0 t0 rs j s n, c a b f0 t0 rs j s n = true) ->
  consistent (db w) ->
  let filterId_ := getFilterId provider (filterKey filter) in
  let missing :=
    subtractRanges (asRange sf)
      (selectedRanges (tidied filterId_ (db w)) filterId_) in
  exists w',
    fetchLogsToCache provider filter pageSize cb w = (Ok tt, w') /\
    db w'
    = populated provider (filterKey filter) filterId_ pageSize (asRange sf)
        (db w) /\
    faulty w' = faulty w /\
    scanned w' = blocksOf (pagesOfAll pageSize missing) /\
    exists evs,
      trace w' = trace w ++ evs /\
      requested evs = pagesOfAll pageSize missing.
Proof.
  intros Hnf Hsf Hfin Hone Hft Hle Hanswers Hcb Hc filterId_ missing.
  unfold fetchLogsToCache.
  destruct (Z.ltb_spec pageSize 1); [lia |].
  rewrite Hsf. unfold getFinalizedBlockNumber. rewrite Hfin.
  rewrite (bind_run _ _ w sf w eq_refl).
  rewrite (bind_run _ _ w lastFinalizedBlock w eq_refl).
  rewrite Z.gtb_ltb.
  destruct (Z.ltb_spec lastFinalizedBlock (strictTo sf)); [lia |].
  fold filterId_.
  (* the first tidy *)
  destruct (tidyUpRanges_fills filterId_ w Hnf
              (consistent_selected filterId_ _ Hc))
    as [w1 (Hrun1 & Hdb1 & Hf1 & Htr1 & _)].
  rewrite (bind_run _ _ w tt w1 Hrun1).
  assert (Hnf1 : noFaults w1) by (intros n; rewrite Hf1; apply Hnf).
  pose proof (consistent_tidied filterId_ (db w) Hc) as Hc1.
  rewrite <- Hdb1 in Hc1. subst missing. rewrite <- Hdb1.
  (* the missing ranges *)
  set (missing := subtractRanges (asRange sf)
                    (selectedRanges (db w1) filterId_)).
  set (w2 := mkWorld (db w1) (trace w1) (S (statements w1)) (faulty w1)
               (scanned w1)).
  rewrite (bind_run _ _ w1 missing w2
             (getMissingRanges_ok filterId_ (asRange sf) w1 Hnf1)).
  unfold setScanned at 1.
  set (w3 := mkWorld (db w2) (trace w2) (statements w2) (faulty w2) 0).
  rewrite (bind_run _ _ w2 tt w3 eq_refl).
  (* the loop *)
  pose proof (missing_within (asRange sf) (selectedRanges (db w1) filterId_)
                Hft (consistent_selected filterId_ _ Hc1)) as Hwithin.
  fold missing in Hwithin. simpl in Hwithin.
  destruct (fetchMissing_fills provider pageSize pageSize_pos filter cb
              missing
              (fold_left
                 (fun acc range => acc + toBlock range - fromBlock range + 1)
                 missing 0)
              missing Hcb) with (i := 0%nat) (w := w3)
    as [w4 (Hrun4 & Hdb4 & Hadv4)].
  { eapply Forall_impl; [| exact Hwithin]. simpl.
    intros r (H1 & H2 & H3). split; [lia |]. split; [lia |].
    intros pg Hpg.
    pose proof (pages_within pageSize pageSize_pos _ _ _ Hpg) as Hp.
    apply Hanswers; lia. }
  { exact Hnf1. }
  fold filterId_ in Hdb4.
  rewrite (bind_run _ _ w3 tt w4 Hrun4).
  (* the second tidy *)
  assert (Hnf4 : noFaults w4) by exact (advance_noFaults _ _ _ Hadv4 Hnf1).
  pose proof (consistent_fetchedAll provider pageSize pageSize_pos
                (filterKey filter) filterId_ missing (db w1) Hc1) as Hc4.
  change (db w3) with (db w1) in Hdb4. rewrite <- Hdb4 in Hc4.
  destruct (tidyUpRanges_fills filterId_ w4 Hnf4
              (consistent_selected filterId_ _ Hc4))
    as [w5 (Hrun5 & Hdb5 & Hf5 & Htr5 & Hs5)].
  destruct Hadv4 as (Hf4 & Hs4 & evs & Ht4 & Hr4). simpl in Hf4, Hs4, Ht4.
  exists w5. split; [exact Hrun5 |]. split; [| split; [| split]].
  - rewrite Hdb5, Hdb4. unfold populated. subst missing.
    now rewrite Hdb1.
  - congruence.
  - rewrite Hs5, Hs4. lia.
  - exists evs. split; [congruence | exact Hr4].
Qed.

End Populate.

(** X13.  [fetchLogsToCache] fills the cache.  Let the store not fail,
    the callback not throw, and the provider answer every request of at
    most [pageSize] blocks within the requested range with the records of
    a chain that has no two records with the same block number and index.
    For a valid range that starts at block 1 or later and ends at or
    before the last finalized block, and tables that are consistent and
    mirror the chain, the call returns; afterwards the tables are still
    consistent and mirror the chain, no row of table [logs] is lost, the
    filter's ranges cover exactly the blocks covered before and the blocks
    of the requested range, and they are in ascending order with gaps. *)
Theorem fetchLogsToCache_populates (provider : Provider) (filter : Filter)
    (pageSize : Z) (batchCallback : option FetchLogsToCacheBatchCallback)
    (sf : StrictFilter) (lastFinalizedBlock : Z) (chain : list Log)
    (w : World) :
  1 <= pageSize ->
  noFaults w ->
  toStrictFilter provider filter (TagString "finalized") = Ok sf ->
  getBlock provider "finalized" = Some lastFinalizedBlock ->
  1 <= strictFrom sf -> strictFrom sf <= strictTo sf ->
  strictTo sf <= lastFinalizedBlock ->
  serves provider (filterKey filter) chain pageSize (strictFrom sf)
    (strictTo sf) ->
  (forall x y, In x chain -> In y chain ->
     blockNumber x = blockNumber y -> index x = index y -> x = y) ->
  (forall c, batchCallback = Some c ->
     forall a b f0 t0 rs j s n, c a b f0 t0 rs j s n = true) ->
  let filterId_ := getFilterId provider (filterKey filter) in
  consistent (db w) ->
  mirrors filterId_ chain (db w) ->
  exists w',
    fetchLogsToCache provider filter pageSize batchCallback w = (Ok tt, w') /\
    noFaults w' /\
    consistent (db w') /\
    mirrors filterId_ chain (db w') /\
    (forall row, In row (logs (db w)) -> In row (logs (db w'))) /\
    (forall b, covers (selectedRanges (db w') filterId_) b <->
               covers (selectedRanges (db w) filterId_) b \/
               strictFrom sf <= b <= strictTo sf) /\
    StronglySorted gap (selectedRanges (db w') filterId_).
Proof.
  intros Hps Hnf Hsf Hfin Hone Hft Hle Hserves Hkeys Hcb filterId_ Hc Hm.
  destruct (fetchLogsToCache_fills provider pageSize Hps filter batchCallback
              sf lastFinalizedBlock w Hnf Hsf Hfin Hone Hft Hle
              (serves_answers provider pageSize _ _ _ _ Hserves) Hcb Hc)
    as [w' (Hrun & Hdb & Hf & _)].
  destruct (populated_mirror provider (filterKey filter) filterId_ chain
              pageSize Hps (strictFrom sf) (strictTo sf) Hserves Hkeys
              (asRange sf) (db w))
    as (Hc' & Hm' & Hcov & Hk & Hgap); try assumption;
    try (simpl; lia).
  fold filterId_ in Hdb. rewrite <- Hdb in *.
  exists w'. split; [exact Hrun |].
  split; [intros n; rewrite Hf; apply Hnf |].
  repeat (split; [assumption |]). assumption.
Qed.

(** ** What is requested *)

Section Requests.

Variable pageSize : Z.
Hypothesis pageSize_pos : 1 <= pageSize.

Lemma walk_blocks toBlockN fromBlockN pages :
  Walk pageSize toBlockN fromBlockN pages ->
  fromBlockN <= toBlockN + 1 ->
  blocksOf pages = toBlockN - fromBlockN + 1.
Proof.
  induction 1 as [f Hlt | f rest Hle Hwalk IH]; intros Hf.
  - unfold blocksOf. simpl. lia.
  - rewrite blocksOf_cons, IH by lia. unfold blocksIn. simpl. lia.
Qed.

Lemma pagesOfAll_blocks ranges :
  Forall valid ranges -> blocksOf (pagesOfAll pageSize ranges) = blocksOf ranges.
Proof.
  induction 1 as [| r ranges Hv _ IH]; [reflexivity |].
  unfold pagesOfAll in *. simpl.
  rewrite blocksOf_app, blocksOf_cons, IH.
  rewrite (walk_blocks (toBlock r) (fromBlock r)).
  - unfold blocksIn. lia.
  - apply (pagesOf_walk pageSize pageSize_pos (toBlock r)
             (Z.to_nat (toBlock r - fromBlock r + 1))). apply Nat.le_refl.
  - unfold valid in Hv. lia.
Qed.

Lemma before_disjoint pages :
  StronglySorted before pages -> ForallOrdPairs disjoint pages.
Proof.
  induction 1 as [| a l Hs IH Ha]; constructor; [| assumption].
  eapply Forall_impl; [| exact Ha].
  intros x Hx b [Hb Hb']. unfold before, inRange in *. lia.
Qed.

Lemma pagesOfAll_spec ranges :
  Forall valid ranges -> ForallOrdPairs disjoint ranges ->
  (forall b, covers (pagesOfAll pageSize ranges) b <-> covers ranges b) /\
  ForallOrdPairs disjoint (pagesOfAll pageSize ranges) /\
  Forall (fun r => valid r /\ blocksIn r <= pageSize)
    (pagesOfAll pageSize ranges).
Proof.
  intros Hv Hd. unfold pagesOfAll. split; [| split].
  - intros b. rewrite covers_flat_map. unfold covers. split.
    + intros [r [Hr Hb]]. exists r. split; [assumption |].
      apply (pages_cover pageSize pageSize_pos) in Hb. exact Hb.
    + intros [r [Hr Hb]]. exists r. split; [assumption |].
      apply (pages_cover pageSize pageSize_pos). exact Hb.
  - apply (FOP_flat_map disjoint disjoint); [assumption | |].
    + intros r _. apply before_disjoint.
      pose proof (pagesOf_walk pageSize pageSize_pos (toBlock r)
                    (Z.to_nat (toBlock r - fromBlock r + 1)) (fromBlock r)
                    (Nat.le_refl _)) as Hwalk.
      now destruct (walk_tiles pageSize pageSize_pos _ _ _ Hwalk)
        as (_ & _ & Hs).
    + intros r r' p p' Hrr Hp Hp' b [Hb Hb'].
      pose proof (pages_within pageSize pageSize_pos _ _ _ Hp).
      pose proof (pages_within pageSize pageSize_pos _ _ _ Hp').
      apply (Hrr b). unfold inRange in *. lia.
  - apply Forall_forall. intros p Hp.
    apply in_flat_map in Hp as [r [_ Hp]].
    pose proof (pages_within pageSize pageSize_pos _ _ _ Hp).
    unfold valid, blocksIn. lia.
Qed.

End Requests.

(** X17.  [fetchLogsToCache] requests the missing blocks and nothing
    else.  Let the store not fail, the callback not throw and the
    provider answer every request of at most [pageSize] blocks within the
    requested range.  For a valid range that starts at block 1 or later
    and ends at or before the last finalized block, and consistent
    tables, the call returns, and the requests it sends cover exactly the
    blocks of the range that the filter's stored ranges did not cover;
    no two requests share a block, each is for at least one and at most
    [pageSize] blocks, and when the call returns [totalScannedBlocks]
    equals [blocksToScan], the number of blocks requested. *)
Theorem fetchLogsToCache_requests_missing (provider : Provider)
    (filter : Filter) (pageSize : Z)
    (batchCallback : option FetchLogsToCacheBatchCallback)
    (sf : StrictFilter) (lastFinalizedBlock : Z) (w : World) :
  1 <= pageSize ->
  noFaults w ->
  toStrictFilter provider filter (TagString "finalized") = Ok sf ->
  getBlock provider "finalized" = Some lastFinalizedBlock ->
  1 <= strictFrom sf -> strictFrom sf <= strictTo sf ->
  strictTo sf <= lastFinalizedBlock ->
  answers provider (filterKey filter) pageSize (strictFrom sf)
    (strictTo sf) ->
  (forall c, batchCallback = Some c ->
     forall a b f0 t0 rs j s n, c a b f0 t0 rs j s n = true) ->
  consistent (db w) ->
  let filterId_ := getFilterId provider (filterKey filter) in
  let blocksToScan :=
    blocksOf (subtractRanges (asRange sf)
                (mergeVals (selectedRanges (db w) filterId_))) in
  exists w' evs,
    fetchLogsToCache provider filter pageSize batchCallback w = (Ok tt, w') /\
    trace w' = trace w ++ evs /\
    (forall b, covers (requested evs) b <->
               strictFrom sf <= b <= strictTo sf /\
               ~ covers (selectedRanges (db w) filterId_) b) /\
    ForallOrdPairs disjoint (requested evs) /\
    Forall (fun r => valid r /\ blocksIn r <= pageSize) (requested evs) /\
    scanned w' = blocksToScan /\
    blocksOf (requested evs) = blocksToScan.
Proof.
  intros Hps Hnf Hsf Hfin Hone Hft Hle Hanswers Hcb Hc filterId_
         blocksToScan.
  destruct (fetchLogsToCache_fills provider pageSize Hps filter batchCallback
              sf lastFinalizedBlock w Hnf Hsf Hfin Hone Hft Hle Hanswers Hcb
              Hc) as [w' (Hrun & _ & _ & Hs & evs & Htr & Hreq)].
  fold filterId_ in Hs, Hreq.
  pose proof (consistent_selected filterId_ _ Hc) as Hv.
  destruct (tidied_spec filterId_ (db w) Hv) as (_ & _ & Hsel).
  rewrite Hsel in Hs, Hreq.
  destruct (mergeVals_spec _ Hv) as (Hcov & Hval & _).
  destruct (subtractRanges_spec (asRange sf)
              (mergeVals (selectedRanges (db w) filterId_)) Hft Hval)
    as (Hmiss & Hmv & Hmd).
  destruct (pagesOfAll_spec pageSize Hps _ Hmv Hmd) as (Hpc & Hpd & Hpv).
  pose proof (pagesOfAll_blocks pageSize Hps _ Hmv) as Hblocks.
  exists w', evs. rewrite Hreq.
  split; [exact Hrun |]. split; [exact Htr |].
  split; [| split; [exact Hpd | split; [exact Hpv | split]]].
  - intros b. rewrite Hpc, Hmiss, Hcov. unfold inRange. simpl. tauto.
  - unfold blocksToScan. now rewrite <- Hblocks.
  - exact Hblocks.
Qed.

Lemma fetchLogsToCache_requests_missing_witness :
  let w := mkWorld (mkDb [] [mkRow demoId 31 60]) [] 0 (fun _ => false) 0 in
  exists w' evs,
    fetchLogsToCache demoProvider (demoFilter 1 100) 25 None w = (Ok tt, w') /\
    trace w' = trace w ++ evs /\
    (forall b, covers (requested evs) b <->
               1 <= b <= 100 /\
               ~ covers (selectedRanges (db w) demoId) b) /\
    ForallOrdPairs disjoint (requested evs) /\
    Forall (fun r => valid r /\ blocksIn r <= 25) (requested evs) /\
    scanned w' = 70 /\
    blocksOf (requested evs) = 70.
Proof.
  cbv zeta.
  apply (fetchLogsToCache_requests_missing demoProvider (demoFilter 1 100) 25
           None (mkStrict demoKey 1 100) 100
           (mkWorld (mkDb [] [mkRow demoId 31 60]) [] 0 (fun _ => false) 0)).
  - lia.
  - intros n. reflexivity.
  - reflexivity.
  - reflexivity.
  - simpl. lia.
  - simpl. lia.
  - simpl. lia.
  - intros a b _ _ _ _. discriminate.
  - discriminate.
  - split; [simpl; constructor |]. split; [simpl; constructor |].
    simpl. constructor; [simpl; lia | constructor].
Defined.

Lemma fetchLogsToCache_populates_witness :
  exists w',
    fetchLogsToCache demoProvider (demoFilter 1 100) 40 None emptyWorld
    = (Ok tt, w') /\
    noFaults w' /\
    consistent (db w') /\
    mirrors demoId demoChain (db w') /\
    (forall row, In row (logs (db emptyWorld)) -> In row (logs (db w'))) /\
    (forall b, covers (selectedRanges (db w') demoId) b <->
               covers (selectedRanges (db emptyWorld) demoId) b \/
               1 <= b <= 100) /\
    StronglySorted gap (selectedRanges (db w') demoId).
Proof.
  apply (fetchLogsToCache_populates demoProvider (demoFilter 1 100) 40 None
           (mkStrict demoKey 1 100) 100 demoChain emptyWorld).
  - lia.
  - intros n. reflexivity.
  - reflexivity.
  - reflexivity.
  - simpl. lia.
  - simpl. lia.
  - simpl. lia.
  - intros a b _ _ _ _. reflexivity.
  - intros x y Hx Hy Hb Hi. simpl in Hx, Hy.
    destruct Hx as [<- | [<- | [<- | [<- | []]]]];
      destruct Hy as [<- | [<- | [<- | [<- | []]]]];
      simpl in *; try reflexivity; lia.
  - discriminate.
  - repeat split; simpl; constructor.
  - split; [intros row [] | intros log _ [r [[] _]]].
Defined.

(* ================================================================== *)
(** * Reading the cache *)
(* ================================================================== *)

Section OrderBy.

Lemma entryLe_total a b : entryLe a b = false -> entryLe b a = true.
Proof.
  unfold entryLe. intros H.
  apply orb_false_iff in H as [H1 H2].
  apply Z.ltb_ge in H1.
  apply orb_true_iff.
  destruct (Z.ltb_spec (entryBlockNumber b) (entryBlockNumber a));
    [now left | right].
  apply andb_false_iff in H2 as [H2 | H2].
  - apply Z.eqb_neq in H2. lia.
  - apply Z.leb_gt in H2. apply andb_true_iff.
    split; [apply Z.eqb_eq | apply Z.leb_le]; lia.
Qed.

Lemma rowLe_spec a b :
  rowLe a b <->
  entryBlockNumber a < entryBlockNumber b \/
  (entryBlockNumber a = entryBlockNumber b /\ logIndex a <= logIndex b).
Proof.
  unfold rowLe, entryLe.
  rewrite orb_true_iff, andb_true_iff, Z.ltb_lt, Z.eqb_eq, Z.leb_le.
  tauto.
Qed.

Lemma rowLe_trans a b c : rowLe a b -> rowLe b c -> rowLe a c.
Proof. rewrite !rowLe_spec. lia. Qed.

Lemma insertEntry_perm a l : Permutation (insertEntry a l) (a :: l).
Proof.
  induction l as [| b l IH]; simpl; [reflexivity |].
  destruct (entryLe a b); [reflexivity |].
  rewrite IH. apply perm_swap.
Qed.

Lemma orderEntries_perm l : Permutation (orderEntries l) l.
Proof.
  unfold orderEntries. induction l as [| a l IH]; simpl; [reflexivity |].
  rewrite insertEntry_perm. now constructor.
Qed.

Lemma insertEntry_sorted a l :
  StronglySorted rowLe l -> StronglySorted rowLe (insertEntry a l).
Proof.
  induction 1 as [| b l Hs IH Hb]; simpl.
  - repeat constructor.
  - destruct (entryLe a b) eqn:E.
    + constructor; [now constructor |].
      constructor; [exact E |].
      eapply Forall_impl; [| exact Hb]. intros x Hx.
      now apply (rowLe_trans a b x).
    + constructor; [exact IH |].
      apply Forall_forall. intros x Hx.
      apply (Permutation_in _ (insertEntry_perm a l)) in Hx.
      destruct Hx as [<- | Hx].
      * now apply entryLe_total.
      * rewrite Forall_forall in Hb. now apply Hb.
Qed.

Lemma orderEntries_sorted l : StronglySorted rowLe (orderEntries l).
Proof.
  unfold orderEntries. induction l as [| a l IH]; simpl; [constructor |].
  now apply insertEntry_sorted.
Qed.

Lemma selectedLogs_perm d filterId_ a b :
  Permutation (selectedLogs d filterId_ a b)
    (filter (matching filterId_ a b) (logs d)).
Proof. unfold selectedLogs. apply orderEntries_perm. Qed.

Lemma selectedLogs_In d filterId_ a b row :
  In row (selectedLogs d filterId_ a b) <->
  In row (logs d) /\ filterId row = filterId_ /\
  a <= entryBlockNumber row <= b.
Proof.
  split.
  - intros H. apply (Permutation_in _ (selectedLogs_perm d filterId_ a b)) in H.
    apply filter_In in H as [Hin Hm]. unfold matching in Hm.
    apply andb_true_iff in Hm as [Hm H3].
    apply andb_true_iff in Hm as [H1 H2].
    apply String.eqb_eq in H1. apply Z.leb_le in H2, H3. auto.
  - intros (Hin & Hid & Hb).
    apply (Permutation_in _
             (Permutation_sym (selectedLogs_perm d filterId_ a b))).
    apply filter_In. split; [assumption |]. unfold matching.
    rewrite !andb_true_iff, String.eqb_eq, !Z.leb_le. tauto.
Qed.

Lemma NoDup_filter_map {A B} (g : A -> B) (f : A -> bool) l :
  NoDup (map g l) -> NoDup (map g (filter f l)).
Proof.
  induction l as [| a l IH]; simpl; intros H; [constructor |].
  inversion H as [| ? ? Hn Hd]; subst.
  destruct (f a); simpl; [| auto].
  constructor; [| auto].
  intros Hin. apply Hn. apply in_map_iff in Hin as [x [Hx Hin]].
  apply filter_In in Hin as [Hin _]. apply in_map_iff. eauto.
Qed.

(** Rows of one filter with distinct keys, in the order of the query:
    the records they hold are in strict block/index order. *)
Lemma rows_strictly_ordered filterId_ rows :
  Forall (fun row => filterId row = filterId_ /\
                     entryBlockNumber row = blockNumber (data row) /\
                     logIndex row = index (data row)) rows ->
  NoDup (map logKey rows) ->
  StronglySorted rowLe rows ->
  StronglySorted logLt (map data rows).
Proof.
  induction rows as [| a rows IH]; intros Hall Hnd Hs; simpl;
    [constructor |].
  apply Forall_cons_iff in Hall as [(Ha1 & Ha2 & Ha3) Hall].
  inversion Hnd as [| ? ? Hn Hnd']; subst.
  inversion Hs as [| ? ? Hs' Hle]; subst.
  constructor; [auto |].
  apply Forall_forall. intros x Hx.
  apply in_map_iff in Hx as [row [<- Hrow]].
  rewrite Forall_forall in Hall, Hle.
  destruct (Hall row Hrow) as (Hr1 & Hr2 & Hr3).
  pose proof (Hle row Hrow) as Hab. apply rowLe_spec in Hab.
  assert (Hk : logKey a <> logKey row).
  { intros E. apply Hn. rewrite E. now apply in_map. }
  unfold logLt. rewrite <- Ha2, <- Ha3, <- Hr2, <- Hr3.
  destruct Hab as [Hab | [Hb Hi]]; [now left | right].
  split; [assumption |].
  destruct (Z.eq_dec (logIndex a) (logIndex row)) as [E |]; [| lia].
  exfalso. apply Hk. unfold logKey. congruence.
Qed.

Lemma selectedLogs_ordered d filterId_ a b :
  consistent d ->
  StronglySorted logLt (map data (selectedLogs d filterId_ a b)).
Proof.
  intros (Hnd & Hcols & _).
  apply (rows_strictly_ordered filterId_).
  - apply Forall_forall. intros row Hrow.
    apply selectedLogs_In in Hrow as (Hin & Hid & _).
    rewrite Forall_forall in Hcols. split; [assumption | now apply Hcols].
  - apply (Permutation_NoDup
             (l := map logKey (filter (matching filterId_ a b) (logs d)))).
    + apply Permutation_map. symmetry. apply selectedLogs_perm.
    + now apply NoDup_filter_map.
  - unfold selectedLogs. apply orderEntries_sorted.
Qed.

Lemma logLt_sorted_unique l1 : forall l2,
  StronglySorted logLt l1 -> StronglySorted logLt l2 ->
  (forall x, In x l1 <-> In x l2) -> l1 = l2.
Proof.
  induction l1 as [| a l1 IH]; intros l2 H1 H2 Hsame.
  - destruct l2 as [| b l2]; [reflexivity |].
    exfalso. apply (proj2 (Hsame b)). now left.
  - destruct l2 as [| b l2].
    { exfalso. apply (proj1 (Hsame a)). now left. }
    inversion H1 as [| ? ? H1' Ha]; subst.
    inversion H2 as [| ? ? H2' Hb]; subst.
    rewrite Forall_forall in Ha, Hb.
    assert (E : a = b).
    { destruct (proj1 (Hsame a) (or_introl eq_refl)) as [E | Hin];
        [now symmetry |].
      destruct (proj2 (Hsame b) (or_introl eq_refl)) as [E | Hin'];
        [assumption |].
      pose proof (Hb a Hin) as Hba. pose proof (Ha b Hin') as Hab.
      unfold logLt in *. lia. }
    subst b. f_equal. apply IH; try assumption.
    intros x. split; intros Hx.
    + destruct (proj1 (Hsame x) (or_intror Hx)) as [E | Hin];
        [| assumption].
      subst x. pose proof (Ha a Hx) as Haa. unfold logLt in Haa. lia.
    + destruct (proj2 (Hsame x) (or_intror Hx)) as [E | Hin];
        [| assumption].
      subst x. pose proof (Hb a Hx) as Haa. unfold logLt in Haa. lia.
Qed.

End OrderBy.

(** X14.  [readLogsFromCache] only reads.  Whatever the store does, the
    tables and the trace of requests and callbacks are as before.  When a
    list of records is returned, the filter resolved to some bounds, and
    the records are those of the rows of table [logs] that have the
    filter's id and a block number within the bounds, each row once, in
    the order of block number and log index; when the tables are
    consistent the records are moreover in strict block/index order and
    each is of a block within the bounds.  The only failures are an
    unknown block tag and a failed statement. *)
Theorem readLogsFromCache_reads (provider : Provider) (filter : Filter)
    (w : World) :
  let r := readLogsFromCache provider filter w in
  let filterId_ := getFilterId provider (filterKey filter) in
  db (snd r) = db w /\ trace (snd r) = trace w /\
  (forall records, fst r = Ok records ->
     exists sf rows,
       toStrictFilter provider filter (TagString "latest") = Ok sf /\
       records = map data rows /\
       Permutation rows
         (List.filter (matching filterId_ (strictFrom sf) (strictTo sf))
            (logs (db w))) /\
       StronglySorted rowLe rows /\
       (consistent (db w) ->
        StronglySorted logLt records /\
        Forall (fun log => strictFrom sf <= blockNumber log <= strictTo sf)
          records)) /\
  (forall e, fst r = Err e -> e = InvalidBlock \/ e = StoreFailure).
Proof.
  cbv zeta. unfold readLogsFromCache.
  destruct (toStrictFilter provider filter (TagString "latest"))
    as [sf | e] eqn:Hsf.
  2:{ simpl. split; [reflexivity |]. split; [reflexivity |].
      split; [discriminate |].
      intros e' E. injection E as <-. left.
      now apply (toStrictFilter_error provider filter (TagString "latest")). }
  unfold bind, _selectLogs, statement, lift, ret. cbv beta iota zeta.
  destruct (faulty w (statements w)); simpl.
  - split; [reflexivity |]. split; [reflexivity |].
    split; [discriminate |]. intros e E. injection E as <-. now right.
  - split; [reflexivity |]. split; [reflexivity |].
    split; [| discriminate].
    intros records E. injection E as <-.
    exists sf, (selectedLogs (db w) (getFilterId provider (filterKey filter))
                  (strictFrom sf) (strictTo sf)).
    split; [reflexivity |]. split; [reflexivity |].
    split; [apply selectedLogs_perm |].
    split; [unfold selectedLogs; apply orderEntries_sorted |].
    intros Hc. split; [now apply selectedLogs_ordered |].
    apply Forall_forall. intros log Hlog.
    apply in_map_iff in Hlog as [row [<- Hrow]].
    apply selectedLogs_In in Hrow as (Hin & _ & Hb).
    destruct Hc as (_ & Hcols & _). rewrite Forall_forall in Hcols.
    destruct (Hcols row Hin) as [<- _]. exact Hb.
Qed.

(** ** What the cache returns is what the chain holds *)

Section Chain.

Variable chain : list Log.
Hypothesis chain_sorted : StronglySorted logLt chain.

Lemma sorted_keys x y :
  In x chain -> In y chain ->
  blockNumber x = blockNumber y -> index x = index y -> x = y.
Proof.
  induction chain_sorted as [| a l Hs IH Ha]; [intros [] |].
  rewrite Forall_forall in Ha.
  intros [<- | Hx] [<- | Hy] Hb Hi; auto.
  - pose proof (Ha y Hy) as H. unfold logLt in H. lia.
  - pose proof (Ha x Hx) as H. unfold logLt in H. lia.
Qed.

Lemma cached_records_are_chain filterId_ d a b :
  consistent d -> mirrors filterId_ chain d ->
  (forall n, a <= n <= b -> covers (selectedRanges d filterId_) n) ->
  map data (selectedLogs d filterId_ a b) = filter (inBlocks a b) chain.
Proof.
  intros Hc [Hfa Hco] Hcov.
  apply logLt_sorted_unique.
  - now apply selectedLogs_ordered.
  - now apply sorted_filter.
  - intros x. rewrite filter_In. unfold inBlocks.
    rewrite andb_true_iff, !Z.leb_le. split.
    + intros Hx. apply in_map_iff in Hx as [row [<- Hrow]].
      apply selectedLogs_In in Hrow as (Hin & Hid & Hb).
      destruct Hc as (_ & Hcols & _). rewrite Forall_forall in Hcols.
      destruct (Hcols row Hin) as [<- _]. split; [now apply Hfa | lia].
    + intros [Hx Hb]. apply in_map_iff. exists (entryOf filterId_ x).
      split; [reflexivity |]. apply selectedLogs_In.
      split; [| simpl; split; [reflexivity | lia]].
      apply Hco; [assumption |]. apply Hcov. lia.
Qed.

Lemma filter_none {A} (f : A -> bool) l :
  (forall x, In x l -> f x = false) -> filter f l = [].
Proof.
  induction l as [| a l IH]; intros H; simpl; [reflexivity |].
  rewrite (H a (or_introl eq_refl)). apply IH. intros x Hx. apply H. now right.
Qed.

Lemma filter_blocks_sorted l a m b :
  StronglySorted logLt l ->
  a <= m + 1 -> m <= b ->
  filter (inBlocks a m) l ++ filter (inBlocks (m + 1) b) l
  = filter (inBlocks a b) l.
Proof.
  intros Hs Ham Hmb.
  induction Hs as [| x l Hs IH Hx]; [reflexivity |].
  simpl.
  destruct (inBlocks a m x) eqn:E1; destruct (inBlocks (m + 1) b x) eqn:E2;
    destruct (inBlocks a b x) eqn:E3;
    unfold inBlocks in E1, E2, E3;
    rewrite ?andb_true_iff, ?andb_false_iff, ?Z.leb_le, ?Z.leb_gt in *;
    try lia.
  - simpl. now rewrite IH.
  - rewrite <- IH.
    rewrite (filter_none (inBlocks a m) l); [reflexivity |].
    intros y Hy. rewrite Forall_forall in Hx. pose proof (Hx y Hy) as Hlt.
    unfold logLt in Hlt. unfold inBlocks. apply andb_false_iff. right.
    apply Z.leb_gt. lia.
  - exact IH.
Qed.

Lemma filter_blocks_split a m b :
  a <= m + 1 -> m <= b ->
  filter (inBlocks a m) chain ++ filter (inBlocks (m + 1) b) chain
  = filter (inBlocks a b) chain.
Proof. now apply filter_blocks_sorted. Qed.

Lemma pages_answer_chain provider key pageSize lo hi :
  1 <= pageSize ->
  serves provider key chain pageSize lo hi ->
  forall toBlockN fromBlockN pages,
    Walk pageSize toBlockN fromBlockN pages ->
    lo <= fromBlockN -> toBlockN <= hi ->
    flat_map (answer provider key) pages
    = filter (inBlocks fromBlockN toBlockN) chain.
Proof.
  intros Hps Hserves toBlockN fromBlockN pages Hwalk.
  induction Hwalk as [f Hlt | f rest Hle Hwalk IH]; intros Hlo Hhi.
  - simpl. symmetry. apply filter_none. intros x _.
    unfold inBlocks. apply andb_false_iff.
    destruct (Z.leb_spec f (blockNumber x)); [right | now left].
    apply Z.leb_gt. lia.
  - simpl. unfold answer at 1. simpl.
    rewrite Hserves by lia. rewrite IH by lia.
    apply filter_blocks_split; lia.
Qed.

End Chain.

Section Whole.

Variable provider : Provider.
Variable pageSize : Z.
Hypothesis pageSize_pos : 1 <= pageSize.

Lemma numbers_strict (sk : FilterKey) a b defaultToBlock :
  a <> 0 -> b <> 0 ->
  toStrictFilter provider
    (mkFilter sk (Some (TagNumber a)) (Some (TagNumber b))) defaultToBlock
  = Ok (mkStrict sk a b).
Proof.
  intros Ha Hb. unfold toStrictFilter, orElse, truthy. simpl.
  destruct (Z.eqb_spec a 0); [contradiction |].
  destruct (Z.eqb_spec b 0); [contradiction |].
  reflexivity.
Qed.

Lemma readLogsFromCache_ok filter sf w :
  noFaults w ->
  toStrictFilter provider filter (TagString "latest") = Ok sf ->
  readLogsFromCache provider filter w
  = (Ok (map data
           (selectedLogs (db w) (getFilterId provider (filterKey filter))
              (strictFrom sf) (strictTo sf))),
     mkWorld (db w) (trace w) (S (statements w)) (faulty w) (scanned w)).
Proof.
  intros Hnf Hsf. unfold readLogsFromCache. rewrite Hsf.
  unfold bind, _selectLogs, lift, ret. cbv beta iota.
  now rewrite statement_ok by assumption.
Qed.

Lemma fetchLogs_run filter (cb : option FetchLogsBatchCallback) sf w :
  toStrictFilter provider filter (TagString "latest") = Ok sf ->
  (forall c, cb = Some c -> forall a b f0 t0, c a b f0 t0 = true) ->
  (forall pg, In pg (pagesOf pageSize (strictFrom sf) (strictTo sf)) ->
     getLogs_upstream provider (filterKey filter) (fromBlock pg) (toBlock pg)
     <> None) ->
  fetchLogs provider filter pageSize (option_map callBatch cb) w
  = (Ok (flat_map (answer provider (filterKey filter))
           (pagesOf pageSize (strictFrom sf) (strictTo sf))),
     appendTrace
       (walkEvents provider (filterKey filter) (isSome cb) []
          (pagesOf pageSize (strictFrom sf) (strictTo sf))) w).
Proof.
  intros Hsf Hcb Hup. unfold fetchLogs.
  destruct (Z.ltb_spec pageSize 1); [lia |].
  rewrite Hsf. unfold bind, lift, ret. cbv beta iota.
  now rewrite (fetchLoop_run provider (filterKey filter) pageSize
                 pageSize_pos (strictTo sf) cb Hcb) by (auto || lia).
Qed.

(** The whole run of [getLogs] over a served chain, when nothing fails. *)
Lemma getLogs_fills filter cb1 cb2 sf lastFinalizedBlock chain w :
  noFaults w ->
  toStrictFilter provider filter (TagString "latest") = Ok sf ->
  getBlock provider "finalized" = Some lastFinalizedBlock ->
  1 <= strictFrom sf ->
  strictFrom sf <= Z.min (strictTo sf) lastFinalizedBlock ->
  serves provider (filterKey filter) chain pageSize (strictFrom sf)
    (strictTo sf) ->
  StronglySorted logLt chain ->
  (forall c, cb1 = Some c ->
     forall a b f0 t0 rs j s n, c a b f0 t0 rs j s n = true) ->
  (lastFinalizedBlock < strictTo sf ->
   forall c, cb2 = Some c -> forall a b f0 t0, c a b f0 t0 = true) ->
  consistent (db w) ->
  mirrors (getFilterId provider (filterKey filter)) chain (db w) ->
  exists w',
    getLogs provider filter pageSize cb1 cb2 w
    = (Ok (List.filter (inBlocks (strictFrom sf) (strictTo sf)) chain), w') /\
    faulty w' = faulty w /\
    db w'
    = populated provider (filterKey filter)
        (getFilterId provider (filterKey filter)) pageSize
        (mkRange (strictFrom sf) (Z.min (strictTo sf) lastFinalizedBlock))
        (db w).
Proof.
  intros Hnf Hsf Hfin Hone Hft Hserves Hsorted Hcb1 Hcb2 Hc Hm.
  pose proof (toStrictFilter_key _ _ _ _ Hsf) as Hkey.
  set (filterId_ := getFilterId provider (filterKey filter)) in *.
  set (upTo := Z.min (strictTo sf) lastFinalizedBlock) in *.
  pose proof (sorted_keys chain Hsorted) as Hkeys.
  unfold getLogs. rewrite Hfin, Hsf.
  rewrite (bind_run _ _ w lastFinalizedBlock w eq_refl).
  rewrite (bind_run _ _ w sf w eq_refl).
  fold upTo.
  set (inner := withToBlock sf upTo).
  assert (Hik : filterKey inner = filterKey filter) by exact Hkey.
  assert (Hserves' : serves provider (filterKey inner) chain pageSize
                       (strictFrom sf) upTo).
  { rewrite Hik. intros a b H1 H2 H3 H4. apply Hserves; unfold upTo in *; lia. }
  (* the finalized part goes to the cache *)
  destruct (fetchLogsToCache_fills provider pageSize pageSize_pos inner cb1
              (mkStrict (strictKey sf) (strictFrom sf) upTo)
              lastFinalizedBlock w Hnf)
    as [w1 (Hrun1 & Hdb1 & Hf1 & _)]; try assumption; simpl;
    try (unfold upTo; lia).
  { apply numbers_strict; unfold upTo; lia. }
  { exact (serves_answers provider pageSize _ _ _ _ Hserves'). }
  rewrite (bind_run _ _ w tt w1 Hrun1).
  assert (Hnf1 : noFaults w1) by (intros n; rewrite Hf1; apply Hnf).
  change (filterKey inner) with (strictKey sf) in Hdb1.
  rewrite Hkey in Hdb1. fold filterId_ in Hdb1.
  destruct (populated_mirror provider (filterKey filter) filterId_ chain
              pageSize pageSize_pos (strictFrom sf) (strictTo sf) Hserves
              Hkeys (mkRange (strictFrom sf) upTo) (db w))
    as (Hc1 & Hm1 & Hcov1 & _); try assumption;
    try (unfold valid; simpl; unfold upTo; lia).
  unfold asRange in Hdb1. cbn [strictFrom strictTo] in Hdb1.
  rewrite <- Hdb1 in Hc1, Hm1, Hcov1.
  (* it is read back *)
  rewrite (bind_run _ _ w1 _ _
             (readLogsFromCache_ok inner
                (mkStrict (strictKey sf) (strictFrom sf) upTo) w1 Hnf1
                (numbers_strict (strictKey sf) (strictFrom sf) upTo
                   (TagString "latest") ltac:(unfold upTo; lia)
                   ltac:(unfold upTo; lia)))).
  cbn [strictFrom strictTo]. rewrite Hik. fold filterId_.
  rewrite (cached_records_are_chain chain Hsorted filterId_ (db w1)
             (strictFrom sf) upTo Hc1 Hm1).
  2:{ intros n Hn. apply Hcov1. right. exact Hn. }
  rewrite Z.gtb_ltb.
  destruct (Z.ltb_spec lastFinalizedBlock (strictTo sf)) as [Hlive | Hdone].
  - (* the rest comes from the provider *)
    rewrite (bind_run _ _ _ _ _
               (fetchLogs_run (withFromBlock sf (lastFinalizedBlock + 1)) cb2
                  (mkStrict (strictKey sf) (lastFinalizedBlock + 1)
                     (strictTo sf)) _
                  (numbers_strict (strictKey sf) (lastFinalizedBlock + 1)
                     (strictTo sf) (TagString "latest")
                     ltac:(unfold upTo in *; lia)
                     ltac:(unfold upTo in *; lia))
                  (Hcb2 Hlive)
                  ltac:(intros pg Hpg;
                        pose proof (pages_within pageSize pageSize_pos _ _ _
                                      Hpg) as Hp;
                        simpl in Hp |- *;
                        rewrite Hkey, Hserves by (unfold upTo in *; lia);
                        discriminate))).
    cbn [filterKey withFromBlock strictFrom strictTo].
    unfold bind, ret. eexists. split; [| split].
    + f_equal. f_equal. simpl.
      rewrite Hkey.
      rewrite (pages_answer_chain chain Hsorted provider (filterKey filter)
                 pageSize (strictFrom sf) (strictTo sf) pageSize_pos Hserves
                 (strictTo sf) (lastFinalizedBlock + 1));
        [| | unfold upTo in *; lia | lia].
      * replace upTo with lastFinalizedBlock by (unfold upTo; lia).
        apply (filter_blocks_split chain Hsorted); unfold upTo in *; lia.
      * apply (pagesOf_walk pageSize pageSize_pos (strictTo sf)
                 (Z.to_nat (strictTo sf - (lastFinalizedBlock + 1) + 1))).
        apply Nat.le_refl.
    + simpl. exact Hf1.
    + simpl. exact Hdb1.
  - replace upTo with (strictTo sf) by (unfold upTo; lia).
    eexists. split; [reflexivity |]. simpl. split; [exact Hf1 |].
    rewrite Hdb1. now replace upTo with (strictTo sf) by (unfold upTo; lia).
Qed.

End Whole.

(** X15.  [getLogs] returns what the chain holds.  Let the store not
    fail, the callbacks not throw, and the provider answer every request
    of at most [pageSize] blocks within the requested range with the
    records of a chain that is in strict block/index order.  For a range
    that starts at block 1 or later, at or before both its end and the
    last finalized block, and tables that are consistent and mirror the
    chain, [getLogs] returns exactly the records of the chain in the
    requested range, in order, whether the range ends before or after the
    last finalized block.  Afterwards the tables are consistent and mirror
    the chain, and the filter's ranges cover the blocks covered before and
    the requested blocks up to the last finalized block, nothing more. *)
Theorem getLogs_returns_chain (provider : Provider) (filter : Filter)
    (pageSize : Z)
    (finalizedLogsCallback : option FetchLogsToCacheBatchCallback)
    (unfinalizedLogsCallback : option FetchLogsBatchCallback)
    (sf : StrictFilter) (lastFinalizedBlock : Z) (chain : list Log)
    (w : World) :
  1 <= pageSize ->
  noFaults w ->
  toStrictFilter provider filter (TagString "latest") = Ok sf ->
  getBlock provider "finalized" = Some lastFinalizedBlock ->
  1 <= strictFrom sf ->
  strictFrom sf <= Z.min (strictTo sf) lastFinalizedBlock ->
  serves provider (filterKey filter) chain pageSize (strictFrom sf)
    (strictTo sf) ->
  StronglySorted logLt chain ->
  (forall c, finalizedLogsCallback = Some c ->
     forall a b f0 t0 rs j s n, c a b f0 t0 rs j s n = true) ->
  (forall c, unfinalizedLogsCallback = Some c ->
     forall a b f0 t0, c a b f0 t0 = true) ->
  let filterId_ := getFilterId provider (filterKey filter) in
  consistent (db w) ->
  mirrors filterId_ chain (db w) ->
  exists w',
    getLogs provider filter pageSize finalizedLogsCallback
      unfinalizedLogsCallback w
    = (Ok (List.filter (inBlocks (strictFrom sf) (strictTo sf)) chain), w') /\
    noFaults w' /\
    consistent (db w') /\
    mirrors filterId_ chain (db w') /\
    (forall b, covers (selectedRanges (db w') filterId_) b <->
               covers (selectedRanges (db w) filterId_) b \/
               strictFrom sf <= b <= Z.min (strictTo sf) lastFinalizedBlock).
Proof.
  intros Hps Hnf Hsf Hfin Hone Hft Hserves Hsorted Hcb1 Hcb2 filterId_ Hc Hm.
  destruct (getLogs_fills provider pageSize Hps filter finalizedLogsCallback
              unfinalizedLogsCallback sf lastFinalizedBlock chain w Hnf Hsf
              Hfin Hone Hft Hserves Hsorted Hcb1 (fun _ => Hcb2) Hc Hm)
    as [w' (Hrun & Hf & Hdb)].
  destruct (populated_mirror provider (filterKey filter) filterId_ chain
              pageSize Hps (strictFrom sf) (strictTo sf) Hserves
              (sorted_keys chain Hsorted)
              (mkRange (strictFrom sf)
                 (Z.min (strictTo sf) lastFinalizedBlock)) (db w))
    as (Hc' & Hm' & Hcov & _); try assumption;
    try (unfold valid; simpl; lia).
  fold filterId_ in Hdb. rewrite <- Hdb in *.
  exists w'. split; [exact Hrun |].
  split; [intros n; rewrite Hf; apply Hnf |].
  split; [assumption |]. split; [assumption |]. exact Hcov.
Qed.

Lemma getLogs_returns_chain_witness :
  exists w',
    getLogs demoProvider (demoFilter 1 120) 40 None None emptyWorld
    = (Ok (List.filter (inBlocks 1 120) demoChain), w') /\
    noFaults w' /\
    consistent (db w') /\
    mirrors (getFilterId demoProvider demoKey) demoChain (db w') /\
    (forall b, covers (selectedRanges (db w')
                         (getFilterId demoProvider demoKey)) b <->
               covers (selectedRanges (db emptyWorld)
                         (getFilterId demoProvider demoKey)) b \/
               1 <= b <= Z.min 120 100).
Proof.
  apply (getLogs_returns_chain demoProvider (demoFilter 1 120) 40 None None
           (mkStrict demoKey 1 120) 100 demoChain emptyWorld).
  - lia.
  - intros n. reflexivity.
  - reflexivity.
  - reflexivity.
  - simpl. lia.
  - simpl. lia.
  - intros a b _ _ _ _. reflexivity.
  - repeat constructor; unfold logLt; simpl; lia.
  - discriminate.
  - discriminate.
  - repeat split; simpl; constructor.
  - split; [intros row [] | intros log _ [r [[] _]]].
Defined.

(** X16.  What one call cached, the next call does not fetch.  After a
    call of [getLogs] as in X15 for a range that ends at or before the
    last finalized block, a call for the same filter and any range within
    the first one, with any page size of at least 1 and any callbacks,
    returns the records of the chain in its range, sends no request and
    calls no callback (the trace is as the first call left it) and adds
    no row to table [logs]. *)
Theorem getLogs_again_from_cache (provider : Provider)
    (filter again : Filter) (pageSize pageSize' : Z)
    (cb1 cb1' : option FetchLogsToCacheBatchCallback)
    (cb2 cb2' : option FetchLogsBatchCallback)
    (sf sf' : StrictFilter) (lastFinalizedBlock : Z) (chain : list Log)
    (w : World) :
  1 <= pageSize -> 1 <= pageSize' ->
  noFaults w ->
  toStrictFilter provider filter (TagString "latest") = Ok sf ->
  getBlock provider "finalized" = Some lastFinalizedBlock ->
  1 <= strictFrom sf -> strictFrom sf <= strictTo sf ->
  strictTo sf <= lastFinalizedBlock ->
  serves provider (filterKey filter) chain pageSize (strictFrom sf)
    (strictTo sf) ->
  StronglySorted logLt chain ->
  (forall c, cb1 = Some c ->
     forall a b f0 t0 rs j s n, c a b f0 t0 rs j s n = true) ->
  consistent (db w) ->
  mirrors (getFilterId provider (filterKey filter)) chain (db w) ->
  filterKey again = filterKey filter ->
  toStrictFilter provider again (TagString "latest") = Ok sf' ->
  strictFrom sf <= strictFrom sf' -> strictFrom sf' <= strictTo sf' ->
  strictTo sf' <= strictTo sf ->
  exists w1 w2,
    getLogs provider filter pageSize cb1 cb2 w
    = (Ok (List.filter (inBlocks (strictFrom sf) (strictTo sf)) chain), w1) /\
    getLogs provider again pageSize' cb1' cb2' w1
    = (Ok (List.filter (inBlocks (strictFrom sf') (strictTo sf')) chain),
       w2) /\
    trace w2 = trace w1 /\
    logs (db w2) = logs (db w1).
Proof.
  intros Hps Hps' Hnf Hsf Hfin Hone Hft Hle Hserves Hsorted Hcb1 Hc Hm
         Hkey Hsf' H1 H2 H3.
  set (filterId_ := getFilterId provider (filterKey filter)) in *.
  destruct (getLogs_fills provider pageSize Hps filter cb1 cb2 sf
              lastFinalizedBlock chain w Hnf Hsf Hfin Hone
              ltac:(lia) Hserves Hsorted Hcb1 ltac:(lia) Hc Hm)
    as [w1 (Hrun & Hf & Hdb)].
  assert (Hnf1 : noFaults w1) by (intros n; rewrite Hf; apply Hnf).
  destruct (populated_mirror provider (filterKey filter) filterId_ chain
              pageSize Hps (strictFrom sf) (strictTo sf) Hserves
              (sorted_keys chain Hsorted)
              (mkRange (strictFrom sf)
                 (Z.min (strictTo sf) lastFinalizedBlock)) (db w))
    as (Hc1 & Hm1 & Hcov1 & _); try assumption;
    try (unfold valid; simpl; lia).
  fold filterId_ in Hdb. rewrite <- Hdb in *.
  pose proof (toStrictFilter_key _ _ _ _ Hsf') as Hkey'.
  assert (Hfinal : getFinalizedBlockNumber provider = Ok lastFinalizedBlock).
  { unfold getFinalizedBlockNumber. now rewrite Hfin. }
  assert (Hmin : Z.min (strictTo sf') lastFinalizedBlock = strictTo sf')
    by lia.
  destruct (getLogs_cached provider pageSize' Hps' lastFinalizedBlock Hfinal
              again cb1' cb2' sf'
              (mkStrict (strictKey sf') (strictFrom sf') (strictTo sf'))
              (mkStrict (strictKey sf') (strictFrom sf') (strictTo sf'))
              w1 Hnf1 Hsf')
    as [w2 (Hrun2 & Htr2 & Hl2 & _)].
  - lia.
  - rewrite Hmin. apply numbers_strict; lia.
  - rewrite Hmin. apply numbers_strict; lia.
  - simpl. lia.
  - unfold valid. simpl. lia.
  - cbn [filterKey withToBlock]. rewrite Hkey', Hkey. fold filterId_.
    split; [now apply consistent_selected |].
    intros b Hb. apply Hcov1. right. unfold inRange in *. simpl in *. lia.
  - exists w1, w2. split; [exact Hrun |]. split; [| auto].
    rewrite Hrun2. f_equal. f_equal.
    cbn [filterKey withToBlock strictFrom strictTo].
    rewrite Hkey', Hkey. fold filterId_.
    apply (cached_records_are_chain chain Hsorted); try assumption.
    intros n Hn. apply Hcov1. right. unfold inRange. simpl. lia.
Qed.

Lemma getLogs_again_from_cache_witness :
  exists w1 w2,
    getLogs demoProvider (demoFilter 1 100) 10 None None emptyWorld
    = (Ok (List.filter (inBlocks 1 100) demoChain), w1) /\
    getLogs demoProvider (demoFilter 20 60) 7 None None w1
    = (Ok (List.filter (inBlocks 20 60) demoChain), w2) /\
    trace w2 = trace w1 /\
    logs (db w2) = logs (db w1).
Proof.
  apply (getLogs_again_from_cache demoProvider (demoFilter 1 100)
           (demoFilter 20 60) 10 7 None None None None
           (mkStrict demoKey 1 100) (mkStrict demoKey 20 60) 100 demoChain
           emptyWorld).
  - lia.
  - lia.
  - intros n. reflexivity.
  - reflexivity.
  - reflexivity.
  - simpl. lia.
  - simpl. lia.
  - simpl. lia.
  - intros a b _ _ _ _. reflexivity.
  - repeat constructor; unfold logLt; simpl; lia.
  - discriminate.
  - repeat split; simpl; constructor.
  - split; [intros row [] | intros log _ [r [[] _]]].
  - reflexivity.
  - reflexivity.
  - simpl. lia.
  - simpl. lia.
  - simpl. lia.
Defined.

Lemma readLogsFromCache_reads_witness :
  StronglySorted logLt
    [mkLog 50 3 "a"] /\
  fst (readLogsFromCache demoProvider (demoFilter 1 100) demoCachedWorld)
  = Ok [mkLog 50 3 "a"] /\
  db (snd (readLogsFromCache demoProvider (demoFilter 1 100) demoCachedWorld))
  = db demoCachedWorld.
Proof.
  pose proof (readLogsFromCache_reads demoProvider (demoFilter 1 100)
                demoCachedWorld) as H.
  cbv zeta in H. destruct H as (Hdb & _ & Hok & _).
  assert (E : fst (readLogsFromCache demoProvider (demoFilter 1 100)
                     demoCachedWorld) = Ok [mkLog 50 3 "a"])
    by (vm_compute; reflexivity).
  destruct (Hok _ E) as (sf & rows & _ & _ & _ & _ & Hc).
  split; [| split; [exact E | exact Hdb]].
  apply Hc. split; [| split]; vm_compute; repeat constructor;
    try (intros [H | H]; [discriminate H | exact H]);
    try (intros H; exact H); try discriminate.
Defined.
